(** * xml2ddl: the type lattice, the entity accumulators, relation
      finalization and the relation report of [xml2ddl.py]

    A shallow embedding of the schema-inference engine of [xml2ddl.py] and
    the properties of it that the specification states.

    Conventions of the embedding.
    - A Python [str] is a [string]; its characters are the code points
      below 256, on which the pattern class [\d] is the same as [[0-9]].
    - A Python [dict] is an association list in insertion order with unique
      keys ([dict_get], [dict_set]); a Python [set] is a list without
      repetitions in its iteration order ([set_add]).
    - Exceptions are the left summand of a sum type ([exn]).
    - The data type names "BIT" ... "NTEXT" are the constructors of
      [DataType]; the unset value type [None] is [None : option DataType]. *)

From Stdlib Require Import Ascii String ZArith Lia.
From stdpp Require Import base decidable option list strings gmap pretty.

Local Open Scope string_scope.
Local Open Scope nat_scope.
Local Open Scope list_scope.

(** ** Exceptions *)

Inductive exn : Type :=
| XTDNameError            (* raise XTDNameError *)
| XTDNotValid             (* raise XTDNotValid *)
| KeyError (k : string)   (* d[k] on a dict without the key k *)
| OutOfFuel.              (* the bound on the recursion depth was reached *)

Definition result (A : Type) : Type := exn + A.

Definition ret {A} (a : A) : result A := inr a.
Definition raise {A} (e : exn) : result A := inl e.
Definition bind {A B} (m : result A) (k : A → result B) : result B :=
  match m with
  | inl e => inl e
  | inr a => k a
  end.

Global Instance result_fmap : FMap result := fun A B f m =>
  match m with
  | inl e => inl e
  | inr a => inr (f a)
  end.

Notation "'do' x <- m ; k" := (bind m (fun x => k))
  (at level 10, x pattern, m at level 100, k at level 200).

(** [for x in l: st = body(x, st)] where the body may raise. *)
Fixpoint for_each {A S} (l : list A) (body : A → S → result S) (st : S)
  : result S :=
  match l with
  | [] => ret st
  | x :: l' => do st' <- body x st; for_each l' body st'
  end.

(** ** Dictionaries and sets *)

Section Dict.
Context {V : Type}.

(** [d.get(k)] / [d[k]] *)
Fixpoint dict_get (d : list (string * V)) (k : string) : option V :=
  match d with
  | [] => None
  | (k', v) :: d' => if decide (k' = k) then Some v else dict_get d' k
  end.

(** [d[k] = v]: an existing key keeps its place, a new one goes last. *)
Fixpoint dict_set (d : list (string * V)) (k : string) (v : V)
  : list (string * V) :=
  match d with
  | [] => [(k, v)]
  | (k', v') :: d' =>
      if decide (k' = k) then (k, v) :: d' else (k', v') :: dict_set d' k v
  end.

(** [k in d] *)
Definition dict_mem (d : list (string * V)) (k : string) : bool :=
  bool_decide (is_Some (dict_get d k)).

Definition dict_keys (d : list (string * V)) : list string := d.*1.
Definition dict_values (d : list (string * V)) : list V := d.*2.

(** [d[k]], raising [KeyError] *)
Definition dict_at (d : list (string * V)) (k : string) : result V :=
  match dict_get d k with
  | Some v => ret v
  | None => raise (KeyError k)
  end.
End Dict.

(** [x in s] for a set or a list of strings *)
Definition mem (x : string) (s : list string) : bool := bool_decide (x ∈ s).

(** [s.add(x)] *)
Definition set_add (x : string) (s : list string) : list string :=
  if mem x s then s else s ++ [x].

(** ** Regular expressions of [re.search]

    The three patterns of [get_data_type] are written with the usual
    operators and matched with derivatives. Every alternative of every
    pattern is of the form [^r$]; without [re.MULTILINE], [^] matches at the
    start of the string only and [$] at its end or just before a line feed
    that is its last character. *)

Inductive regex : Type :=
| Void
| Eps
| Lit (c : ascii)
| Class (p : ascii → bool)
| Alt (r s : regex)
| Cat (r s : regex)
| Star (r : regex).

Definition Opt (r : regex) : regex := Alt Eps r.
Definition Plus (r : regex) : regex := Cat r (Star r).

Fixpoint Str (s : string) : regex :=
  match s with
  | EmptyString => Eps
  | String c s' => Cat (Lit c) (Str s')
  end.

Fixpoint nullable (r : regex) : bool :=
  match r with
  | Void => false
  | Eps => true
  | Lit _ => false
  | Class _ => false
  | Alt r s => nullable r || nullable s
  | Cat r s => nullable r && nullable s
  | Star _ => true
  end.

Fixpoint deriv (c : ascii) (r : regex) : regex :=
  match r with
  | Void => Void
  | Eps => Void
  | Lit c' => if Ascii.eqb c c' then Eps else Void
  | Class p => if p c then Eps else Void
  | Alt r s => Alt (deriv c r) (deriv c s)
  | Cat r s =>
      if nullable r then Alt (Cat (deriv c r) s) (deriv c s)
      else Cat (deriv c r) s
  | Star r' => Cat (deriv c r') (Star r')
  end.

Fixpoint fullmatch (r : regex) (s : string) : bool :=
  match s with
  | EmptyString => nullable r
  | String c s' => fullmatch (deriv c r) s'
  end.

(** [^r$] *)
Definition anchored (r : regex) : regex := Cat r (Opt (Lit "010"%char)).

(** [[0-9]], and [\d] on code points below 256 *)
Definition digit (c : ascii) : bool :=
  (48 <=? nat_of_ascii c)%nat && (nat_of_ascii c <=? 57)%nat.

(** [[-+]] *)
Definition sign (c : ascii) : bool :=
  Ascii.eqb c "-"%char || Ascii.eqb c "+"%char.

(** ["(^1$)|(^0$)|(^True$)|(^False$)"] *)
Definition re_bit : regex :=
  Alt (anchored (Str "1"))
      (Alt (anchored (Str "0"))
           (Alt (anchored (Str "True")) (anchored (Str "False")))).

(** ["^[0-9]+$"] *)
Definition re_int : regex := anchored (Plus (Class digit)).

(** ["^[-+]?\d*\.?\d+((e|E)[-+]?\d+)?$"] *)
Definition re_float : regex :=
  anchored
    (Cat (Opt (Class sign))
    (Cat (Star (Class digit))
    (Cat (Opt (Lit "."%char))
    (Cat (Plus (Class digit))
         (Opt (Cat (Alt (Lit "e"%char) (Lit "E"%char))
              (Cat (Opt (Class sign)) (Plus (Class digit))))))))).

(** [re.search(pattern, data)] for a pattern whose alternatives are all
    anchored at both ends *)
Definition re_search (pattern : regex) (data : string) : bool :=
  fullmatch pattern data.

(** ** The type lattice *)

Inductive DataType : Type := BIT | INT | FLOAT | NVARCHAR | NTEXT.

Global Instance DataType_eq_dec : EqDecision DataType.
Proof. solve_decision. Defined.

(** The string written to the output for a data type. *)
Definition DataType_str (t : DataType) : string :=
  match t with
  | BIT => "BIT"
  | INT => "INT"
  | FLOAT => "FLOAT"
  | NVARCHAR => "NVARCHAR"
  | NTEXT => "NTEXT"
  end.

(** Position in the order BIT < INT < FLOAT < NVARCHAR < NTEXT. *)
Definition rank (t : DataType) : nat :=
  match t with
  | BIT => 0
  | INT => 1
  | FLOAT => 2
  | NVARCHAR => 3
  | NTEXT => 4
  end.

Definition type_le (a b : DataType) : Prop := (rank a ≤ rank b)%nat.

(** The first half of [get_data_type]: the type [indata_type] of the
    literal alone. *)
Definition classify (data : string) (value : bool) : DataType :=
  if decide (data = "") then BIT
  else if re_search re_bit data then BIT
  else if re_search re_int data then INT
  else if re_search re_float data then FLOAT
  else if negb value then NVARCHAR
  else NTEXT.

(** The second half of [get_data_type]: the chain of [if]/[elif] on
    [data_type] and [indata_type]. In Python [and] binds tighter than [or],
    so [a and b or c] is [(a and b) or c]. *)
Definition widen (data_type indata_type : DataType) : DataType :=
  if bool_decide (data_type = BIT) then indata_type
  else if bool_decide (data_type = INT) && bool_decide (indata_type = BIT)
          || bool_decide (indata_type = INT) then data_type
  else if bool_decide (data_type = FLOAT) && bool_decide (indata_type = BIT)
          || bool_decide (indata_type = INT)
          || bool_decide (indata_type = FLOAT) then data_type
  else if bool_decide (data_type = NVARCHAR)
          && negb (bool_decide (indata_type = NTEXT)) then data_type
  else if bool_decide (data_type = NTEXT) then data_type
  else indata_type.

(** [get_data_type(data, data_type = "BIT", value = 0)] *)
Definition get_data_type (data : string) (data_type : DataType) (value : bool)
  : DataType :=
  widen data_type (classify data value).

(** [data_type_usable(data1, data2)]: can [data2] be stored in [data1]?
    Either argument may be [None], the value type of a table without
    text content. *)
Definition data_type_usable (data1 data2 : option DataType) : bool :=
  match data1 with
  | Some BIT =>
      match data2 with
      | Some BIT => true
      | _ => false
      end
  | Some INT =>
      match data2 with
      | Some BIT => true
      | Some INT => true
      | _ => false
      end
  | Some FLOAT =>
      match data2 with
      | Some BIT => true
      | Some INT => true
      | Some FLOAT => true
      | _ => false
      end
  | Some NVARCHAR =>
      match data2 with
      | Some BIT => true
      | Some INT => true
      | Some FLOAT => true
      | Some NVARCHAR => true
      | _ => false
      end
  | Some NTEXT => true
  | None => true
  end.

(** ** More dictionary operations *)

(** [del d[k]] for a key that is present *)
Fixpoint dict_del {V} (d : list (string * V)) (k : string)
  : list (string * V) :=
  match d with
  | [] => []
  | (k', v) :: d' => if decide (k' = k) then d' else (k', v) :: dict_del d' k
  end.

(** The characters that a Rocq string literal cannot hold directly. *)
Definition dquote : string := String "034"%char "".
Definition newline : string := String "010"%char "".

(** ** class Table *)

Module Table.

Record t : Type := mk {
  __name : string;
  __columns : list (string * DataType);
  __relations : list (string * Z);
  __keys : list (string * DataType);
  __refs : list (string * DataType);
  __value : option DataType
}.

(** [Table(name)] *)
Definition new (name : string) : t :=
  {| __name := name; __columns := []; __relations := []; __keys := [];
     __refs := []; __value := None |}.

Definition name (self : t) : string := __name self.
Definition columns (self : t) : list (string * DataType) := __columns self.
Definition relations (self : t) : list (string * Z) := __relations self.
Definition keys (self : t) : list string := dict_keys (__keys self).
Definition value (self : t) : option DataType := __value self.

Definition with_columns (self : t) (c : list (string * DataType)) : t :=
  {| __name := __name self; __columns := c;
     __relations := __relations self; __keys := __keys self;
     __refs := __refs self; __value := __value self |}.
Definition with_relations (self : t) (r : list (string * Z)) : t :=
  {| __name := __name self; __columns := __columns self;
     __relations := r; __keys := __keys self;
     __refs := __refs self; __value := __value self |}.
Definition with_keys (self : t) (k : list (string * DataType)) : t :=
  {| __name := __name self; __columns := __columns self;
     __relations := __relations self; __keys := k;
     __refs := __refs self; __value := __value self |}.
Definition with_value (self : t) (v : option DataType) : t :=
  {| __name := __name self; __columns := __columns self;
     __relations := __relations self; __keys := __keys self;
     __refs := __refs self; __value := v |}.

Definition del_relation (self : t) (name : string) : t :=
  if dict_mem (__relations self) name
  then with_relations self (dict_del (__relations self) name)
  else self.

(** [for rel, count in relations.items():
       self.__relations[rel] = max(self.__relations.get(rel, 0), count)] *)
Definition update_relations (self : t) (relations : list (string * Z)) : t :=
  foldl (fun self '(rel, count) =>
           with_relations self
             (dict_set (__relations self) rel
                (Z.max (default 0%Z (dict_get (__relations self) rel))
                       count)))
        self relations.

Definition set_relation (self : t) (tname : string) (count : Z) : t :=
  with_relations self (dict_set (__relations self) tname count).

(** [self.__value = get_data_type(data,
                                  self.__columns.get("value", "BIT"), 1)] *)
Definition update_value (self : t) (data : string) : t :=
  with_value self
    (Some (get_data_type data
             (default BIT (dict_get (__columns self) "value")) true)).

Definition update_attribute (self : t) (column data : string) : result t :=
  if decide (column = "value") then ret (update_value self data)
  else
    if decide (column = "prk_" +:+ name self +:+ "_id")
    then raise XTDNameError
    else ret (with_columns self
                (dict_set (__columns self) column
                   (get_data_type data
                      (default BIT (dict_get (__columns self) column))
                      false))).

Definition set_key (self : t) (ref : string) : result t :=
  let fkname := ref +:+ "_id" in
  if dict_mem (__columns self) fkname then raise XTDNameError
  else ret (with_keys self (dict_set (__keys self) fkname INT)).

End Table.

(** ** class Database *)

Module Database.

Record t : Type := mk {
  __etc : Z;
  __duplicity : bool;
  __entries : list (string * Table.t);
  __no_columns : bool;
  __relations : list (string * list string)
}.

(** [Database(etc = -1, duplicity = 0, no_columns = 0)] *)
Definition new (etc : Z) (duplicity no_columns : bool) : t :=
  {| __etc := etc; __duplicity := duplicity; __entries := [];
     __no_columns := no_columns; __relations := [] |}.

Definition with_entries (self : t) (e : list (string * Table.t)) : t :=
  {| __etc := __etc self; __duplicity := __duplicity self; __entries := e;
     __no_columns := __no_columns self; __relations := __relations self |}.
Definition with_relations (self : t) (r : list (string * list string)) : t :=
  {| __etc := __etc self; __duplicity := __duplicity self;
     __entries := __entries self; __no_columns := __no_columns self;
     __relations := r |}.

(** [if name not in self.__entries: self.__entries[name] = Table(name)]
    followed by [self.__entries[name]] *)
Definition entry (self : t) (name : string) : Table.t :=
  default (Table.new name) (dict_get (__entries self) name).

Definition update_relations (self : t) (name : string)
    (relations : list (string * Z)) : t :=
  with_entries self
    (dict_set (__entries self) name
       (Table.update_relations (entry self name) relations)).

Definition update_value (self : t) (name data : string) : t :=
  with_entries self
    (dict_set (__entries self) name
       (Table.update_value (entry self name) data)).

Definition columns (self : t) (table : string)
  : option (list (string * DataType)) :=
  Table.columns <$> dict_get (__entries self) table.

Definition entries (self : t) : list (string * Table.t) := __entries self.

Definition keys (self : t) (table : string) : option (list string) :=
  Table.keys <$> dict_get (__entries self) table.

Definition value (self : t) (table : string) : option (option DataType) :=
  Table.value <$> dict_get (__entries self) table.

(** The table is created before [Table.update_attribute] can raise; as
    every exception ends the run, the state at a raise is not kept. *)
Definition update_attribute (self : t) (name attribute data : string)
  : result t :=
  if negb (__no_columns self) then
    do table <- Table.update_attribute (entry self name) attribute data;
    ret (with_entries self (dict_set (__entries self) name table))
  else ret self.

(** [self.__relations[holder].add(referenced)] *)
Definition add_relation (self : t) (holder referenced : string) : result t :=
  do s <- dict_at (__relations self) holder;
  ret (with_relations self
         (dict_set (__relations self) holder (set_add referenced s))).

(** [self.__entries[key].set_key(ref)], on the table object in place *)
Definition set_key_of (self : t) (key ref : string) : result t :=
  do table <- dict_at (__entries self) key;
  do table' <- Table.set_key table ref;
  ret (with_entries self (dict_set (__entries self) key table')).

(** The body of the inner loop of [flush], for the table object stored
    under [key] and one item [(name, count)] of its relations. *)
Definition flush_relation (key : string) (item : string * Z) (self : t)
  : result t :=
  let '(name, count) := item in
  do table <- dict_at (__entries self) key;
  if __duplicity self then
    if dict_mem (Table.columns table) name then raise XTDNameError
    else
      do self <- set_key_of self key name;
      add_relation self (Table.name table) name
  else if negb (bool_decide (__etc self = (-1)%Z)) && (__etc self <? count)%Z
  then
    do child <- dict_at (__entries self) name;
    if dict_mem (Table.columns child) name then raise XTDNameError
    else
      let self :=
        if negb (dict_mem (__entries self) name)
        then with_entries self
               (dict_set (__entries self) name (Table.new name))
        else self in
      do self <- set_key_of self name (Table.name table);
      add_relation self name (Table.name table)
  else
    do self <-
      (if bool_decide (count = 1%Z) then
         if dict_mem (Table.columns table) name then raise XTDNameError
         else set_key_of self key name
       else
         for_each (seqZ 0 count)
           (fun num self =>
              if dict_mem (Table.columns table)
                   (name +:+ pretty (num + 1)%Z)
              then raise XTDNameError
              else set_key_of self key (name +:+ pretty (num + 1)%Z))
           self);
    add_relation self (Table.name table) name.

Definition flush (self : t) : result t :=
  let self :=
    with_relations self
      (foldl (fun rels table => dict_set rels (Table.name table) [])
             [] (dict_values (__entries self))) in
  for_each (dict_keys (__entries self))
    (fun key self =>
       do table <- dict_at (__entries self) key;
       for_each (Table.relations table) (flush_relation key) self)
    self.

(** The text of one table in [print_ddl]. *)
Definition ddl_table (table : Table.t) : string :=
  "CREATE TABLE " +:+ Table.name table +:+ "("
    +:+ newline +:+ "   prk_" +:+ Table.name table +:+ "_id"
    +:+ " INT PRIMARY KEY"
    +:+ foldr (fun key out => "," +:+ newline +:+ "   " +:+ key +:+ " INT"
                               +:+ out)
              "" (Table.keys table)
    +:+ foldr (fun '(column, data_type) out =>
                 "," +:+ newline +:+ "   " +:+ column +:+ " "
                     +:+ DataType_str data_type +:+ out)
              "" (Table.columns table)
    +:+ match Table.value table with
        | Some data_type =>
            "," +:+ newline +:+ "   value " +:+ DataType_str data_type
        | None => ""
        end
    +:+ newline +:+ ");" +:+ newline +:+ newline.

(** [print_ddl(fout)]: the database after [flush] and the text written. *)
Definition print_ddl (self : t) : result (t * string) :=
  do self <- flush self;
  ret (self,
       foldr (fun table out => ddl_table table +:+ out)
             "" (dict_values (__entries self))).

End Database.

(** ** The relation report

    [print_tablerel] writes to [fout] through [print_relation] only, so the
    part of [fout] it sees is kept as the list of the lines written, each
    with its relation type and the table it names; [relation_text] is the
    text of a line. [route] is the list object shared by all the calls made
    for one table of the report. *)

Record relation_line : Type := Relation {
  relation_type : string;
  relation_to : string
}.

Global Instance relation_line_eq_dec : EqDecision relation_line.
Proof. solve_decision. Defined.

Definition relation_text (l : relation_line) : string :=
  "        " +:+ "<relation to=" +:+ dquote +:+ relation_to l +:+ dquote
    +:+ " relation_type=" +:+ dquote +:+ relation_type l +:+ dquote
    +:+ " \>" +:+ newline.

Record walk : Type := Walk {
  route : list string;
  fout : list relation_line
}.

(** [self.print_relation(fout, relation_type, table)] *)
Definition print_relation (relation_type table : string) (w : walk) : walk :=
  {| route := route w; fout := fout w ++ [Relation relation_type table] |}.

(** [route.append(table)] *)
Definition route_append (table : string) (w : walk) : walk :=
  {| route := route w ++ [table]; fout := fout w |}.

(** The three statements that close a path at the origin:
    [print_relation(fout, "1:1", table); route.append(table); printed = 1] *)
Definition close_at (table : string) (w : walk) : bool * walk :=
  (true, route_append table (print_relation "1:1" table w)).

Section Loops.
Variable self : Database.t.
(** The recursive call
    [self.print_tablerel(fout, toriginal, tname_from, tname_to, rel,
                         printed, route)] *)
Variable recurse :
  string → string → string → nat → bool → walk → result (bool * walk).

(** The loop under "Check my foreign keys.": in each of the three
    branches it differs in the [rel] of the recursive call only. *)
Definition foreign_keys_loop (toriginal tname_to : string) (rel : nat)
    (tables : list string) (pw : bool * walk) : result (bool * walk) :=
  for_each tables
    (fun table '(printed, w) =>
       if bool_decide (table = toriginal) && negb printed
       then ret (close_at table w)
       else if negb (mem table (route w))
       then recurse toriginal tname_to table rel printed w
       else ret (printed, w))
    pw.

(** The loop under "Check for tables, which are referencing me.", over
    [self.__entries.keys()]. *)
Definition referencing_loop (toriginal tname_to : string) (rel : nat)
    (pw : bool * walk) : result (bool * walk) :=
  for_each (dict_keys (Database.__entries self))
    (fun table '(printed, w) =>
       do tables <- dict_at (Database.__relations self) table;
       if mem tname_to tables then
         let '(printed, w) :=
           if bool_decide (table = toriginal) && negb printed
           then close_at table w
           else (printed, w) in
         if negb (bool_decide (table = toriginal))
            && negb (mem table (route w))
         then recurse toriginal tname_to table rel printed w
         else ret (printed, w)
       else ret (printed, w))
    pw.
End Loops.

(** [print_tablerel(fout, toriginal, tname_from, tname_to, rel, printed,
    route)]. [fuel] bounds the depth of the recursion; [OutOfFuel] is
    returned when it is used up. *)
Fixpoint print_tablerel (fuel : nat) (self : Database.t)
    (toriginal tname_from tname_to : string) (rel : nat) (printed : bool)
    (w : walk) {struct fuel} : result (bool * walk) :=
  match fuel with
  | O => raise OutOfFuel
  | S fuel' =>
      let relations := Database.__relations self in
      match rel with
      | 0 =>
          do from_refs <- dict_at relations tname_from;
          if mem tname_to from_refs && negb (mem tname_to (route w)) then
            do to_refs <- dict_at relations tname_to;
            let w :=
              if mem tname_from to_refs
              then print_relation "N:M" tname_to w
              else print_relation "N:1" tname_to w in
            let w := route_append tname_to w in
            do pw <- foreign_keys_loop (print_tablerel fuel' self)
                       toriginal tname_to 0 to_refs (printed, w);
            referencing_loop self (print_tablerel fuel' self)
              toriginal tname_to 2 pw
          else ret (printed, w)
      | 1 =>
          do to_refs <- dict_at relations tname_to;
          if mem tname_from to_refs && negb (mem tname_to (route w)) then
            do from_refs <- dict_at relations tname_from;
            let w :=
              if mem tname_to from_refs
              then (if negb (bool_decide (tname_from = toriginal))
                    then print_relation "N:M" tname_to w
                    else w)
              else print_relation "1:N" tname_to w in
            let w := route_append tname_to w in
            do pw <- foreign_keys_loop (print_tablerel fuel' self)
                       toriginal tname_to 2 to_refs (printed, w);
            referencing_loop self (print_tablerel fuel' self)
              toriginal tname_to 1 pw
          else ret (printed, w)
      | 2 =>
          if negb (mem tname_to (route w))
             && negb (bool_decide (tname_to = toriginal)) then
            let w := print_relation "N:M" tname_to w in
            let w := route_append tname_to w in
            do to_refs <- dict_at relations tname_to;
            do pw <- foreign_keys_loop (print_tablerel fuel' self)
                       toriginal tname_to 2 to_refs (printed, w);
            referencing_loop self (print_tablerel fuel' self)
              toriginal tname_to 2 pw
          else ret (printed, w)
      | _ => ret (printed, w)
      end
  end.

(** The body of the outer loop of [print_xmlrel] between the two lines
    that open and close [<table name="table1">], after [flush]: the lines
    of the report of [table1], with the final [printed] and [route]. *)
Definition table_report (fuel : nat) (self : Database.t) (table1 : string)
  : result (bool * walk) :=
  let keys := dict_keys (Database.__entries self) in
  do pw <- for_each keys
             (fun table2 '(printed, w) =>
                if negb (bool_decide (table2 = table1))
                then print_tablerel fuel self table1 table1 table2 0 printed w
                else ret (printed, w))
             (false, {| route := []; fout := [] |});
  for_each keys
    (fun table2 '(printed, w) =>
       do tables <- dict_at (Database.__relations self) table2;
       if mem table1 tables then
         if bool_decide (table1 = table2) && negb printed
         then ret (close_at table1 w)
         else print_tablerel fuel self table1 table1 table2 1 printed w
       else ret (printed, w))
    pw.

(** [print_xmlrel(fout)]: the database after [flush] and the text written. *)
Definition print_xmlrel (fuel : nat) (self : Database.t)
  : result (Database.t * string) :=
  do self <- Database.flush self;
  do body <-
    for_each (dict_keys (Database.__entries self))
      (fun table1 out =>
         do pw <- table_report fuel self table1;
         ret (out +:+ "    <table name=" +:+ dquote +:+ table1 +:+ dquote
                  +:+ ">" +:+ newline
                  +:+ foldr (fun l s => relation_text l +:+ s) ""
                        (fout pw.2)
                  +:+ "    </table>" +:+ newline))
      "";
  ret (self, "<tables>" +:+ newline +:+ body +:+ "</tables>" +:+ newline).

(** [is_subset(self, db)]: each [return 0] ends the conjunction. *)
Definition columns_usable (mine : Table.t)
    (columns : list (string * DataType)) : bool :=
  forallb (fun '(column, data_type) =>
             match dict_get (Table.columns mine) column with
             | None => false
             | Some data1 => data_type_usable (Some data1) (Some data_type)
             end)
          columns.

Definition is_subset (self db : Database.t) : bool :=
  forallb (fun '(tname, table) =>
             match dict_get (Database.__entries self) tname with
             | None => false
             | Some mine =>
                 columns_usable mine (Table.columns table)
                 && data_type_usable (Table.value mine) (Table.value table)
             end)
          (Database.entries db).

(** ** The tree walk and the whole run

    An element of the parsed document, as [xml.etree.ElementTree] hands it
    to [xtd_database]: [item.tag], [item.items()], [item.text] and
    [item.getchildren()]. *)

#[local] Set Warnings "-register-all".
Inductive Element : Type :=
| Elem (tag : string) (items : list (string * string))
       (text : option string) (children : list Element).

Definition tag (item : Element) : string :=
  match item with Elem t _ _ _ => t end.
Definition getchildren (item : Element) : list Element :=
  match item with Elem _ _ _ c => c end.

(** [str.lower()] on code points below 256: the letters A-Z and the
    capital letters from U+00C0 to U+00DE, without the sign U+00D7. *)
Definition lower_char (c : ascii) : ascii :=
  let n := nat_of_ascii c in
  if ((65 <=? n) && (n <=? 90) ||
      (192 <=? n) && (n <=? 222) && negb (n =? 215))%nat
  then ascii_of_nat (n + 32)
  else c.

Fixpoint lower (s : string) : string :=
  match s with
  | EmptyString => EmptyString
  | String c s' => String (lower_char c) (lower s')
  end.

(** The characters for which [str.isspace()] holds, below 256. *)
Definition space_char (c : ascii) : bool :=
  let n := nat_of_ascii c in
  ((9 <=? n) && (n <=? 13) || (28 <=? n) && (n <=? 32)
   || (n =? 133) || (n =? 160))%nat.

Fixpoint all_space (s : string) : bool :=
  match s with
  | EmptyString => true
  | String c s' => space_char c && all_space s'
  end.

(** [s.isspace()]: false for the empty string *)
Definition isspace (s : string) : bool :=
  negb (bool_decide (s = "")) && all_space s.

(** [item.text and not item.text.isspace()] *)
Definition has_text (text : option string) : bool :=
  match text with
  | None => false
  | Some s => negb (bool_decide (s = "")) && negb (isspace s)
  end.

(** The loop [for child in item.getchildren()] of [xtd_database], which
    counts the tags of the children in [info] and walks each child;
    [walk] is [xtd_database] itself. *)
Definition walk_children (walk : Element → Database.t → result Database.t)
  : list Element → list (string * Z) → Database.t →
    result (list (string * Z) * Database.t) :=
  fix loop children info db :=
    match children with
    | [] => ret (info, db)
    | child :: rest =>
        let info :=
          dict_set info (lower (tag child))
            (default 0%Z (dict_get info (lower (tag child))) + 1)%Z in
        do db <- walk child db;
        loop rest info db
    end.

Fixpoint xtd_database (item : Element) (db : Database.t)
  : result Database.t :=
  match item with
  | Elem tag items text children =>
      do db <- for_each items
                 (fun '(cname, data) db =>
                    Database.update_attribute db (lower tag) (lower cname)
                      data)
                 db;
      let db :=
        if has_text text
        then Database.update_value db (lower tag) (default "" text)
        else db in
      do (info, db) <- walk_children xtd_database children [] db;
      ret (Database.update_relations db (lower tag) info)
  end.

(** The options of the command line that [xtd] reads from [param]. *)
Record Param : Type := {
  etc : option Z;          (* param.get("etc", -1) *)
  b : bool;                (* "b" in param *)
  a : bool;                (* "a" in param *)
  isvalid : bool;          (* "isvalid" in param *)
  header : option string;  (* param["header"], if "header" in param *)
  g : bool                 (* "g" in param *)
}.

(** The loop [for item in tree.getroot().getchildren():
              xtd_database(item, db)] *)
Definition xtd_walk (root : Element) (db : Database.t) : result Database.t :=
  for_each (getchildren root) xtd_database db.

(** [xtd(fin, fout, fval, param)], from the parsed documents of [fin] and
    [fval] to the text written to [fout] by a run that ends normally.
    Nothing is written to [fout] before the walks and the validation are
    over: a run that raises there has produced no output. *)
Definition xtd (fuel : nat) (tree tree2 : Element) (param : Param)
  : result string :=
  let new_db :=
    Database.new (default (-1)%Z (etc param)) (b param) (a param) in
  do db <- xtd_walk tree new_db;
  do _ <-
    (if isvalid param then
       do db2 <- xtd_walk tree2 new_db;
       if negb (is_subset db db2) then raise XTDNotValid else ret tt
     else ret tt);
  let head :=
    match header param with
    | Some h => "--" +:+ h +:+ newline +:+ newline
    | None => ""
    end in
  if g param then
    do r <- print_xmlrel fuel db;
    ret (head +:+ r.2)
  else
    do r <- Database.print_ddl db;
    ret (head +:+ r.2).

(** ** Notions used in the statements *)

(** [update_attribute] never stores a column called "value", so the
    previous type that [Table.update_value] reads from [self.__columns]
    is always the default "BIT". *)
Definition no_value_column (self : Table.t) : Prop :=
  dict_get (Table.columns self) "value" = None.

(** [for data in literals: table.update_attribute(column, data)] *)
Definition observe_attributes (column : string) (literals : list string)
    (table : Table.t) : result Table.t :=
  for_each literals (fun data t => Table.update_attribute t column data) table.

(** The reserved name of the primary key of an entity. *)
Definition prk (entity : string) : string := "prk_" +:+ entity +:+ "_id".

(** Some element of the tree has an attribute whose lowercased name is
    the reserved name of the primary key of its entity. *)
Fixpoint collides (item : Element) : bool :=
  match item with
  | Elem tag items _ children =>
      existsb (fun '(cname, _) => bool_decide (lower cname = prk (lower tag)))
              items
      || existsb collides children
  end.

(** No attribute column of the database has the type NTEXT. *)
Definition columns_below_ntext (db : Database.t) : Prop :=
  ∀ name table column,
    dict_get (Database.entries db) name = Some table →
    dict_get (Table.columns table) column ≠ Some NTEXT.

(** The elements of a tree, the root first. *)
Fixpoint elements_of (item : Element) : list Element :=
  match item with
  | Elem _ _ _ children => item :: flat_map elements_of children
  end.

(** The literals of an element that the walk hands to [update_value]:
    the data of its attributes whose lowercased name is "value", unless
    the option [-a] is given, and its text content when it has one. *)
Definition value_literals (no_columns : bool) (item : Element)
  : list string :=
  match item with
  | Elem _ items text _ =>
      (if no_columns then []
       else flat_map (fun '(cname, data) =>
                        if decide (lower cname = "value") then [data] else [])
                     items)
      ++ (if has_text text then [default "" text] else [])
  end.

(** The type [ty] is the type, in the value context, of a literal that
    an element of [all] with the lowercased tag [name] hands to
    [update_value]. *)
Definition value_source (no_columns : bool) (all : list Element)
    (name : string) (ty : DataType) : Prop :=
  ∃ item data,
    item ∈ all ∧ lower (tag item) = name ∧
    data ∈ value_literals no_columns item ∧ classify data true = ty.

(** The value types of the database come from the elements of [all]. *)
Definition values_from (no_columns : bool) (all : list Element)
    (db : Database.t) : Prop :=
  Database.__no_columns db = no_columns ∧
  ∀ name table,
    dict_get (Database.entries db) name = Some table →
    dict_get (Table.columns table) "value" = None ∧
    ∀ ty, Table.value table = Some ty → value_source no_columns all name ty.

(** Every table is stored under its own name. *)
Definition named (db : Database.t) : Prop :=
  ∀ key table,
    dict_get (Database.entries db) key = Some table → Table.name table = key.

(** The relation graph after [flush] of a walked document: every entity
    has its set of referenced entities, and these are entities. *)
Definition graph_ok (self : Database.t) : bool :=
  let keys := dict_keys (Database.__entries self) in
  forallb (fun key =>
             match dict_get (Database.__relations self) key with
             | Some tables => forallb (fun table => mem table keys) tables
             | None => false
             end)
          keys.

(** The lines of a report with the relation type 1:1, and the others. *)
Definition is_one_to_one (l : relation_line) : bool :=
  bool_decide (relation_type l = "1:1").

Definition one_to_one_lines (out : list relation_line) : list relation_line :=
  filter (fun l => is_one_to_one l = true) out.

(** The lines of a report that name the table [to] with the relation
    type [ty]. *)
Definition lines_of (ty to : string) (out : list relation_line)
  : list relation_line :=
  filter (fun l => l = Relation ty to) out.

(** The table stored under [key] has the foreign key column [fk]. *)
Definition has_key (db : Database.t) (key fk : string) : Prop :=
  ∃ table, dict_get (Database.entries db) key = Some table ∧
           fk ∈ Table.keys table.

(** The relation graph has the edge from [holder] to [referenced]. *)
Definition has_edge (db : Database.t) (holder referenced : string) : Prop :=
  ∃ tables, dict_get (Database.__relations db) holder = Some tables ∧
            referenced ∈ tables.

(** [db2] is [db1] with more foreign keys and more edges, and nothing
    else changed. *)
Definition grows (db1 db2 : Database.t) : Prop :=
  Database.__duplicity db2 = Database.__duplicity db1 ∧
  Database.__etc db2 = Database.__etc db1 ∧
  (∀ key t1, dict_get (Database.entries db1) key = Some t1 →
     ∃ t2, dict_get (Database.entries db2) key = Some t2 ∧
           Table.name t2 = Table.name t1 ∧
           Table.columns t2 = Table.columns t1 ∧
           Table.relations t2 = Table.relations t1 ∧
           Table.keys t1 ⊆ Table.keys t2) ∧
  (∀ holder s1, dict_get (Database.__relations db1) holder = Some s1 →
     ∃ s2, dict_get (Database.__relations db2) holder = Some s2 ∧ s1 ⊆ s2).

(** The number of entities that are not in [route] yet. *)
Definition unvisited (self : Database.t) (route : list string) : nat :=
  size (list_to_set (dict_keys (Database.__entries self))
          ∖ list_to_set route : gset string).

(** The state of the traversal for the origin [toriginal] is sound when
    [route] holds distinct names, [printed] tells whether [toriginal] is
    one of them, and the 1:1 line of [toriginal] is written once [printed]
    is set. *)
Definition sound (toriginal : string) (pw : bool * walk) : Prop :=
  NoDup (route pw.2) ∧ (pw.1 = true ↔ toriginal ∈ route pw.2) ∧
  (pw.1 = true → Relation "1:1" toriginal ∈ fout pw.2).

(** The origin [table1] of a report has an edge of the relation graph,
    to an entity or from one. *)
Definition related (self : Database.t) (table1 : string) : Prop :=
  ∃ table, table ∈ dict_keys (Database.__entries self) ∧
           (has_edge self table1 table ∨ has_edge self table table1).

(** What a part of the traversal does to its state: names are appended to
    [route] and lines to [fout]; the tables that the new lines name are
    among the new names of [route], in the same order; a new line has the
    type 1:1 exactly when it names [toriginal]; the new names of [route]
    are entities. *)
Definition extends (self : Database.t) (toriginal : string)
    (pw pw' : bool * walk) : Prop :=
  ∃ added new,
    route pw'.2 = route pw.2 ++ added ∧
    fout pw'.2 = fout pw.2 ++ new ∧
    (relation_to <$> new) `sublist_of` added ∧
    (∀ l, l ∈ new → (relation_type l = "1:1" ↔ relation_to l = toriginal)) ∧
    (∀ x, x ∈ added → x ∈ dict_keys (Database.__entries self)).

(** The lines of a report that name the table [to]. *)
Definition lines_to (to : string) (out : list relation_line)
  : list relation_line :=
  filter (fun l => relation_to l = to) out.

(** What the proofs ask of the traversal function at the depth [n], for
    the database [self] and the origin [toriginal]: called in a sound
    state with fewer than [n] entities out of [route], for two entities,
    the second not being an origin still to be closed, it returns, and it
    extends the state to a sound one. *)
Definition traverses (self : Database.t) (toriginal : string) (n : nat)
    (f : string → string → string → nat → bool → walk → result (bool * walk))
  : Prop :=
  ∀ tname_from tname_to rel printed w,
    tname_from ∈ dict_keys (Database.__entries self) →
    tname_to ∈ dict_keys (Database.__entries self) →
    sound toriginal (printed, w) →
    (tname_to = toriginal → printed = true) →
    unvisited self (route w) < n →
    ∃ pw', f toriginal tname_from tname_to rel printed w = inr pw' ∧
           extends self toriginal (printed, w) pw' ∧ sound toriginal pw'.

(** Two documents used as examples. In [cycle_document] the entities [a]
    and [b] hold each other. In [detour_document] they do so as well, and
    [a] also holds [c], which holds [b]; [c] has an attribute and so is
    the first entity of the database. *)
Definition cycle_document : Element :=
  Elem "root" [] None
    [Elem "a" [] None [Elem "b" [] None [Elem "a" [] None []]]].

Definition detour_document : Element :=
  Elem "root" [] None
    [Elem "a" [] None
       [Elem "c" [("x", "1")] None
          [Elem "b" [] None [Elem "a" [] None []]];
        Elem "b" [] None []]].

(** The database of a document after the walk and [flush], with the
    default options. *)
Definition flushed (root : Element) : result Database.t :=
  do db <- xtd_walk root (Database.new (-1) false false);
  Database.flush db.

(** The database of [detour_document] after the walk and [flush], written
    out; [a_refs] is the set of the tables that [a] references, in the
    order in which it is iterated. *)
Definition detour_db (a_refs : list string) : Database.t :=
  {| Database.__etc := -1;
     Database.__duplicity := false;
     Database.__entries :=
       [("c", Table.with_keys
                (Table.with_relations
                   (Table.with_columns (Table.new "c") [("x", BIT)])
                   [("b", 1%Z)])
                [("b_id", INT)]);
        ("a", Table.with_keys
                (Table.with_relations (Table.new "a")
                   [("c", 1%Z); ("b", 1%Z)])
                [("c_id", INT); ("b_id", INT)]);
        ("b", Table.with_keys
                (Table.with_relations (Table.new "b") [("a", 1%Z)])
                [("a_id", INT)])];
     Database.__no_columns := false;
     Database.__relations :=
       [("c", ["b"]); ("a", a_refs); ("b", ["a"])] |}.

(** The same database for [cycle_document], written out. *)
Definition cycle_db : Database.t :=
  {| Database.__etc := -1;
     Database.__duplicity := false;
     Database.__entries :=
       [("a", Table.with_keys
                (Table.with_relations (Table.new "a") [("b", 1%Z)])
                [("b_id", INT)]);
        ("b", Table.with_keys
                (Table.with_relations (Table.new "b") [("a", 1%Z)])
                [("a_id", INT)])];
     Database.__no_columns := false;
     Database.__relations := [("a", ["b"]); ("b", ["a"])] |}.

(** The databases of a run that generates columns from attributes. *)
Definition with_columns_named (db : Database.t) : Prop :=
  Database.__no_columns db = false ∧ named db.

(** The outcome of a part of the walk that is known to raise when
    [collision] holds: the exception is [XTDNameError], and a walk that
    returns has met no collision. *)
Definition name_checked {A} (state : A → Database.t) (collision : bool)
    (r : result A) : Prop :=
  match r with
  | inl e => e = XTDNameError
  | inr x => with_columns_named (state x) ∧ collision = false
  end.

(** The relations recorded for the tables name entities of the database:
    the state in which the walk of a document leaves it. *)
Definition closed_relations (db : Database.t) : Prop :=
  ∀ key table name count,
    dict_get (Database.entries db) key = Some table →
    (name, count) ∈ Table.relations table →
    name ∈ dict_keys (Database.entries db).

(** The relation graph of [db] over the entities [keys]: each has its set
    of referenced tables, and every set holds entities only. *)
Definition edges_closed (keys : list string) (db : Database.t) : Prop :=
  (∀ key, key ∈ keys → is_Some (dict_get (Database.__relations db) key)) ∧
  (∀ holder tables,
     dict_get (Database.__relations db) holder = Some tables →
     ∀ x, x ∈ tables → x ∈ keys).

(** What a part of [flush] leaves as it is: the entities; and the only
    tables it adds to the sets of the relation graph are [x] and [y]. *)
Definition adds_edges_to (x y : string) (db db' : Database.t) : Prop :=
  dict_keys (Database.entries db') = dict_keys (Database.entries db) ∧
  ∀ holder tables',
    dict_get (Database.__relations db') holder = Some tables' →
    ∃ tables, dict_get (Database.__relations db) holder = Some tables ∧
              ∀ z, z ∈ tables' → z ∈ tables ∨ z = x ∨ z = y.

(** The state of the walk: the relations are closed, and the entities
    met so far, those of [seen] among them, are in the database. *)
Definition walked (seen : list string) (db : Database.t) : Prop :=
  closed_relations db ∧ ∀ k, k ∈ seen → k ∈ dict_keys (Database.entries db).

(** The outcome of a part of the walk of a run that generates columns:
    it raises XTDNameError exactly when [collision] holds. *)
Definition walk_outcome {A} (state : A → Database.t) (collision : bool)
    (r : result A) : Prop :=
  match r with
  | inl e => e = XTDNameError ∧ collision = true
  | inr x => with_columns_named (state x) ∧ collision = false
  end.

(** The databases of a run with the option [-a]: no table has a column. *)
Definition without_columns (db : Database.t) : Prop :=
  Database.__no_columns db = true ∧
  ∀ key table, dict_get (Database.entries db) key = Some table →
               Table.columns table = [].

(** The keys of the dictionaries of the database are distinct: of the
    entries, and of the columns of every table. *)
Definition unique_keys (db : Database.t) : Prop :=
  NoDup (dict_keys (Database.entries db)) ∧
  ∀ key table, (key, table) ∈ Database.entries db →
               NoDup (dict_keys (Table.columns table)).

(** The document with the tags and the names of the attributes in lower
    case. *)
Fixpoint lower_names (item : Element) : Element :=
  match item with
  | Elem tag items text children =>
      Elem (lower tag) (map (fun '(cname, data) => (lower cname, data)) items)
           text (map lower_names children)
  end.

(** The lowercased tags of the elements of a tree, the root first. *)
Fixpoint tags_of (item : Element) : list string :=
  match item with
  | Elem tag _ _ children => lower tag :: flat_map tags_of children
  end.

(** The names that [flush] hands to [set_key] for one relation of a table
    when it keeps the keys on the table itself: the name of the child,
    once, with the option [-b] or for the count 1, and otherwise the name
    followed by the numbers from 1 to the count. *)
Definition fk_refs (duplicity : bool) (name : string) (count : Z)
  : list string :=
  if duplicity || bool_decide (count = 1%Z) then [name]
  else (fun num => name +:+ pretty (num + 1)%Z) <$> seqZ 0 count.

(** [t'] is [t] with more foreign keys. *)
Definition more_keys (t t' : Table.t) : Prop :=
  Table.name t' = Table.name t ∧
  Table.columns t' = Table.columns t ∧
  Table.relations t' = Table.relations t ∧
  Table.value t' = Table.value t ∧
  Table.keys t ⊆ Table.keys t'.

(** [db'] is [db] with more foreign keys in its tables: the same
    entities in the same order, each table otherwise unchanged. *)
Definition only_keys_added (db db' : Database.t) : Prop :=
  dict_keys (Database.entries db') = dict_keys (Database.entries db) ∧
  ∀ key t, dict_get (Database.entries db) key = Some t →
    ∃ t', dict_get (Database.entries db') key = Some t' ∧ more_keys t t'.

(** [flush] inverts a relation with the count [count]: the option
    [--etc] is given, without the option [-b], and the count is above
    its value. *)
Definition inverted (db : Database.t) (count : Z) : Prop :=
  Database.__duplicity db = false ∧
  Database.__etc db ≠ (-1)%Z ∧
  (Database.__etc db < count)%Z.

(** The foreign keys and the edge that [flush] makes for the relation
    [(name, count)] of the table [tname] stored under [key], with the
    options of [db0]. *)
Definition relation_flushed (db0 : Database.t) (key tname name : string)
    (count : Z) (db' : Database.t) : Prop :=
  (inverted db0 count →
     has_key db' name (tname +:+ "_id") ∧ has_edge db' name tname) ∧
  (¬ inverted db0 count →
     (∀ ref, ref ∈ fk_refs (Database.__duplicity db0) name count →
             has_key db' key (ref +:+ "_id")) ∧
     has_edge db' tname name).

(** [db] has the options of [db0]. *)
Definition same_options (db0 db : Database.t) : Prop :=
  Database.__duplicity db = Database.__duplicity db0 ∧
  Database.__etc db = Database.__etc db0.

(** The columns have the name [ref], or the name of the foreign key made
    from it. *)
Definition key_collision (columns : list (string * DataType))
    (ref : string) : Prop :=
  dict_mem columns ref = true ∨ dict_mem columns (ref +:+ "_id") = true.

(** The relation [(name, count)] of the table with the name [tname] and
    the columns [columns] collides with a column: inverted, the child
    table has a column with its own name or with the name [<tname>_id];
    otherwise the table has a column with one of the names handed to
    [set_key], or with the name of the foreign key made from it. *)
Definition relation_collision (db : Database.t) (tname : string)
    (columns : list (string * DataType)) (name : string) (count : Z)
  : Prop :=
  (inverted db count ∧
   ∃ child, dict_get (Database.entries db) name = Some child ∧
            (dict_mem (Table.columns child) name = true ∨
             dict_mem (Table.columns child) (tname +:+ "_id") = true)) ∨
  (¬ inverted db count ∧
   ∃ ref, ref ∈ fk_refs (Database.__duplicity db) name count ∧
          key_collision columns ref).

(** A relation of a table of the database collides with a column. *)
Definition flush_collision (db : Database.t) : Prop :=
  ∃ key table name count,
    dict_get (Database.entries db) key = Some table ∧
    (name, count) ∈ Table.relations table ∧
    relation_collision db (Table.name table) (Table.columns table)
      name count.

(** No column is in the way of the keys of the relation [(name, count)],
    with the options of [db0] and the tables of [db]. *)
Definition relation_clear (db0 : Database.t) (tname : string)
    (columns : list (string * DataType)) (name : string) (count : Z)
    (db : Database.t) : Prop :=
  (inverted db0 count →
   ∃ child, dict_get (Database.entries db) name = Some child ∧
            dict_mem (Table.columns child) name = false ∧
            dict_mem (Table.columns child) (tname +:+ "_id") = false) ∧
  (¬ inverted db0 count →
   ∀ ref, ref ∈ fk_refs (Database.__duplicity db0) name count →
          dict_mem columns ref = false ∧
          dict_mem columns (ref +:+ "_id") = false).

(** Every table has its set in the relation graph. *)
Definition graph_started (db : Database.t) : Prop :=
  ∀ key table, dict_get (Database.entries db) key = Some table →
               is_Some (dict_get (Database.__relations db)
                          (Table.name table)).

(** A document with two elements [b] in the element [a]. *)
Definition repeated_document : Element :=
  Elem "root" [] None
    [Elem "a" [] None [Elem "b" [] None []; Elem "b" [] None []]].

(** A document whose element [a] has the attribute [b] and the element
    [b]. *)
Definition clash_document : Element :=
  Elem "root" [] None
    [Elem "a" [("b", "1")] None [Elem "b" [] None []]].

(** Every column of a table of [db] is a column of the table in [db'],
    with a type that is at least the one it had. *)
Definition columns_kept (db db' : Database.t) : Prop :=
  ∀ name table column ty,
    dict_get (Database.entries db) name = Some table →
    dict_get (Table.columns table) column = Some ty →
    ∃ table' ty',
      dict_get (Database.entries db') name = Some table' ∧
      dict_get (Table.columns table') column = Some ty' ∧
      type_le ty ty'.

(** * Properties *)

(** ** The type lattice *)

Section Lattice.

Implicit Types t i : DataType.

Lemma type_le_refl t : type_le t t.
Proof. unfold type_le. lia. Qed.

Lemma type_le_trans t1 t2 t3 : type_le t1 t2 → type_le t2 t3 → type_le t1 t3.
Proof. unfold type_le. lia. Qed.

(** A merge never returns less than the previous type. *)
Lemma widen_ge_previous t i : type_le t (widen t i).
Proof. destruct t, i; unfold type_le; vm_compute; lia. Qed.

(** Apart from one pair, a merge returns at least the type of the
    literal as well. *)
Lemma widen_ge_literal t i :
  (t, i) ≠ (INT, FLOAT) → type_le i (widen t i).
Proof.
  destruct t, i; intros Hne; unfold type_le;
    try (vm_compute; lia); by destruct Hne.
Qed.

(** The pair left out: the test [data_type == "FLOAT" and indata_type ==
    "BIT" or indata_type == "INT" or indata_type == "FLOAT"] holds for
    every previous type when the literal is a FLOAT. *)
Lemma widen_int_float : widen INT FLOAT = INT.
Proof. reflexivity. Qed.

Lemma widen_max t i :
  (t, i) ≠ (INT, FLOAT) →
  widen t i = if decide (rank t ≤ rank i)%nat then i else t.
Proof. destruct t, i; intros Hne; try reflexivity; by destruct Hne. Qed.

(** The literal of an attribute is never an NTEXT, that of a text never
    an NVARCHAR. *)
Lemma classify_attribute data : classify data false ≠ NTEXT.
Proof. unfold classify. repeat case_match; discriminate. Qed.

Lemma classify_text data : classify data true ≠ NVARCHAR.
Proof. unfold classify. repeat case_match; discriminate. Qed.

Lemma widen_ntext t i : widen t i = NTEXT → t = NTEXT ∨ i = NTEXT.
Proof. destruct t, i; vm_compute; intros; try discriminate; auto. Qed.

Lemma get_data_type_attribute data t :
  t ≠ NTEXT → get_data_type data t false ≠ NTEXT.
Proof.
  intros Ht H. apply widen_ntext in H as [H | H]; [done |].
  by apply classify_attribute in H.
Qed.

End Lattice.

(** C2. [merge(t, l, ctx)] is claimed to be at least [t] and at least
    [classify(l)] for every [t], [l] and context. On the code
    ([get_data_type]) this fails for the previous type INT and a FLOAT
    literal: the literal "1.5" is classified FLOAT in both contexts, and
    merging it into INT returns INT, which is below FLOAT. (The merge is
    at least [t] everywhere, [widen_ge_previous], and at least
    [classify(l)] for every other pair, [widen_ge_literal].) *)
Theorem C2_merge_int_with_float_literal :
  (∀ value, classify "1.5" value = FLOAT) ∧
  (∀ value, get_data_type "1.5" INT value = INT) ∧
  (∀ value,
     ¬ type_le (classify "1.5" value) (get_data_type "1.5" INT value)).
Proof.
  split; [by intros [] |]. split; [by intros [] |].
  intros [|]; vm_compute; lia.
Qed.

(** ** Entity accumulation *)

Lemma dict_get_set_eq {V} (d : list (string * V)) k v :
  dict_get (dict_set d k v) k = Some v.
Proof.
  induction d as [|[k' v'] d IH]; simpl.
  - by rewrite decide_True.
  - destruct (decide (k' = k)) as [->|Hne]; simpl.
    + by rewrite decide_True.
    + by rewrite decide_False.
Qed.

Lemma dict_get_set_ne {V} (d : list (string * V)) k k' v :
  k ≠ k' → dict_get (dict_set d k v) k' = dict_get d k'.
Proof.
  intros Hne. induction d as [|[k0 v0] d IH]; simpl.
  - by rewrite decide_False.
  - destruct (decide (k0 = k)) as [->|Hne0]; simpl.
    + by rewrite !decide_False.
    + by rewrite IH.
Qed.

Lemma dict_get_set {V} (d : list (string * V)) k k' v :
  dict_get (dict_set d k v) k' =
  if decide (k = k') then Some v else dict_get d k'.
Proof.
  destruct (decide (k = k')) as [->|Hne].
  - apply dict_get_set_eq.
  - by apply dict_get_set_ne.
Qed.

Lemma update_value_overwrites self data :
  no_value_column self →
  Table.value (Table.update_value self data) = Some (classify data true).
Proof.
  unfold no_value_column, Table.update_value, Table.columns. intros H.
  simpl. rewrite H. simpl. unfold get_data_type.
  by destruct (classify data true).
Qed.

Lemma update_attribute_no_value_column self column data self' :
  no_value_column self →
  Table.update_attribute self column data = inr self' →
  no_value_column self'.
Proof.
  unfold Table.update_attribute, no_value_column. intros H.
  destruct (decide (column = "value")) as [->|Hne].
  - intros [= <-]. exact H.
  - case_decide; [discriminate |]. intros [= <-]. simpl.
    by rewrite dict_get_set_ne.
Qed.

(** C3. The value type of an entity is claimed never to narrow along a
    sequence of [observeValue]. On the code it does: the text "abc" gives
    the table the value type NTEXT, and the text "1" observed next for
    the same table replaces it by BIT. [Table.update_value] merges the
    literal into [self.__columns.get("value", "BIT")], a column that is
    never stored, and not into [self.__value]. *)
Theorem C3_value_type_narrows :
  let db0 := Database.new (-1) false false in
  let db1 := Database.update_value db0 "a" "abc" in
  let db2 := Database.update_value db1 "a" "1" in
  Database.value db1 "a" = Some (Some NTEXT) ∧
  Database.value db2 "a" = Some (Some BIT) ∧
  ¬ type_le NTEXT BIT.
Proof. split; [reflexivity |]. split; [reflexivity |]. vm_compute. lia. Qed.

(** C5. The type accumulated for one column in one context is claimed to
    be the same for every order of the literals. On the code the literals
    "2" and "1.5" of an attribute give the column the type INT in this
    order and FLOAT in the other. *)
Theorem C5_column_type_depends_on_order :
  (Table.columns <$> observe_attributes "x" ["2"; "1.5"] (Table.new "a"))
    = inr [("x", INT)] ∧
  (Table.columns <$> observe_attributes "x" ["1.5"; "2"] (Table.new "a"))
    = inr [("x", FLOAT)] ∧
  foldl (fun t l => get_data_type l t false) BIT ["2"; "1.5"]
    ≠ foldl (fun t l => get_data_type l t false) BIT ["1.5"; "2"].
Proof. split; [reflexivity |]. split; [reflexivity |]. discriminate. Qed.

(** ** Validation *)

Lemma data_type_usable_unset data2 : data_type_usable None data2 = true.
Proof. reflexivity. Qed.


(** ** Loops and the tree *)

Lemma for_each_app {A S} (l1 l2 : list A) (body : A → S → result S) st :
  for_each (l1 ++ l2) body st = do st' <- for_each l1 body st; for_each l2 body st'.
Proof.
  revert st. induction l1 as [|x l1 IH]; intros st; simpl; [done |].
  destruct (body x st); simpl; [done | apply IH].
Qed.

(** A property kept by every step that returns is kept by the loop. *)
Lemma for_each_invariant {A S} (P : S → Prop) (l : list A)
    (body : A → S → result S) :
  (∀ x st st', x ∈ l → P st → body x st = inr st' → P st') →
  ∀ st st', P st → for_each l body st = inr st' → P st'.
Proof.
  induction l as [|x l IH]; intros Hbody st st' HP; simpl.
  - by intros [= <-].
  - destruct (body x st) as [e | st1] eqn:Hx; simpl; [done |].
    apply IH.
    + intros y s s' Hy. apply Hbody. by right.
    + eapply Hbody; [by left | exact HP | exact Hx].
Qed.

Lemma Element_induction (P : Element → Prop) :
  (∀ tag items text children,
     Forall P children → P (Elem tag items text children)) →
  ∀ item, P item.
Proof.
  intros Hstep. fix IH 1. intros [tag items text children].
  apply Hstep. induction children as [|child rest IHrest].
  - constructor.
  - constructor; [apply IH | exact IHrest].
Qed.

(** A property of the database kept by the three observations is kept by
    the walk of any tree. *)
Section WalkInvariant.
Variable P : Database.t → Prop.
Hypothesis P_attribute : ∀ db name attribute data db',
  P db → Database.update_attribute db name attribute data = inr db' → P db'.
Hypothesis P_value : ∀ db name data,
  P db → P (Database.update_value db name data).
Hypothesis P_relations : ∀ db name relations,
  P db → P (Database.update_relations db name relations).

Lemma walk_children_invariant walk children :
  Forall (fun child => ∀ db db', P db → walk child db = inr db' → P db')
         children →
  ∀ info db info' db',
    P db → walk_children walk children info db = inr (info', db') → P db'.
Proof.
  induction 1 as [|child rest Hchild _ IH]; intros info db info' db' HP;
    simpl.
  - by intros [= _ <-].
  - destruct (walk child db) as [e | db1] eqn:Hw; simpl; [done |].
    apply IH. by eapply Hchild.
Qed.

Lemma xtd_database_invariant item :
  ∀ db db', P db → xtd_database item db = inr db' → P db'.
Proof.
  induction item as [tag items text children IH] using Element_induction.
  intros db db' HP. simpl.
  destruct (for_each items _ db) as [e | db1] eqn:Hitems; simpl; [done |].
  assert (P db1) as HP1.
  { revert Hitems. apply for_each_invariant; [| exact HP].
    intros [cname data] st st' _. apply P_attribute. }
  set (db2 := if has_text text then _ else db1).
  assert (P db2) as HP2.
  { subst db2. destruct (has_text text); [by apply P_value | done]. }
  destruct (walk_children xtd_database children [] db2)
    as [e | [info db3]] eqn:Hch; simpl; [done |].
  intros [= <-]. apply P_relations.
  by eapply walk_children_invariant.
Qed.

Lemma xtd_walk_invariant root db db' :
  P db → xtd_walk root db = inr db' → P db'.
Proof.
  unfold xtd_walk. apply for_each_invariant.
  intros item st st' _. apply xtd_database_invariant.
Qed.
End WalkInvariant.

(** ** Attribute columns *)

Lemma Table_update_relations_columns self relations :
  Table.columns (Table.update_relations self relations) = Table.columns self.
Proof.
  unfold Table.update_relations. revert self.
  induction relations as [|[rel count] relations IH]; intros self; simpl;
    [done |].
  by rewrite IH.
Qed.

Lemma Table_update_relations_name self relations :
  Table.name (Table.update_relations self relations) = Table.name self.
Proof.
  unfold Table.update_relations. revert self.
  induction relations as [|[rel count] relations IH]; intros self; simpl;
    [done |].
  by rewrite IH.
Qed.

Lemma Table_update_attribute_name self column data self' :
  Table.update_attribute self column data = inr self' →
  Table.name self' = Table.name self.
Proof.
  unfold Table.update_attribute. repeat case_decide; by intros [= <-].
Qed.

Lemma Table_update_attribute_below_ntext self column data self' :
  (∀ c, dict_get (Table.columns self) c ≠ Some NTEXT) →
  Table.update_attribute self column data = inr self' →
  ∀ c, dict_get (Table.columns self') c ≠ Some NTEXT.
Proof.
  unfold Table.update_attribute. intros Hcols.
  repeat case_decide; intros [= <-] c; [apply Hcols |].
  unfold Table.columns. simpl. rewrite dict_get_set.
  case_decide; [| apply Hcols]. intros [= Heq]. revert Heq.
  apply get_data_type_attribute.
  destruct (dict_get (Table.__columns self) column) as [t|] eqn:Hget;
    simpl; [| done].
  intros ->. by apply (Hcols column).
Qed.

(** A table that is stored, or the new table made for an entity without
    one, has no NTEXT column. *)
Lemma entry_below_ntext db name :
  columns_below_ntext db →
  ∀ c, dict_get (Table.columns (Database.entry db name)) c ≠ Some NTEXT.
Proof.
  intros Hdb c. unfold Database.entry.
  destruct (dict_get (Database.__entries db) name) as [t|] eqn:Hget; simpl.
  - by apply (Hdb name).
  - done.
Qed.

Lemma columns_below_ntext_set db name table :
  columns_below_ntext db →
  (∀ c, dict_get (Table.columns table) c ≠ Some NTEXT) →
  columns_below_ntext
    (Database.with_entries db (dict_set (Database.__entries db) name table)).
Proof.
  intros Hdb Ht n t c. unfold Database.entries. simpl.
  rewrite dict_get_set. case_decide.
  - intros [= <-]. apply Ht.
  - apply Hdb.
Qed.

Lemma columns_below_ntext_new etc duplicity no_columns :
  columns_below_ntext (Database.new etc duplicity no_columns).
Proof. intros n t c. discriminate. Qed.

Lemma update_attribute_below_ntext db name attribute data db' :
  columns_below_ntext db →
  Database.update_attribute db name attribute data = inr db' →
  columns_below_ntext db'.
Proof.
  intros Hdb. unfold Database.update_attribute.
  destruct (negb (Database.__no_columns db)); [| by intros [= <-]].
  destruct (Table.update_attribute _ attribute data) as [e | t] eqn:Ht;
    simpl; [done |].
  intros [= <-]. apply columns_below_ntext_set; [done |].
  eapply Table_update_attribute_below_ntext; [| exact Ht].
  by apply entry_below_ntext.
Qed.

Lemma update_value_below_ntext db name data :
  columns_below_ntext db →
  columns_below_ntext (Database.update_value db name data).
Proof.
  intros Hdb. apply columns_below_ntext_set; [done |].
  intros c. unfold Table.update_value, Table.columns. simpl.
  by apply entry_below_ntext.
Qed.

Lemma update_relations_below_ntext db name relations :
  columns_below_ntext db →
  columns_below_ntext (Database.update_relations db name relations).
Proof.
  intros Hdb. apply columns_below_ntext_set; [done |].
  intros c. rewrite Table_update_relations_columns.
  by apply entry_below_ntext.
Qed.

(** *** Where the value types come from *)

Lemma Table_update_relations_value self relations :
  Table.value (Table.update_relations self relations) = Table.value self.
Proof.
  unfold Table.update_relations. revert self.
  induction relations as [|[rel count] relations IH]; intros self; simpl;
    [done |].
  by rewrite IH.
Qed.

(** [update_attribute] leaves the value type alone for every attribute
    that is not called "value". *)
Lemma Table_update_attribute_value self column data self' :
  column ≠ "value" →
  Table.update_attribute self column data = inr self' →
  Table.value self' = Table.value self.
Proof.
  intros Hne. unfold Table.update_attribute.
  rewrite decide_False by done. case_decide; [done |]. by intros [= <-].
Qed.

Lemma entry_values nc all db name :
  values_from nc all db →
  dict_get (Table.columns (Database.entry db name)) "value" = None ∧
  ∀ ty, Table.value (Database.entry db name) = Some ty →
        value_source nc all name ty.
Proof.
  intros [_ Hdb]. unfold Database.entry.
  destruct (dict_get (Database.__entries db) name) as [t|] eqn:Hget; simpl.
  - by apply Hdb.
  - done.
Qed.

Lemma values_from_set nc all db name table :
  values_from nc all db →
  dict_get (Table.columns table) "value" = None →
  (∀ ty, Table.value table = Some ty → value_source nc all name ty) →
  values_from nc all
    (Database.with_entries db (dict_set (Database.__entries db) name table)).
Proof.
  intros [Hnc Hdb] Hcol Hval. split; [done |].
  intros n t. unfold Database.entries. simpl. rewrite dict_get_set.
  case_decide as Hn.
  - intros [= <-]. subst n. done.
  - apply Hdb.
Qed.

Lemma update_attribute_values nc all db tag items text children cname data
    db' :
  Elem tag items text children ∈ all →
  (cname, data) ∈ items →
  values_from nc all db →
  Database.update_attribute db (lower tag) (lower cname) data = inr db' →
  values_from nc all db'.
Proof.
  intros Hitem Hattr Hdb. unfold Database.update_attribute.
  destruct (negb (Database.__no_columns db)) eqn:Hcols;
    [| by intros [= <-]].
  destruct (Table.update_attribute _ (lower cname) data) as [e | t] eqn:Ht;
    simpl; [done |].
  intros [= <-].
  destruct (entry_values nc all db (lower tag) Hdb) as [Hcol Hval].
  destruct (decide (lower cname = "value")) as [Hvalue | Hother].
  - unfold Table.update_attribute in Ht. rewrite decide_True in Ht by done.
    injection Ht as <-. apply values_from_set; [done | done |].
    intros ty. rewrite update_value_overwrites by done. intros [= <-].
    exists (Elem tag items text children), data.
    split; [done |]. split; [done |]. split; [| done].
    destruct Hdb as [<- _]. apply negb_true_iff in Hcols. rewrite Hcols.
    simpl. apply elem_of_app. left.
    apply list_elem_of_In, in_flat_map. exists (cname, data).
    split; [by apply list_elem_of_In |].
    rewrite decide_True by done. by left.
  - apply values_from_set; [done | |].
    + by eapply update_attribute_no_value_column.
    + intros ty.
      rewrite (Table_update_attribute_value _ _ _ _ Hother Ht).
      apply Hval.
Qed.

Lemma update_value_values nc all db tag items text children :
  Elem tag items text children ∈ all →
  has_text text = true →
  values_from nc all db →
  values_from nc all (Database.update_value db (lower tag) (default "" text)).
Proof.
  intros Hitem Htext Hdb.
  destruct (entry_values nc all db (lower tag) Hdb) as [Hcol Hval].
  apply values_from_set; [done | done |].
  intros ty. rewrite update_value_overwrites by done. intros [= <-].
  exists (Elem tag items text children), (default "" text).
  split; [done |]. split; [done |]. split; [| done].
  simpl. rewrite Htext. apply elem_of_app. right. by left.
Qed.

Lemma update_relations_values nc all db name relations :
  values_from nc all db →
  values_from nc all (Database.update_relations db name relations).
Proof.
  intros Hdb.
  destruct (entry_values nc all db name Hdb) as [Hcol Hval].
  apply values_from_set; [done | |].
  - by rewrite Table_update_relations_columns.
  - intros ty. rewrite Table_update_relations_value. apply Hval.
Qed.

Lemma xtd_database_values nc all item :
  (∀ x, x ∈ elements_of item → x ∈ all) →
  ∀ db db', values_from nc all db → xtd_database item db = inr db' →
            values_from nc all db'.
Proof.
  induction item as [tag items text children IH] using Element_induction.
  intros Hsub db db' Hdb. simpl.
  assert (Elem tag items text children ∈ all) as Hitem.
  { apply Hsub. simpl. by left. }
  destruct (for_each items _ db) as [e | db1] eqn:Hitems; simpl; [done |].
  assert (values_from nc all db1) as Hdb1.
  { revert Hitems. apply for_each_invariant; [| exact Hdb].
    intros [cname data] st st' Hin Hst.
    by apply (update_attribute_values nc all st tag items text children). }
  set (db2 := if has_text text then _ else db1).
  assert (values_from nc all db2) as Hdb2.
  { subst db2. destruct (has_text text) eqn:Htext; [| done].
    by apply (update_value_values nc all db1 tag items text children). }
  destruct (walk_children xtd_database children [] db2)
    as [e | [info db3]] eqn:Hch; simpl; [done |].
  intros [= <-]. apply update_relations_values.
  revert Hch. apply (walk_children_invariant (values_from nc all));
    [| exact Hdb2].
  apply Forall_forall. intros child Hchild db0 db0'.
  rewrite Forall_forall in IH. apply (IH child Hchild).
  intros x Hx. apply Hsub. simpl. right.
  apply list_elem_of_In, in_flat_map. exists child.
  split; by apply list_elem_of_In.
Qed.

Lemma xtd_walk_values root etc duplicity no_columns db :
  xtd_walk root (Database.new etc duplicity no_columns) = inr db →
  values_from no_columns (flat_map elements_of (getchildren root)) db.
Proof.
  unfold xtd_walk.
  apply (for_each_invariant
           (values_from no_columns
              (flat_map elements_of (getchildren root)))).
  - intros item st st' Hin. apply xtd_database_values.
    intros x Hx. apply list_elem_of_In, in_flat_map. exists item.
    split; by apply list_elem_of_In.
  - split; [done |]. intros name table. discriminate.
Qed.

(** C4, as the specification states it: no attribute observation yields
    NTEXT for any column or value slot. The attribute called "value" is
    handed to [update_value], which classifies its literal as a text. *)
Lemma C4_value_attribute_yields_ntext :
  ∃ db,
    xtd_walk (Elem "root" [] None [Elem "a" [("value", "hello")] None []])
             (Database.new (-1) false false) = inr db ∧
    Database.value db "a" = Some (Some NTEXT).
Proof. eexists. split; reflexivity. Qed.

(** C4, amended. For every document and every configuration, after the
    walk: no attribute column of any entity has the type NTEXT; the value
    type of an entity is the type, in the value context, of a literal
    that one of its elements hands to [update_value], which is a text
    content or, without the option [-a], the data of an attribute whose
    lowercased name is "value"; and [update_attribute] leaves the value
    type alone for every other attribute. So NTEXT arises from a text
    content and from the attribute called "value" only. *)
Theorem C4_no_ntext_column root etc duplicity no_columns db :
  xtd_walk root (Database.new etc duplicity no_columns) = inr db →
  columns_below_ntext db ∧
  (∀ name table ty,
     dict_get (Database.entries db) name = Some table →
     Table.value table = Some ty →
     value_source no_columns (flat_map elements_of (getchildren root))
       name ty) ∧
  (∀ table column data table',
     column ≠ "value" →
     Table.update_attribute table column data = inr table' →
     Table.value table' = Table.value table).
Proof.
  intros Hwalk. split; [| split].
  - revert Hwalk. apply (xtd_walk_invariant columns_below_ntext).
    + apply update_attribute_below_ntext.
    + apply update_value_below_ntext.
    + apply update_relations_below_ntext.
    + apply columns_below_ntext_new.
  - intros name table ty Hget Hty.
    destruct (xtd_walk_values root etc duplicity no_columns db Hwalk)
      as [_ Hdb].
    by apply (Hdb name table).
  - apply Table_update_attribute_value.
Qed.

Lemma C4_no_ntext_column_witness :
  let root :=
    Elem "root" [] None
      [Elem "a" [("x", "a long text"); ("y", "1.5")] (Some "some text")
         []] in
  ∃ db, xtd_walk root (Database.new (-1) false false) = inr db ∧
        columns_below_ntext db ∧
        Database.value db "a" = Some (Some NTEXT) ∧
        value_source false (flat_map elements_of (getchildren root))
          "a" NTEXT.
Proof.
  intros root. eexists. split; [reflexivity |].
  destruct (C4_no_ntext_column root (-1)%Z false false _ eq_refl)
    as (Hcolumns & Hvalues & _).
  split; [exact Hcolumns |]. split; [reflexivity |].
  eapply Hvalues; reflexivity.
Defined.

(** ** The reserved name of the primary key *)

Lemma prk_not_value entity : prk entity ≠ "value".
Proof. unfold prk. simpl. discriminate. Qed.

Lemma entry_name db name :
  named db → Table.name (Database.entry db name) = name.
Proof.
  intros Hdb. unfold Database.entry.
  destruct (dict_get (Database.__entries db) name) as [t|] eqn:Hget; simpl.
  - by apply Hdb.
  - done.
Qed.

Lemma named_set db name table :
  named db → Table.name table = name →
  named (Database.with_entries db
           (dict_set (Database.__entries db) name table)).
Proof.
  intros Hdb Ht key t. unfold Database.entries. simpl.
  rewrite dict_get_set. case_decide.
  - intros [= <-]. congruence.
  - apply Hdb.
Qed.

Lemma named_new etc duplicity no_columns :
  named (Database.new etc duplicity no_columns).
Proof. intros key t. discriminate. Qed.

Lemma update_attribute_checked db name attribute data :
  with_columns_named db →
  name_checked id (bool_decide (attribute = prk name))
    (Database.update_attribute db name attribute data).
Proof.
  intros [Hcol Hnamed]. unfold Database.update_attribute.
  rewrite Hcol. simpl. unfold Table.update_attribute.
  rewrite (entry_name _ _ Hnamed). fold (prk name).
  destruct (decide (attribute = "value")) as [->|Hne]; simpl.
  - split; [split; [done |] |].
    + apply named_set; [done |]. by apply entry_name.
    + done.
  - destruct (decide (attribute = prk name)) as [->|Hne']; simpl; [done |].
    split; [split; [done |] |].
    + apply named_set; [done |]. by apply entry_name.
    + by apply bool_decide_eq_false.
Qed.

Lemma update_value_named db name data :
  with_columns_named db → with_columns_named (Database.update_value db name data).
Proof.
  intros [Hcol Hnamed]. split; [done |].
  apply named_set; [done |]. by apply entry_name.
Qed.

Lemma update_relations_named db name relations :
  with_columns_named db →
  with_columns_named (Database.update_relations db name relations).
Proof.
  intros [Hcol Hnamed]. split; [done |].
  apply named_set; [done |].
  rewrite Table_update_relations_name. by apply entry_name.
Qed.

Lemma items_checked tag items db :
  with_columns_named db →
  name_checked id
    (existsb (fun '(cname, _) => bool_decide (lower cname = prk (lower tag)))
             items)
    (for_each items
       (fun '(cname, data) db =>
          Database.update_attribute db (lower tag) (lower cname) data)
       db).
Proof.
  revert db. induction items as [|[cname data] items IH]; intros db Hdb;
    simpl.
  - done.
  - pose proof (update_attribute_checked db (lower tag) (lower cname) data Hdb)
      as Hstep.
    destruct (Database.update_attribute db (lower tag) (lower cname) data)
      as [e | db1]; simpl in *; [done |].
    destruct Hstep as [Hdb1 ->]. simpl. by apply IH.
Qed.

Lemma walk_children_checked walk children :
  Forall (fun child => ∀ db, with_columns_named db →
                             name_checked id (collides child) (walk child db))
         children →
  ∀ info db, with_columns_named db →
    name_checked snd (existsb collides children)
      (walk_children walk children info db).
Proof.
  induction 1 as [|child rest Hchild _ IH]; intros info db Hdb; simpl.
  - done.
  - specialize (Hchild db Hdb).
    destruct (walk child db) as [e | db1]; simpl in *; [done |].
    destruct Hchild as [Hdb1 ->]. simpl. by apply IH.
Qed.

Lemma xtd_database_checked item :
  ∀ db, with_columns_named db →
        name_checked id (collides item) (xtd_database item db).
Proof.
  induction item as [tag items text children IH] using Element_induction.
  intros db Hdb. simpl.
  pose proof (items_checked tag items db Hdb) as Hitems.
  destruct (for_each items _ db) as [e | db1]; simpl in *; [done |].
  destruct Hitems as [Hdb1 ->]. simpl.
  set (db2 := if has_text text then _ else db1).
  assert (with_columns_named db2) as Hdb2.
  { subst db2. destruct (has_text text); [by apply update_value_named | done]. }
  pose proof (walk_children_checked xtd_database children IH [] db2 Hdb2)
    as Hch.
  destruct (walk_children xtd_database children [] db2) as [e | [info db3]];
    simpl in *; [done |].
  destruct Hch as [Hdb3 ->]. split; [| done].
  by apply update_relations_named.
Qed.

Lemma xtd_walk_checked root db :
  with_columns_named db →
  name_checked id (existsb collides (getchildren root)) (xtd_walk root db).
Proof.
  unfold xtd_walk. revert db.
  induction (getchildren root) as [|item items IH]; intros db Hdb; simpl.
  - done.
  - pose proof (xtd_database_checked item db Hdb) as Hitem.
    destruct (xtd_database item db) as [e | db1]; simpl in *; [done |].
    destruct Hitem as [Hdb1 ->]. simpl. by apply IH.
Qed.

(** C9, as the specification states it: the collision is an error for
    every run configuration. With the option [-a] no column is generated
    from an attribute and [Database.update_attribute] does not look at the
    name: the run returns its output. *)
Lemma C9_no_columns_no_collision :
  let root := Elem "root" [] None [Elem "a" [("prk_a_id", "1")] None []] in
  let param := {| etc := None; b := false; a := true; isvalid := false;
                  header := None; g := false |} in
  collides (Elem "a" [("prk_a_id", "1")] None []) = true ∧
  ∃ out, xtd 0 root root param = inr out.
Proof. split; [reflexivity |]. eexists. reflexivity. Qed.

(** C9, amended. In every run that generates columns from attributes (no
    option [-a]), a document in which some element has an attribute whose
    lowercased name is [prk_<entity>_id] ends the run with XTDNameError,
    raised by the walk of the document, before the validation and before
    anything is written. *)
Theorem C9_collision_raises fuel tree tree2 param :
  a param = false →
  existsb collides (getchildren tree) = true →
  xtd_walk tree
    (Database.new (default (-1)%Z (etc param)) (b param) (a param))
    = inl XTDNameError ∧
  xtd fuel tree tree2 param = inl XTDNameError.
Proof.
  intros Ha Hcol.
  assert (xtd_walk tree
            (Database.new (default (-1)%Z (etc param)) (b param) (a param))
          = inl XTDNameError) as Hwalk.
  { pose proof (xtd_walk_checked tree
                  (Database.new (default (-1)%Z (etc param)) (b param)
                     (a param))) as H.
    destruct (xtd_walk tree _) as [e | db].
    - simpl in H. rewrite H; [done |]. split; [exact Ha | apply named_new].
    - simpl in H. destruct H as [_ H]; [| congruence].
      split; [exact Ha | apply named_new]. }
  split; [exact Hwalk |].
  unfold xtd. by rewrite Hwalk.
Qed.

Lemma C9_collision_raises_witness :
  let root := Elem "root" [] None [Elem "A" [("PRK_a_ID", "1")] None []] in
  let param := {| etc := None; b := false; a := false; isvalid := false;
                  header := Some "h"; g := false |} in
  xtd 0 root root param = inl XTDNameError.
Proof.
  intros root param.
  apply (C9_collision_raises 0 root root param); reflexivity.
Defined.

(** ** Relation finalization *)

Lemma dict_get_keys {V} (d : list (string * V)) k v :
  dict_get d k = Some v → k ∈ dict_keys d.
Proof.
  unfold dict_keys. induction d as [|[k' v'] d IH]; simpl; [done |].
  case_decide as Hk.
  - intros _. subst. by left.
  - intros H. right. by apply IH.
Qed.

Lemma dict_keys_get {V} (d : list (string * V)) k :
  k ∈ dict_keys d → is_Some (dict_get d k).
Proof.
  unfold dict_keys. induction d as [|[k' v'] d IH]; simpl.
  - by intros ?%elem_of_nil.
  - intros [->|Hin]%elem_of_cons.
    + by rewrite decide_True.
    + case_decide; [done | by apply IH].
Qed.

Lemma dict_keys_set {V} (d : list (string * V)) k v k' :
  k' ∈ dict_keys (dict_set d k v) ↔ k' = k ∨ k' ∈ dict_keys d.
Proof.
  unfold dict_keys. induction d as [|[k0 v0] d IH]; simpl.
  - rewrite list_elem_of_singleton, elem_of_nil. tauto.
  - case_decide as Hk; simpl.
    + subst. rewrite !elem_of_cons. tauto.
    + rewrite !elem_of_cons, IH. tauto.
Qed.

Lemma set_add_spec x s y : y ∈ set_add x s ↔ y = x ∨ y ∈ s.
Proof.
  unfold set_add, mem. case_bool_decide as Hx.
  - split; [by right | by intros [->|?]].
  - rewrite elem_of_app, list_elem_of_singleton. tauto.
Qed.

Global Instance grows_refl : Reflexive grows.
Proof.
  intros db. repeat split; eauto.
  intros key t1 H. exists t1. by repeat split.
Qed.

Global Instance grows_trans : Transitive grows.
Proof.
  intros db1 db2 db3 (Hd1 & He1 & Ht1 & Hr1) (Hd2 & He2 & Ht2 & Hr2).
  repeat split; [congruence | congruence | |].
  - intros key t1 H1.
    destruct (Ht1 key t1 H1) as (t2 & H2 & Hn & Hc & Hr & Hk).
    destruct (Ht2 key t2 H2) as (t3 & H3 & Hn' & Hc' & Hr' & Hk').
    exists t3. repeat split; [done | congruence.. |].
    by etrans.
  - intros holder s1 H1.
    destruct (Hr1 holder s1 H1) as (s2 & H2 & Hs).
    destruct (Hr2 holder s2 H2) as (s3 & H3 & Hs').
    exists s3. split; [done | by etrans].
Qed.

Lemma has_key_grows db db' key fk :
  has_key db key fk → grows db db' → has_key db' key fk.
Proof.
  intros (t & Ht & Hfk) (_ & _ & Hts & _).
  destruct (Hts key t Ht) as (t' & Ht' & _ & _ & _ & Hk).
  exists t'. split; [done | by apply Hk].
Qed.

Lemma has_edge_grows db db' holder referenced :
  has_edge db holder referenced → grows db db' →
  has_edge db' holder referenced.
Proof.
  intros (s & Hs & Hin) (_ & _ & _ & Hrs).
  destruct (Hrs holder s Hs) as (s' & Hs' & Hsub).
  exists s'. split; [done | by apply Hsub].
Qed.

Lemma dict_at_inr {V} (d : list (string * V)) k v :
  dict_at d k = inr v ↔ dict_get d k = Some v.
Proof.
  unfold dict_at, ret, raise.
  destruct (dict_get d k); split; intros H; by simplify_eq.
Qed.

Lemma set_key_of_grows db key ref db' :
  Database.set_key_of db key ref = inr db' →
  grows db db' ∧ has_key db' key (ref +:+ "_id").
Proof.
  unfold Database.set_key_of.
  destruct (dict_at _ key) as [e | table] eqn:Hat; simpl; [done |].
  apply dict_at_inr in Hat.
  unfold Table.set_key. destruct (dict_mem _ _); simpl; [done |].
  intros [= <-]. split.
  - repeat split; [done.. | |].
    + intros k t1. unfold Database.entries. simpl. rewrite dict_get_set.
      case_decide as Hk.
      * subst k. rewrite Hat. intros [= <-]. eexists. split; [done |].
        repeat split; [done.. |].
        intros fk. unfold Table.keys. simpl. rewrite dict_keys_set. tauto.
      * intros Ht1. exists t1. by repeat split.
    + intros holder s1. simpl. eauto.
  - eexists. unfold Database.entries. simpl. rewrite dict_get_set_eq.
    split; [done |]. unfold Table.keys. simpl. apply dict_keys_set. by left.
Qed.

Lemma add_relation_grows db holder referenced db' :
  Database.add_relation db holder referenced = inr db' →
  grows db db' ∧ has_edge db' holder referenced.
Proof.
  unfold Database.add_relation.
  destruct (dict_at _ holder) as [e | s] eqn:Hat; simpl; [done |].
  apply dict_at_inr in Hat. intros [= <-]. split.
  - repeat split; [done.. | |].
    + intros k t1 Ht1. exists t1. by repeat split.
    + intros h s1. simpl. rewrite dict_get_set. case_decide as Hh.
      * subst h. rewrite Hat. intros [= <-]. eexists. split; [done |].
        intros x Hx. apply set_add_spec. by right.
      * eauto.
  - eexists. simpl. rewrite dict_get_set_eq. split; [done |].
    apply set_add_spec. by left.
Qed.

(** A run [do x <- m; k] that returns: [m] returned as well. *)
Lemma bind_inr {A B} (m : result A) (k : A → result B) y :
  bind m k = inr y ↔ ∃ x, m = inr x ∧ k x = inr y.
Proof.
  destruct m as [e | x]; simpl; split.
  - done.
  - by intros (x & ? & _).
  - eauto.
  - by intros (x' & [= <-] & ?).
Qed.

Lemma for_each_grows {A} (l : list A)
    (body : A → Database.t → result Database.t) :
  (∀ x st st', x ∈ l → body x st = inr st' → grows st st') →
  ∀ st st', for_each l body st = inr st' → grows st st'.
Proof.
  intros Hbody st st'.
  apply (for_each_invariant (grows st)); [| reflexivity].
  intros x s s' Hx Hs Hstep. etrans; [exact Hs |]. by eapply Hbody.
Qed.

Lemma flush_relation_grows key item db db' :
  Database.flush_relation key item db = inr db' → grows db db'.
Proof.
  destruct item as [name count]. unfold Database.flush_relation.
  intros (table & Htable & H)%bind_inr.
  destruct (Database.__duplicity db).
  - destruct (dict_mem (Table.columns table) name); [done |].
    apply bind_inr in H as (db1 & [H1 _]%set_key_of_grows
                            & [H2 _]%add_relation_grows).
    by etrans.
  - destruct (_ && _).
    + apply bind_inr in H as (child & Hchild & H).
      destruct (dict_mem (Table.columns child) name); [done |].
      apply dict_at_inr in Hchild.
      unfold dict_mem in H. rewrite Hchild in H.
      rewrite bool_decide_eq_true_2 in H by done. simpl in H.
      apply bind_inr in H as (db1 & [H1 _]%set_key_of_grows
                              & [H2 _]%add_relation_grows).
      by etrans.
    + apply bind_inr in H as (db1 & H1 & [H2 _]%add_relation_grows).
      etrans; [| exact H2]. clear H2.
      case_bool_decide.
      * destruct (dict_mem (Table.columns table) name); [done |].
        by apply set_key_of_grows in H1 as [H1 _].
      * revert H1. apply for_each_grows. intros num st st' _.
        destruct (dict_mem _ _); [done |].
        by intros [? _]%set_key_of_grows.
Qed.

Lemma flush_relation_duplicity key name count table db db' :
  Database.__duplicity db = true →
  dict_get (Database.entries db) key = Some table →
  Database.flush_relation key (name, count) db = inr db' →
  has_key db' key (name +:+ "_id") ∧ has_edge db' (Table.name table) name.
Proof.
  intros Hdup Htable. unfold Database.flush_relation.
  intros (table' & Htable' & H)%bind_inr.
  apply dict_at_inr in Htable'. unfold Database.entries in Htable.
  rewrite Htable in Htable'. injection Htable' as <-.
  rewrite Hdup in H.
  destruct (dict_mem (Table.columns table) name); [done |].
  apply bind_inr in H as (db1 & [H1 Hk]%set_key_of_grows
                          & [H2 He]%add_relation_grows).
  split; [| done]. by eapply has_key_grows.
Qed.

(** The inner loop of [flush] in the mode of the option [-b]. *)
Lemma flush_table_duplicity key table items db db' :
  Database.__duplicity db = true →
  dict_get (Database.entries db) key = Some table →
  for_each items (Database.flush_relation key) db = inr db' →
  grows db db' ∧
  ∀ name count, (name, count) ∈ items →
    has_key db' key (name +:+ "_id") ∧ has_edge db' (Table.name table) name.
Proof.
  revert db table. induction items as [|[name count] items IH];
    intros db table Hdup Htable; cbn [for_each].
  - intros [= <-]. split; [reflexivity |]. by intros ?? ?%elem_of_nil.
  - intros (db1 & H1 & Hrest)%bind_inr.
    pose proof (flush_relation_grows _ _ _ _ H1) as Hg1.
    pose proof (flush_relation_duplicity _ _ _ _ _ _ Hdup Htable H1)
      as [Hk He].
    destruct Hg1 as (Hd & Hetc & Hts & Hrs).
    destruct (Hts key table Htable) as (t1 & Ht1 & Hn1 & _).
    assert (Database.__duplicity db1 = true) as Hdup1 by congruence.
    destruct (IH db1 t1 Hdup1 Ht1 Hrest) as [Hg Hall].
    split.
    { etrans; [| exact Hg]. by repeat split. }
    intros n c [[= -> ->]|Hin]%elem_of_cons.
    + split; [by eapply has_key_grows | by eapply has_edge_grows].
    + rewrite <- Hn1. exact (Hall n c Hin).
Qed.

Lemma flush_loop_duplicity keys db db' :
  Database.__duplicity db = true →
  for_each keys
    (fun key self =>
       do table <- dict_at (Database.__entries self) key;
       for_each (Table.relations table) (Database.flush_relation key) self)
    db = inr db' →
  grows db db' ∧
  ∀ key table name count,
    key ∈ keys → dict_get (Database.entries db) key = Some table →
    (name, count) ∈ Table.relations table →
    has_key db' key (name +:+ "_id") ∧ has_edge db' (Table.name table) name.
Proof.
  revert db. induction keys as [|key keys IH]; intros db Hdup;
    cbn [for_each].
  - intros [= <-]. split; [reflexivity |]. by intros ???? ?%elem_of_nil.
  - intros (db1 & (t & Ht%dict_at_inr & H1)%bind_inr & Hrest)%bind_inr.
    destruct (flush_table_duplicity _ _ _ _ _ Hdup Ht H1) as [Hg1 Hall1].
    assert (Database.__duplicity db1 = true) as Hdup1.
    { destruct Hg1 as (-> & _). done. }
    destruct (IH db1 Hdup1 Hrest) as [Hg Hall].
    split; [by etrans |].
    intros k table name count [->|Hin]%elem_of_cons Htable Hrel.
    + unfold Database.entries in Htable. rewrite Ht in Htable.
      injection Htable as <-.
      destruct (Hall1 name count Hrel) as [Hk He].
      split; [by eapply has_key_grows | by eapply has_edge_grows].
    + destruct Hg1 as (_ & _ & Hts & _).
      destruct (Hts k table Htable) as (t1 & Ht1 & Hn1 & _ & Hr1 & _).
      rewrite <- Hn1. apply (Hall k t1 name count Hin Ht1).
      by rewrite Hr1.
Qed.

(** C1, as the specification states it: in the mode of the option [-b]
    the foreign key is added to the child entity and references the
    parent. For a document with an element [a] holding an element [b],
    [flush] gives the column [b_id] to the parent [a] and no column to
    the child [b]; the relation graph has the edge from [a] to [b]. *)
Lemma C1_key_is_on_the_parent :
  ∃ db db',
    xtd_walk (Elem "root" [] None [Elem "a" [] None [Elem "b" [] None []]])
             (Database.new (-1) true false) = inr db ∧
    Table.relations <$> dict_get (Database.entries db) "a"
      = Some [("b", 1%Z)] ∧
    Database.flush db = inr db' ∧
    Database.keys db' "b" = Some [] ∧
    Database.keys db' "a" = Some ["b_id"] ∧
    Database.__relations db' = [("b", []); ("a", ["b"])].
Proof. do 2 eexists. repeat split; reflexivity. Qed.

(** C1, amended. In the mode of the option [-b], when [flush] returns,
    every relation recorded for a parent entity, whatever its count, has
    given the foreign key column [<child>_id] to the parent entity, and
    the edge from the parent to the child to the relation graph. *)
Theorem C1_duplicity_key_on_parent db db' key table name count :
  Database.__duplicity db = true →
  Database.flush db = inr db' →
  dict_get (Database.entries db) key = Some table →
  (name, count) ∈ Table.relations table →
  has_key db' key (name +:+ "_id") ∧ has_edge db' (Table.name table) name.
Proof.
  intros Hdup Hflush Htable Hrel. unfold Database.flush in Hflush.
  apply flush_loop_duplicity in Hflush as [_ Hall]; [| done].
  apply (Hall key table name count); [| done | done].
  by eapply dict_get_keys.
Qed.

Lemma C1_duplicity_key_on_parent_witness :
  let db :=
    Database.with_entries (Database.new (-1) true false)
      [("pet", Table.new "pet");
       ("person", Table.with_relations (Table.new "person") [("pet", 2%Z)])]
  in
  ∃ db', Database.flush db = inr db' ∧
         has_key db' "person" "pet_id" ∧ has_edge db' "person" "pet".
Proof.
  intros db. eexists. split; [reflexivity |].
  apply (C1_duplicity_key_on_parent db _ "person"
           (Table.with_relations (Table.new "person") [("pet", 2%Z)])
           "pet" 2%Z).
  - reflexivity.
  - reflexivity.
  - reflexivity.
  - apply list_elem_of_In. simpl. by left.
Defined.

(** ** The relation report *)

Lemma mem_true x s : mem x s = true ↔ x ∈ s.
Proof. unfold mem. apply bool_decide_eq_true. Qed.

Lemma mem_false x s : mem x s = false ↔ x ∉ s.
Proof. unfold mem. apply bool_decide_eq_false. Qed.

Section Report.
Variable self : Database.t.
Variable toriginal : string.
Hypothesis self_ok : graph_ok self = true.
Hypothesis origin_key : toriginal ∈ dict_keys (Database.__entries self).

#[local] Notation "'keys'" := (dict_keys (Database.__entries self))
  (only parsing).
#[local] Notation "'relations'" := (Database.__relations self)
  (only parsing).

Lemma graph_ok_at key :
  key ∈ keys →
  ∃ tables, dict_at relations key = inr tables ∧
            ∀ table, table ∈ tables → table ∈ keys.
Proof.
  intros Hkey. unfold graph_ok in self_ok.
  rewrite forallb_forall in self_ok.
  specialize (self_ok key). rewrite <- list_elem_of_In in self_ok.
  specialize (self_ok Hkey). unfold dict_at.
  destruct (dict_get relations key) as [tables|]; [| done].
  exists tables. split; [done |].
  intros table Hin. rewrite forallb_forall in self_ok.
  apply mem_true, self_ok. by apply list_elem_of_In.
Qed.

Lemma unvisited_mono r r' : r ⊆ r' → unvisited self r' ≤ unvisited self r.
Proof.
  intros Hsub. unfold unvisited. apply subseteq_size.
  intros x. rewrite !elem_of_difference, !elem_of_list_to_set.
  intros [? Hx]. split; [done |]. intros ?. apply Hx. by apply Hsub.
Qed.

Lemma unvisited_append r x :
  x ∈ keys → x ∉ r → unvisited self (r ++ [x]) < unvisited self r.
Proof.
  intros Hx Hr. unfold unvisited. apply subset_size. split.
  - intros y. rewrite !elem_of_difference, !elem_of_list_to_set.
    rewrite elem_of_app. tauto.
  - intros Hsub. specialize (Hsub x).
    rewrite !elem_of_difference, !elem_of_list_to_set in Hsub.
    rewrite elem_of_app, list_elem_of_singleton in Hsub.
    destruct Hsub; [done | tauto].
Qed.

Lemma size_list_to_set_le (l : list string) :
  size (list_to_set l : gset string) ≤ length l.
Proof.
  induction l as [|x l IH]; cbn [list_to_set length].
  - by rewrite size_empty.
  - rewrite size_union_alt, size_singleton.
    assert (size (list_to_set l ∖ {[x]} : gset string)
            ≤ size (list_to_set l : gset string)).
    { apply subseteq_size. by intros y [? _]%elem_of_difference. }
    lia.
Qed.

Lemma unvisited_le r : unvisited self r ≤ length keys.
Proof.
  unfold unvisited. etrans; [| apply size_list_to_set_le].
  apply subseteq_size. by intros y [? _]%elem_of_difference.
Qed.

Global Instance extends_refl : Reflexive (extends self toriginal).
Proof.
  intros pw. exists [], []. rewrite !app_nil_r.
  split; [done |]. split; [done |]. split; [done |].
  split; [by intros l ?%elem_of_nil | by intros x ?%elem_of_nil].
Qed.

Global Instance extends_trans : Transitive (extends self toriginal).
Proof.
  intros pw1 pw2 pw3 (a1 & n1 & Hr1 & Hf1 & Hs1 & Ht1 & Hk1)
    (a2 & n2 & Hr2 & Hf2 & Hs2 & Ht2 & Hk2).
  exists (a1 ++ a2), (n1 ++ n2).
  rewrite Hr2, Hr1, Hf2, Hf1, !app_assoc.
  split; [done |]. split; [done |]. split; [| split].
  - rewrite fmap_app. by apply sublist_app.
  - intros l [?|?]%elem_of_app; [by apply Ht1 | by apply Ht2].
  - intros x [?|?]%elem_of_app; [by apply Hk1 | by apply Hk2].
Qed.

Lemma extends_route pw pw' :
  extends self toriginal pw pw' → route pw.2 ⊆ route pw'.2.
Proof.
  intros (added & new & -> & _) x Hx. apply elem_of_app. by left.
Qed.

Lemma extends_unvisited pw pw' :
  extends self toriginal pw pw' →
  unvisited self (route pw'.2) ≤ unvisited self (route pw.2).
Proof. intros H. by apply unvisited_mono, extends_route. Qed.

(** Closing a path at the origin, when this was not done before *)
Lemma close_at_spec w :
  sound toriginal (false, w) →
  extends self toriginal (false, w) (close_at toriginal w) ∧
  sound toriginal (close_at toriginal w).
Proof.
  intros (Hnd & Hp & _). simpl in *.
  assert (toriginal ∉ route w) as Hnot.
  { intros Hin. by apply Hp in Hin. }
  split.
  - exists [toriginal], [Relation "1:1" toriginal]. simpl.
    split; [done |]. split; [done |]. split; [done |].
    split; [by intros l ->%list_elem_of_singleton |].
    by intros x ->%list_elem_of_singleton.
  - split; [| split]; simpl.
    + apply NoDup_app. repeat split; [done | | apply NoDup_singleton].
      intros x Hx ->%list_elem_of_singleton. done.
    + split; [| done]. intros _. apply elem_of_app. right. by left.
    + intros _. apply elem_of_app. right. by left.
Qed.

(** Entering a table that is not in [route] and is not the origin,
    with at most one line that names it *)
Lemma enter_spec p w w' ty tname_to (new : list relation_line) :
  tname_to ∈ dict_keys (Database.__entries self) →
  sound toriginal (p, w) →
  tname_to ∉ route w → tname_to ≠ toriginal → ty ≠ "1:1" →
  new = [] ∨ new = [Relation ty tname_to] →
  route w' = route w ++ [tname_to] → fout w' = fout w ++ new →
  extends self toriginal (p, w) (p, w') ∧ sound toriginal (p, w').
Proof.
  intros Hto (Hnd & Hp & Hline) Hnot Hne Hty Hnew Hr Hf. simpl in *. split.
  - exists [tname_to], new. simpl.
    split; [done |]. split; [done |]. split; [| split].
    + destruct Hnew as [->| ->]; simpl; [apply sublist_nil_l | done].
    + intros l Hl. destruct Hnew as [->| ->]; [by apply elem_of_nil in Hl |].
      apply list_elem_of_singleton in Hl as ->. simpl. done.
    + by intros x ->%list_elem_of_singleton.
  - split; [| split]; simpl; rewrite ?Hr.
    + apply NoDup_app. repeat split; [done | | apply NoDup_singleton].
      intros x Hx ->%list_elem_of_singleton. done.
    + rewrite elem_of_app, list_elem_of_singleton. rewrite Hp.
      split; [tauto |]. intros [?|?]; [done | congruence].
    + intros Hpt. rewrite Hf. apply elem_of_app. left. by apply Hline.
Qed.

(** A loop whose steps extend the state extends it. *)
Lemma loop_spec {A} (l : list A)
    (body : A → bool * walk → result (bool * walk)) n :
  (∀ x pw, x ∈ l → sound toriginal pw →
     unvisited self (route pw.2) < n →
     ∃ pw', body x pw = inr pw' ∧ extends self toriginal pw pw' ∧
            sound toriginal pw') →
  ∀ pw, sound toriginal pw → unvisited self (route pw.2) < n →
    ∃ pw', for_each l body pw = inr pw' ∧ extends self toriginal pw pw' ∧
           sound toriginal pw'.
Proof.
  induction l as [|x l IH]; intros Hbody pw Hs Hn; cbn [for_each].
  - exists pw. split; [done |]. split; [reflexivity | done].
  - destruct (Hbody x pw) as (pw1 & -> & He1 & Hs1); [by left | done.. |].
    simpl. destruct (IH) with (pw := pw1) as (pw2 & -> & He2 & Hs2).
    + intros y pw' Hy. apply Hbody. by right.
    + done.
    + pose proof (extends_unvisited _ _ He1). lia.
    + exists pw2. repeat split; [by etrans | apply Hs2..].
Qed.

(** Once [printed] is set it stays set. *)
Lemma printed_mono pw pw' :
  extends self toriginal pw pw' → sound toriginal pw → sound toriginal pw' →
  pw.1 = true → pw'.1 = true.
Proof.
  intros He (_ & Hp & _) (_ & Hp' & _) Ht.
  apply Hp'. eapply extends_route; [exact He |]. by apply Hp.
Qed.

(** A loop whose steps extend the state and keep [J], with steps that
    set [printed] for the elements that [hit]. *)
Lemma loop_closes {A} (l : list A)
    (body : A → bool * walk → result (bool * walk)) n
    (J : bool * walk → Prop) (hit : A → Prop) :
  (∀ x pw, x ∈ l → sound toriginal pw → J pw →
     unvisited self (route pw.2) < n →
     ∃ pw', body x pw = inr pw' ∧ extends self toriginal pw pw' ∧
            sound toriginal pw' ∧ J pw' ∧ (hit x → pw'.1 = true)) →
  ∀ pw, sound toriginal pw → J pw → unvisited self (route pw.2) < n →
    ∃ pw', for_each l body pw = inr pw' ∧ extends self toriginal pw pw' ∧
           sound toriginal pw' ∧ J pw' ∧
           (pw.1 = true ∨ (∃ x, x ∈ l ∧ hit x) → pw'.1 = true).
Proof.
  induction l as [|x l IH]; intros Hbody pw Hs HJ Hn; cbn [for_each].
  - exists pw. split; [done |]. split; [reflexivity |]. split; [done |].
    split; [done |]. by intros [? | (x & ?%elem_of_nil & _)].
  - destruct (Hbody x pw) as (pw1 & -> & He1 & Hs1 & HJ1 & Hhit1);
      [by left | done.. |].
    cbn [bind].
    destruct IH with (pw := pw1) as (pw2 & -> & He2 & Hs2 & HJ2 & Hhit2).
    + intros y pw' Hy. apply Hbody. by right.
    + done.
    + done.
    + pose proof (extends_unvisited _ _ He1). lia.
    + exists pw2. split; [done |]. split; [by etrans |]. split; [done |].
      split; [done |]. intros Hor. apply Hhit2.
      destruct Hor as [Hp | (y & [-> | Hy]%elem_of_cons & Hh)].
      * left. by eapply printed_mono.
      * left. by apply Hhit1.
      * right. eauto.
Qed.

Lemma has_edge_at holder referenced tables :
  dict_at (Database.__relations self) holder = inr tables →
  has_edge self holder referenced ↔ referenced ∈ tables.
Proof.
  intros Hat%dict_at_inr. unfold has_edge. rewrite Hat. split.
  - by intros (tables' & [= <-] & ?).
  - eauto.
Qed.

Section LoopSpecs.
Variable recurse :
string → string → string → nat → bool → walk → result (bool * walk).
Variable n : nat.
Hypothesis recurse_ok : traverses self toriginal n recurse.

Lemma foreign_keys_loop_spec tname_to rel tables pw :
(∀ table, table ∈ tables → table ∈ dict_keys (Database.__entries self)) →
tname_to ∈ dict_keys (Database.__entries self) →
sound toriginal pw → unvisited self (route pw.2) < n →
∃ pw', foreign_keys_loop recurse toriginal tname_to rel tables pw = inr pw' ∧
       extends self toriginal pw pw' ∧ sound toriginal pw'.
Proof.
intros Htables Hto. unfold foreign_keys_loop. apply loop_spec.
intros table [p w] Hin Hs Hn. simpl in Hn.
destruct (bool_decide (table = toriginal) && negb p) eqn:Hc.
- apply andb_true_iff in Hc as [->%bool_decide_eq_true ->%negb_true_iff].
  exists (close_at toriginal w). split; [done |]. by apply close_at_spec.
- destruct (negb (mem table (route w))) eqn:Hm.
  + apply recurse_ok; [done | by apply Htables | done | | done].
    intros ->. rewrite bool_decide_eq_true_2 in Hc by done.
    by destruct p.
  + exists (p, w). split; [done |]. split; [reflexivity | done].
Qed.

Lemma referencing_loop_spec tname_to rel pw :
tname_to ∈ dict_keys (Database.__entries self) →
sound toriginal pw → unvisited self (route pw.2) < n →
∃ pw', referencing_loop self recurse toriginal tname_to rel pw = inr pw' ∧
       extends self toriginal pw pw' ∧ sound toriginal pw'.
Proof.
intros Hto. unfold referencing_loop. apply loop_spec.
intros table [p w] Hin Hs Hn. simpl in Hn.
destruct (graph_ok_at table Hin) as (tables & -> & _). cbn [bind].
destruct (mem tname_to tables);
  [| exists (p, w); split; [done |]; split; [reflexivity | done]].
destruct (bool_decide (table = toriginal) && negb p) eqn:Hc.
- apply andb_true_iff in Hc as [Heq%bool_decide_eq_true ->%negb_true_iff].
  subst table. unfold close_at at 1.
  rewrite bool_decide_eq_true_2 by done. cbn [negb andb].
  exists (close_at toriginal w). split; [done |]. by apply close_at_spec.
- destruct (negb (bool_decide (table = toriginal))
            && negb (mem table (route w))) eqn:Hg.
  + apply andb_true_iff in Hg as [Hne%negb_true_iff _].
    apply bool_decide_eq_false in Hne.
    by apply recurse_ok.
  + exists (p, w). split; [done |]. split; [reflexivity | done].
Qed.

(** The two loops that follow the entry of [tname_to] *)
Lemma entered_spec p w w' ty tname_to new rel1 rel2 to_refs :
tname_to ∈ dict_keys (Database.__entries self) →
(∀ table, table ∈ to_refs → table ∈ dict_keys (Database.__entries self)) →
sound toriginal (p, w) →
tname_to ∉ route w → tname_to ≠ toriginal → ty ≠ "1:1" →
new = [] ∨ new = [Relation ty tname_to] →
route w' = route w ++ [tname_to] → fout w' = fout w ++ new →
unvisited self (route w) < S n →
∃ pw',
  (do pw <- foreign_keys_loop recurse toriginal tname_to rel1 to_refs
              (p, w');
   referencing_loop self recurse toriginal tname_to rel2 pw) = inr pw' ∧
  extends self toriginal (p, w) pw' ∧ sound toriginal pw'.
Proof.
intros Hto Hrefs Hs Hnot Hne Hty Hnew Hr Hf Hn.
destruct (enter_spec p w w' ty tname_to new) as [He0 Hs0]; try done.
assert (unvisited self (route w') < n) as Hn0.
{ rewrite Hr. pose proof (unvisited_append (route w) tname_to Hto Hnot).
  lia. }
destruct (foreign_keys_loop_spec tname_to rel1 to_refs (p, w'))
  as (pw1 & -> & He1 & Hs1); try done.
cbn [bind].
destruct (referencing_loop_spec tname_to rel2 pw1)
  as (pw2 & -> & He2 & Hs2); try done.
{ pose proof (extends_unvisited _ _ He1). simpl in *. lia. }
exists pw2. split; [done |]. split; [| done].
etrans; [exact He0 |]. by etrans.
Qed.

(** The loop over the foreign keys of [tname_to] sets [printed] when the
    origin is one of them. *)
Lemma foreign_keys_loop_closes tname_to rel tables pw :
(∀ table, table ∈ tables → table ∈ dict_keys (Database.__entries self)) →
tname_to ∈ dict_keys (Database.__entries self) →
sound toriginal pw → unvisited self (route pw.2) < n →
∃ pw', foreign_keys_loop recurse toriginal tname_to rel tables pw = inr pw' ∧
       extends self toriginal pw pw' ∧ sound toriginal pw' ∧
       (pw.1 = true ∨ toriginal ∈ tables → pw'.1 = true).
Proof.
intros Htables Hto Hs Hn. unfold foreign_keys_loop.
destruct (loop_closes tables
            (fun table '(printed, w) =>
               if bool_decide (table = toriginal) && negb printed
               then ret (close_at table w)
               else if negb (mem table (route w))
               then recurse toriginal tname_to table rel printed w
               else ret (printed, w))
            n (fun _ => True) (fun table => table = toriginal))
  with (pw := pw) as (pw' & Hrun & He & Hs' & _ & Hhit); [| done.. |].
- intros table [p w] Hin Hs1 _ Hn1. simpl in Hn1.
  destruct (bool_decide (table = toriginal) && negb p) eqn:Hc.
  + apply andb_true_iff in Hc as [->%bool_decide_eq_true ->%negb_true_iff].
    exists (close_at toriginal w). split; [done |].
    destruct (close_at_spec w Hs1) as [He1 Hs1'].
    split; [done |]. split; [done |]. done.
  + assert (table = toriginal → p = true) as Hp.
    { intros ->. rewrite bool_decide_eq_true_2 in Hc by done.
      by destruct p. }
    destruct (negb (mem table (route w))) eqn:Hm.
    * destruct (recurse_ok tname_to table rel p w)
        as (pw1 & Hr1 & He1 & Hs1'); [done | by apply Htables | done.. |].
      exists pw1. split; [done |]. split; [done |]. split; [done |].
      split; [done |]. intros Heq.
      eapply printed_mono; [exact He1 | done | done |]. by apply Hp.
    * exists (p, w). split; [done |]. split; [reflexivity |].
      split; [done |]. done.
- exists pw'. split; [done |]. split; [done |]. split; [done |].
  intros [Hp | Hin]; apply Hhit; [by left | right; eauto].
Qed.

(** The loop over the tables that reference [tname_to] sets [printed]
    when the origin is one of them. *)
Lemma referencing_loop_closes tname_to rel pw :
tname_to ∈ dict_keys (Database.__entries self) →
sound toriginal pw → unvisited self (route pw.2) < n →
∃ pw', referencing_loop self recurse toriginal tname_to rel pw = inr pw' ∧
       extends self toriginal pw pw' ∧ sound toriginal pw' ∧
       (pw.1 = true ∨ has_edge self toriginal tname_to → pw'.1 = true).
Proof.
intros Hto Hs Hn. unfold referencing_loop.
destruct (loop_closes (dict_keys (Database.__entries self))
            (fun table '(printed, w) =>
               do tables <- dict_at (Database.__relations self) table;
               if mem tname_to tables then
                 let '(printed, w) :=
                   if bool_decide (table = toriginal) && negb printed
                   then close_at table w
                   else (printed, w) in
                 if negb (bool_decide (table = toriginal))
                    && negb (mem table (route w))
                 then recurse toriginal tname_to table rel printed w
                 else ret (printed, w)
               else ret (printed, w))
            n (fun _ => True)
            (fun table => table = toriginal ∧
                          has_edge self toriginal tname_to))
  with (pw := pw) as (pw' & Hrun & He & Hs' & _ & Hhit); [| done.. |].
- intros table [p w] Hin Hs1 _ Hn1. simpl in Hn1.
  destruct (graph_ok_at table Hin) as (tables & Hat & _).
  rewrite Hat. cbn [bind].
  destruct (mem tname_to tables) eqn:Hm.
  + destruct (bool_decide (table = toriginal) && negb p) eqn:Hc.
    * apply andb_true_iff in Hc as [Heq%bool_decide_eq_true ->%negb_true_iff].
      subst table. unfold close_at at 1.
      rewrite bool_decide_eq_true_2 by done. cbn [negb andb].
      exists (close_at toriginal w). split; [done |].
      destruct (close_at_spec w Hs1) as [He1 Hs1'].
      split; [done |]. split; [done |]. done.
    * assert (table = toriginal → p = true) as Hp.
      { intros ->. rewrite bool_decide_eq_true_2 in Hc by done.
        by destruct p. }
      destruct (negb (bool_decide (table = toriginal))
                && negb (mem table (route w))) eqn:Hg.
      -- apply andb_true_iff in Hg as [Hne%negb_true_iff _].
         apply bool_decide_eq_false in Hne.
         destruct (recurse_ok tname_to table rel p w)
           as (pw1 & Hr1 & He1 & Hs1'); [done.. |].
         exists pw1. split; [done |]. split; [done |]. split; [done |].
         split; [done |]. by intros [? _].
      -- exists (p, w). split; [done |]. split; [reflexivity |].
         split; [done |]. split; [done |]. intros [Heq _]. by apply Hp.
  + exists (p, w). split; [done |]. split; [reflexivity |].
    split; [done |]. split; [done |]. intros [-> Hedge].
    apply (has_edge_at _ _ _ Hat), mem_true in Hedge. congruence.
- exists pw'. split; [done |]. split; [done |]. split; [done |].
  intros [Hp | Hedge]; apply Hhit; [by left |].
  right. exists toriginal. done.
Qed.

(** The two loops that follow the entry of a table next to the origin
    set [printed]. *)
Lemma entered_closes p w w' ty tname_to new rel1 rel2 to_refs :
tname_to ∈ dict_keys (Database.__entries self) →
(∀ table, table ∈ to_refs → table ∈ dict_keys (Database.__entries self)) →
sound toriginal (p, w) →
tname_to ∉ route w → tname_to ≠ toriginal → ty ≠ "1:1" →
new = [] ∨ new = [Relation ty tname_to] →
route w' = route w ++ [tname_to] → fout w' = fout w ++ new →
unvisited self (route w) < S n →
toriginal ∈ to_refs ∨ has_edge self toriginal tname_to →
∃ pw',
  (do pw <- foreign_keys_loop recurse toriginal tname_to rel1 to_refs
              (p, w');
   referencing_loop self recurse toriginal tname_to rel2 pw) = inr pw' ∧
  extends self toriginal (p, w) pw' ∧ sound toriginal pw' ∧ pw'.1 = true.
Proof.
intros Hto Hrefs Hs Hnot Hne Hty Hnew Hr Hf Hn Hor.
destruct (enter_spec p w w' ty tname_to new) as [He0 Hs0]; try done.
assert (unvisited self (route w') < n) as Hn0.
{ rewrite Hr. pose proof (unvisited_append (route w) tname_to Hto Hnot).
  lia. }
destruct (foreign_keys_loop_closes tname_to rel1 to_refs (p, w'))
  as (pw1 & -> & He1 & Hs1 & Hhit1); try done.
cbn [bind].
destruct (referencing_loop_closes tname_to rel2 pw1)
  as (pw2 & -> & He2 & Hs2 & Hhit2); try done.
{ pose proof (extends_unvisited _ _ He1). simpl in *. lia. }
exists pw2. split; [done |]. split; [| split; [done |]].
- etrans; [exact He0 |]. by etrans.
- apply Hhit2. destruct Hor as [Hin | Hedge]; [| by right].
  left. apply Hhit1. by right.
Qed.
End LoopSpecs.

Lemma print_tablerel_spec fuel :
traverses self toriginal fuel (print_tablerel fuel self).
Proof.
induction fuel as [|fuel IH];
  intros tname_from tname_to rel p w Hfrom Hto Hs Hop Hn; [lia |].
assert (tname_to ∉ route w → tname_to ≠ toriginal) as Hne.
{ intros Hnot ->. apply Hnot, Hs. simpl. by apply Hop. }
destruct (graph_ok_at tname_from Hfrom) as (from_refs & Hfr & _).
destruct (graph_ok_at tname_to Hto) as (to_refs & Htr & Hto_refs).
cbn [print_tablerel]. destruct rel as [|[|[|rel]]].
- rewrite Hfr. cbn [bind].
  destruct (mem tname_to from_refs && negb (mem tname_to (route w))) eqn:Hg;
    [| exists (p, w); split; [done |]; split; [reflexivity | done]].
  apply andb_true_iff in Hg as [_ Hnot%negb_true_iff%mem_false].
  rewrite Htr. cbn [bind].
  destruct (mem tname_from to_refs).
  + by eapply (entered_spec _ fuel IH p w _ "N:M" tname_to
                 [Relation "N:M" tname_to]); eauto.
  + by eapply (entered_spec _ fuel IH p w _ "N:1" tname_to
                 [Relation "N:1" tname_to]); eauto.
- rewrite Htr. cbn [bind].
  destruct (mem tname_from to_refs && negb (mem tname_to (route w))) eqn:Hg;
    [| exists (p, w); split; [done |]; split; [reflexivity | done]].
  apply andb_true_iff in Hg as [_ Hnot%negb_true_iff%mem_false].
  rewrite Hfr. cbn [bind].
  destruct (mem tname_to from_refs).
  + destruct (negb (bool_decide (tname_from = toriginal))).
    * by eapply (entered_spec _ fuel IH p w _ "N:M" tname_to
                   [Relation "N:M" tname_to]); eauto.
    * eapply (entered_spec _ fuel IH p w _ "N:M" tname_to []);
        eauto; simpl; by rewrite ?app_nil_r.
  + by eapply (entered_spec _ fuel IH p w _ "1:N" tname_to
                 [Relation "1:N" tname_to]); eauto.
- destruct (negb (mem tname_to (route w))
            && negb (bool_decide (tname_to = toriginal))) eqn:Hg;
    [| exists (p, w); split; [done |]; split; [reflexivity | done]].
  apply andb_true_iff in Hg as [Hnot%negb_true_iff%mem_false _].
  rewrite Htr. cbn [bind].
  by eapply (entered_spec _ fuel IH p w _ "N:M" tname_to
               [Relation "N:M" tname_to]); eauto.
- exists (p, w). split; [done |]. split; [reflexivity | done].
Qed.

(** The report of a table: it is produced within the depth given by the
  number of entities, and its state is sound. *)
Lemma table_report_spec table1 :
toriginal = table1 →
table1 ∈ dict_keys (Database.__entries self) →
∃ pw,
  table_report (S (length (dict_keys (Database.__entries self)))) self
    table1 = inr pw ∧
  extends self toriginal (false, {| route := []; fout := [] |}) pw ∧
  sound toriginal pw.
Proof.
intros <- Hkey. unfold table_report.
set (fuel := S (length (dict_keys (Database.__entries self)))).
assert (∀ r, unvisited self r < fuel) as Hfuel.
{ intros r. pose proof (unvisited_le r). subst fuel. lia. }
assert (sound toriginal (false, {| route := []; fout := [] |})) as Hs0.
{ split; [| split]; simpl; [apply NoDup_nil_2 | | done].
  split; [done | by intros ?%elem_of_nil]. }
destruct (loop_spec (dict_keys (Database.__entries self))
            (fun table2 '(printed, w) =>
               if negb (bool_decide (table2 = toriginal))
               then print_tablerel fuel self toriginal toriginal table2 0
                      printed w
               else ret (printed, w)) fuel)
  with (pw := (false, {| route := []; fout := [] |}))
  as (pw1 & -> & He1 & Hs1); [| done | apply Hfuel |].
{ intros table2 [p w] Hin Hs _.
  destruct (negb (bool_decide (table2 = toriginal))) eqn:Hne.
  - apply print_tablerel_spec; [done.. | | apply Hfuel].
    intros ->. by rewrite bool_decide_eq_true_2 in Hne.
  - exists (p, w). split; [done |]. split; [reflexivity | done]. }
cbn [bind].
destruct (loop_spec (dict_keys (Database.__entries self))
            (fun table2 '(printed, w) =>
               do tables <- dict_at (Database.__relations self) table2;
               if mem toriginal tables then
                 if bool_decide (toriginal = table2) && negb printed
                 then ret (close_at toriginal w)
                 else print_tablerel fuel self toriginal toriginal table2 1
                        printed w
               else ret (printed, w)) fuel)
  with (pw := pw1) as (pw2 & -> & He2 & Hs2); [| done | apply Hfuel |].
{ intros table2 [p w] Hin Hs _.
  destruct (graph_ok_at table2 Hin) as (tables & -> & _). cbn [bind].
  destruct (mem toriginal tables);
    [| exists (p, w); split; [done |]; split; [reflexivity | done]].
  destruct (bool_decide (toriginal = table2) && negb p) eqn:Hc.
  - apply andb_true_iff in Hc as [_ ->%negb_true_iff].
    exists (close_at toriginal w). split; [done |]. by apply close_at_spec.
  - apply print_tablerel_spec; [done.. | | apply Hfuel].
    intros ->. rewrite bool_decide_eq_true_2 in Hc by done.
    by destruct p. }
exists pw2. split; [done |]. split; [by etrans | done].
Qed.

(** The report of an origin that has an edge ends with [printed] set:
    the first table entered from the origin closes the path. *)
Lemma table_report_closes table1 :
toriginal = table1 →
∃ pw,
  table_report (S (length (dict_keys (Database.__entries self)))) self
    table1 = inr pw ∧
  sound toriginal pw ∧ (related self table1 → pw.1 = true).
Proof.
intros <-. unfold table_report.
set (n := length (dict_keys (Database.__entries self))).
assert (∀ r, unvisited self r < S n) as Hfuel.
{ intros r. pose proof (unvisited_le r). subst n. lia. }
assert (sound toriginal (false, {| route := []; fout := [] |})) as Hs0.
{ split; [| split]; simpl; [apply NoDup_nil_2 | | done].
  split; [done | by intros ?%elem_of_nil]. }
destruct (graph_ok_at toriginal origin_key) as (from_refs & Hfr & _).
pose (J := fun pw : bool * walk => route pw.2 = [] ∨ pw.1 = true).
destruct (loop_closes (dict_keys (Database.__entries self))
            (fun table2 '(printed, w) =>
               if negb (bool_decide (table2 = toriginal))
               then print_tablerel (S n) self toriginal toriginal table2 0
                      printed w
               else ret (printed, w))
            (S n) J
            (fun table2 => table2 ≠ toriginal ∧
                           has_edge self toriginal table2))
  with (pw := (false, {| route := []; fout := [] |}))
  as (pw1 & -> & He1 & Hs1 & HJ1 & Hhit1);
  [| done | by left | apply Hfuel |].
{ intros table2 [p w] Hin Hs HJ _.
  destruct (negb (bool_decide (table2 = toriginal))) eqn:Hne.
  - apply negb_true_iff, bool_decide_eq_false in Hne.
    destruct (graph_ok_at table2 Hin) as (to_refs & Htr & Hto_refs).
    cbn [print_tablerel]. rewrite Hfr. cbn [bind].
    destruct (mem table2 from_refs && negb (mem table2 (route w))) eqn:Hg.
    + apply andb_true_iff in Hg
        as [Hedge%mem_true Hnot%negb_true_iff%mem_false].
      apply (has_edge_at _ _ _ Hfr) in Hedge.
      rewrite Htr. cbn [bind].
      destruct (mem toriginal to_refs).
      * destruct (entered_closes (print_tablerel n self) n
                    (print_tablerel_spec n) p w
                    (route_append table2
                       (print_relation "N:M" table2 w))
                    "N:M" table2 [Relation "N:M" table2] 0 2 to_refs)
          as (pw' & Hrun & He & Hs' & Hp'); try done; [by right | by right |].
        exists pw'. split; [done |]. split; [done |]. split; [done |].
        split; [by right | done].
      * destruct (entered_closes (print_tablerel n self) n
                    (print_tablerel_spec n) p w
                    (route_append table2
                       (print_relation "N:1" table2 w))
                    "N:1" table2 [Relation "N:1" table2] 0 2 to_refs)
          as (pw' & Hrun & He & Hs' & Hp'); try done; [by right | by right |].
        exists pw'. split; [done |]. split; [done |]. split; [done |].
        split; [by right | done].
    + exists (p, w). split; [done |]. split; [reflexivity |].
      split; [done |]. split; [done |]. intros [_ Hedge].
      apply (has_edge_at _ _ _ Hfr), mem_true in Hedge.
      rewrite Hedge in Hg. cbn [andb] in Hg.
      apply negb_false_iff, mem_true in Hg.
      destruct HJ as [Hnil | Hp]; [| done].
      simpl in Hnil. rewrite Hnil in Hg. by apply elem_of_nil in Hg.
  - exists (p, w). split; [done |]. split; [reflexivity |].
    split; [done |]. split; [done |]. intros [Hneq _].
    apply negb_false_iff, bool_decide_eq_true in Hne. done. }
cbn [bind].
destruct (loop_closes (dict_keys (Database.__entries self))
            (fun table2 '(printed, w) =>
               do tables <- dict_at (Database.__relations self) table2;
               if mem toriginal tables then
                 if bool_decide (toriginal = table2) && negb printed
                 then ret (close_at toriginal w)
                 else print_tablerel (S n) self toriginal toriginal table2 1
                        printed w
               else ret (printed, w))
            (S n) J (fun table2 => has_edge self table2 toriginal))
  with (pw := pw1) as (pw2 & -> & He2 & Hs2 & HJ2 & Hhit2);
  [| done | done | apply Hfuel |].
{ intros table2 [p w] Hin Hs HJ _.
  destruct (graph_ok_at table2 Hin) as (to_refs & Htr & Hto_refs).
  rewrite Htr. cbn [bind].
  destruct (mem toriginal to_refs) eqn:Hm.
  - destruct (bool_decide (toriginal = table2) && negb p) eqn:Hc.
    + apply andb_true_iff in Hc as [_ ->%negb_true_iff].
      exists (close_at toriginal w). split; [done |].
      destruct (close_at_spec w Hs) as [He Hs'].
      split; [done |]. split; [done |]. split; [by right | done].
    + cbn [print_tablerel]. rewrite Htr. cbn [bind]. rewrite Hm.
      cbn [andb].
      destruct (negb (mem table2 (route w))) eqn:Hnot.
      * apply negb_true_iff, mem_false in Hnot.
        assert (table2 ≠ toriginal) as Hne.
        { intros ->. rewrite bool_decide_eq_true_2 in Hc by done.
          destruct p; [| done]. apply Hnot. by apply Hs. }
        rewrite Hfr. cbn [bind].
        rewrite (bool_decide_eq_true_2 (toriginal = toriginal)) by done.
        cbn [negb].
        destruct (mem table2 from_refs).
        -- destruct (entered_closes (print_tablerel n self) n
                       (print_tablerel_spec n) p w
                       (route_append table2 w)
                       "N:M" table2 [] 2 1 to_refs)
             as (pw' & Hrun & He & Hs' & Hp'); try done;
             [by left | simpl; by rewrite app_nil_r
             | left; by apply mem_true |].
           exists pw'. split; [done |]. split; [done |]. split; [done |].
           split; [by right | done].
        -- destruct (entered_closes (print_tablerel n self) n
                       (print_tablerel_spec n) p w
                       (route_append table2
                          (print_relation "1:N" table2 w))
                       "1:N" table2 [Relation "1:N" table2] 2 1 to_refs)
             as (pw' & Hrun & He & Hs' & Hp'); try done;
             [by right | left; by apply mem_true |].
           exists pw'. split; [done |]. split; [done |]. split; [done |].
           split; [by right | done].
      * exists (p, w). split; [done |]. split; [reflexivity |].
        split; [done |]. split; [done |]. intros _.
        apply negb_false_iff, mem_true in Hnot.
        destruct HJ as [Hnil | Hp]; [| done].
        simpl in Hnil. rewrite Hnil in Hnot. by apply elem_of_nil in Hnot.
  - exists (p, w). split; [done |]. split; [reflexivity |].
    split; [done |]. split; [done |]. intros Hedge.
    apply (has_edge_at _ _ _ Htr), mem_true in Hedge. congruence. }
exists pw2. split; [done |]. split; [done |].
intros (table & Hkey & [Hedge | Hedge]).
- apply Hhit2. destruct (decide (table = toriginal)) as [-> | Hne].
  + right. exists toriginal. done.
  + left. apply Hhit1. right. exists table. done.
- apply Hhit2. right. exists table. done.
Qed.

Lemma for_each_skip {A S} (l : list A) (body : A → S → result S) st :
  (∀ x, x ∈ l → body x st = inr st) → for_each l body st = inr st.
Proof.
  induction l as [|x l IH]; intros Hbody; cbn [for_each]; [done |].
  rewrite Hbody by by left. cbn [bind]. apply IH.
  intros y Hy. apply Hbody. by right.
Qed.

(** The report of an origin without an edge is empty. *)
Lemma table_report_unrelated fuel table1 :
toriginal = table1 →
¬ related self table1 →
table_report (S fuel) self table1
  = inr (false, {| route := []; fout := [] |}).
Proof.
intros <- Hnone. unfold table_report.
destruct (graph_ok_at toriginal origin_key) as (from_refs & Hfr & _).
rewrite for_each_skip; [cbn [bind]; apply for_each_skip |].
- intros table2 Hin.
  destruct (graph_ok_at table2 Hin) as (to_refs & Htr & _).
  rewrite Htr. cbn [bind].
  destruct (mem toriginal to_refs) eqn:Hm; [| done].
  exfalso. apply Hnone. exists table2. split; [done |]. right.
  by apply (has_edge_at _ _ _ Htr), mem_true.
- intros table2 Hin.
  destruct (negb (bool_decide (table2 = toriginal))); [| done].
  cbn [print_tablerel]. rewrite Hfr. cbn [bind].
  destruct (mem table2 from_refs) eqn:Hm; [| done].
  exfalso. apply Hnone. exists table2. split; [done |]. left.
  by apply (has_edge_at _ _ _ Hfr), mem_true.
Qed.
End Report.

Lemma report_sound self table1 :
  graph_ok self = true →
  table1 ∈ dict_keys (Database.__entries self) →
  ∃ printed w,
    table_report (S (length (dict_keys (Database.__entries self)))) self
      table1 = inr (printed, w) ∧
    NoDup (route w) ∧
    (∀ x, x ∈ route w → x ∈ dict_keys (Database.__entries self)) ∧
    (relation_to <$> fout w) `sublist_of` route w ∧
    (∀ l, l ∈ fout w → (relation_type l = "1:1" ↔ relation_to l = table1)).
Proof.
  intros Hok Hkey.
  destruct (table_report_spec self table1 Hok Hkey table1 eq_refl Hkey)
    as ([p w] & Hrun & (added & new & Hr & Hf & Hsub & Hty & Hkeys) & Hnd & _).
  simpl in Hr, Hf, Hnd. subst added new. by exists p, w.
Qed.

Lemma NoDup_constant {A} (l : list A) (a : A) :
  NoDup l → (∀ x, x ∈ l → x = a) → length l ≤ 1.
Proof.
  intros Hnd Hall. destruct l as [|x [|y l]]; simpl; [lia.. |].
  exfalso. apply NoDup_cons in Hnd as [Hx _]. apply Hx.
  rewrite (Hall x), (Hall y); [by left | by right; left | by left].
Qed.

(** The lines of a report that have a given property name distinct
    tables. *)
Lemma filter_names_NoDup (P : relation_line → Prop) `{∀ l, Decision (P l)}
    (out : list relation_line) (r : list string) :
  NoDup r → (relation_to <$> out) `sublist_of` r →
  NoDup (relation_to <$> filter P out).
Proof.
  intros Hnd Hsub. eapply sublist_NoDup; [exact Hnd |].
  etrans; [| exact Hsub]. apply fmap_sublist, sublist_filter.
Qed.

(** C6. For every relation graph and every origin, the report of the
    origin is produced and has at most one line of the type 1:1; such a
    line names the origin itself. The line is written, exactly once, as
    soon as the origin has an edge of the graph, to an entity or from
    one: the first table entered from the origin returns to it and writes
    the line, and however many paths return to the origin later, they
    write nothing. The report of an origin without an edge is empty. *)
Theorem C6_one_line_for_the_origin self table1 :
  graph_ok self = true →
  table1 ∈ dict_keys (Database.__entries self) →
  ∃ printed w,
    table_report (S (length (dict_keys (Database.__entries self)))) self
      table1 = inr (printed, w) ∧
    length (one_to_one_lines (fout w)) ≤ 1 ∧
    (∀ l, l ∈ one_to_one_lines (fout w) → l = Relation "1:1" table1) ∧
    (related self table1 →
       one_to_one_lines (fout w) = [Relation "1:1" table1]) ∧
    (¬ related self table1 → fout w = []).
Proof.
  intros Hok Hkey.
  destruct (report_sound self table1 Hok Hkey)
    as (printed & w & Hrun & Hnd & _ & Hsub & Hty).
  exists printed, w. split; [done |].
  assert (∀ l, l ∈ one_to_one_lines (fout w) → l = Relation "1:1" table1)
    as Hall.
  { intros [ty to] [Hone Hin]%list_elem_of_filter.
    unfold is_one_to_one in Hone. apply bool_decide_eq_true in Hone.
    simpl in Hone. subst ty. f_equal. by apply (Hty _ Hin). }
  assert (length (one_to_one_lines (fout w)) ≤ 1) as Hle.
  { rewrite <- (length_fmap relation_to).
    apply (NoDup_constant _ table1).
    - by eapply filter_names_NoDup.
    - intros x (l & -> & Hl)%list_elem_of_fmap. by rewrite (Hall l Hl). }
  split; [done |]. split; [done |]. split.
  - intros Hrel.
    destruct (table_report_closes self table1 Hok Hkey table1 eq_refl)
      as (pw & Hrun' & (_ & _ & Hline) & Hclosed).
    rewrite Hrun in Hrun'. injection Hrun' as <-.
    specialize (Hline (Hclosed Hrel)). simpl in Hline.
    assert (Relation "1:1" table1 ∈ one_to_one_lines (fout w)) as Hin.
    { apply list_elem_of_filter. split; [done | exact Hline]. }
    destruct (one_to_one_lines (fout w)) as [|l [|l' rest]] eqn:Hlines.
    + by apply elem_of_nil in Hin.
    + f_equal. apply Hall. by left.
    + simpl in Hle. lia.
  - intros Hnone.
    rewrite (table_report_unrelated self table1 Hok Hkey _ table1 eq_refl
               Hnone) in Hrun.
    by injection Hrun as <- <-.
Qed.

Lemma lines_to_at_most_one (out : list relation_line) (r : list string) to :
  NoDup r → (relation_to <$> out) `sublist_of` r →
  length (lines_to to out) ≤ 1.
Proof.
  intros Hnd Hsub. rewrite <- (length_fmap relation_to).
  apply (NoDup_constant _ to).
  - by eapply filter_names_NoDup.
  - by intros x (l & -> & [Hl _]%list_elem_of_filter)%list_elem_of_fmap.
Qed.

Lemma lines_of_sublist ty to (out : list relation_line) :
  lines_of ty to out `sublist_of` lines_to to out.
Proof.
  unfold lines_of, lines_to. induction out as [|l out IH]; [done |].
  rewrite !filter_cons. destruct (decide (l = Relation ty to)) as [->|Hne].
  - simpl. case_decide; [by apply sublist_skip | done].
  - case_decide; [by apply sublist_cons | done].
Qed.

(** In every report, at most one line names a given table, whatever the
    relation type of the line. *)
Lemma report_names_a_table_once self table1 to :
  graph_ok self = true →
  table1 ∈ dict_keys (Database.__entries self) →
  ∃ printed w,
    table_report (S (length (dict_keys (Database.__entries self)))) self
      table1 = inr (printed, w) ∧
    length (lines_to to (fout w)) ≤ 1 ∧
    length (lines_of "N:M" to (fout w)) ≤ 1.
Proof.
  intros Hok Hkey.
  destruct (report_sound self table1 Hok Hkey)
    as (printed & w & Hrun & Hnd & _ & Hsub & _).
  exists printed, w. split; [done |].
  pose proof (lines_to_at_most_one (fout w) (route w) to Hnd Hsub) as Hle.
  split; [done |].
  etrans; [| exact Hle]. apply sublist_length, lines_of_sublist.
Qed.


Lemma cycle_db_flushed : flushed cycle_document = inr cycle_db.
Proof. reflexivity. Qed.

Lemma C6_one_line_for_the_origin_witness :
  graph_ok cycle_db = true ∧
  "a" ∈ dict_keys (Database.__entries cycle_db) ∧
  related cycle_db "a" ∧
  ∃ printed w,
    table_report 3 cycle_db "a" = inr (printed, w) ∧
    one_to_one_lines (fout w) = [Relation "1:1" "a"].
Proof.
  assert ("a" ∈ dict_keys (Database.__entries cycle_db)) as Hkey.
  { apply list_elem_of_In. simpl. tauto. }
  assert (related cycle_db "a") as Hrel.
  { exists "b". split; [apply list_elem_of_In; simpl; tauto |]. left.
    eexists. split; [reflexivity | by left]. }
  split; [reflexivity |]. split; [exact Hkey |]. split; [exact Hrel |].
  destruct (C6_one_line_for_the_origin cycle_db "a" eq_refl Hkey)
    as (printed & w & Hrun & _ & _ & Hline & _).
  exists printed, w. split; [exact Hrun | exact (Hline Hrel)].
Defined.

(** C7. The specification has exactly one N:M line, in the report of
    each origin, for a pair of entities that reference each other. In the
    database of [detour_document] the entities [a] and [b] reference each
    other, and [a] also references [c], which references [b] and is the
    first entity of the database. The report of [a] enters [c] first and
    reaches [b] from [c], which gives [b] the line N:1; the edge between
    [a] and [b] comes later and writes nothing, as [b] is in [route]. So
    the report of [a] has no N:M line for the pair, while the report of
    [b] has the line N:M for [a]. This holds for both orders in which the
    set of the tables that [a] references can be iterated; the other sets
    have one element. *)
Theorem C7_pair_without_n_to_m_line :
  flushed detour_document = inr (detour_db ["c"; "b"]) ∧
  Forall
    (fun a_refs =>
       has_edge (detour_db a_refs) "a" "b" ∧
       has_edge (detour_db a_refs) "b" "a" ∧
       (∃ printed w,
          table_report 4 (detour_db a_refs) "a" = inr (printed, w) ∧
          fout w = [Relation "N:1" "c"; Relation "N:1" "b";
                    Relation "1:1" "a"] ∧
          lines_of "N:M" "b" (fout w) = []) ∧
       (∃ printed w,
          table_report 4 (detour_db a_refs) "b" = inr (printed, w) ∧
          lines_to "a" (fout w) = [Relation "N:M" "a"]))
    [["c"; "b"]; ["b"; "c"]].
Proof.
  split; [reflexivity |].
  repeat apply Forall_cons_2; [| | apply Forall_nil_2].
  - split; [eexists; split; [reflexivity | set_solver] |].
    split; [eexists; split; [reflexivity | set_solver] |].
    split; do 2 eexists; (split; [reflexivity |]); [split |]; reflexivity.
  - split; [eexists; split; [reflexivity | set_solver] |].
    split; [eexists; split; [reflexivity | set_solver] |].
    split; do 2 eexists; (split; [reflexivity |]); [split |]; reflexivity.
Qed.

(** In the database of [cycle_document], the only one that the testable
    property of the specification describes, the report of each of the
    two origins is the N:M line of the other and its own 1:1 line. *)
Lemma cycle_reports :
  fout <$> (snd <$> table_report 3 cycle_db "a")
    = inr [Relation "N:M" "b"; Relation "1:1" "a"] ∧
  fout <$> (snd <$> table_report 3 cycle_db "b")
    = inr [Relation "N:M" "a"; Relation "1:1" "b"].
Proof. split; reflexivity. Qed.



(** ** The relation graph of a walked document *)

Lemma dict_keys_set_same {V} (d : list (string * V)) k v :
  k ∈ dict_keys d → dict_keys (dict_set d k v) = dict_keys d.
Proof.
  unfold dict_keys. induction d as [|[k' v'] d IH]; simpl.
  - by intros ?%elem_of_nil.
  - intros Hin. case_decide as Hk; simpl; [by subst |].
    f_equal. apply IH. apply elem_of_cons in Hin as [?|?]; [congruence | done].
Qed.

Lemma adds_edges_to_refl x y db : adds_edges_to x y db db.
Proof. split; [done |]. intros holder tables H. exists tables. auto. Qed.

Lemma adds_edges_to_trans x y db1 db2 db3 :
  adds_edges_to x y db1 db2 → adds_edges_to x y db2 db3 →
  adds_edges_to x y db1 db3.
Proof.
  intros [Hk1 He1] [Hk2 He2]. split; [congruence |].
  intros holder t3 H3.
  destruct (He2 holder t3 H3) as (t2 & H2 & Hsub2).
  destruct (He1 holder t2 H2) as (t1 & H1 & Hsub1).
  exists t1. split; [done |]. intros z Hz.
  destruct (Hsub2 z Hz) as [Hz2 | ?]; [| by right].
  by apply Hsub1.
Qed.

Lemma set_key_of_adds x y db key ref db' :
  Database.set_key_of db key ref = inr db' → adds_edges_to x y db db'.
Proof.
  unfold Database.set_key_of.
  intros (table & Hat%dict_at_inr & (table' & _ & [= <-])%bind_inr)%bind_inr.
  split.
  - unfold Database.entries. simpl. apply dict_keys_set_same.
    by eapply dict_get_keys.
  - intros holder tables H. exists tables. auto.
Qed.

Lemma add_relation_adds x y db holder referenced db' :
  referenced = x ∨ referenced = y →
  Database.add_relation db holder referenced = inr db' →
  adds_edges_to x y db db'.
Proof.
  intros Href. unfold Database.add_relation.
  intros (s & Hat%dict_at_inr & [= <-])%bind_inr. split; [done |].
  intros h tables'. simpl. rewrite dict_get_set. case_decide as Hh.
  - subst h. intros [= <-]. exists s. split; [done |].
    intros z [->|?]%set_add_spec; [right; tauto | by left].
  - intros H. exists tables'. auto.
Qed.

Lemma flush_relation_adds key name count table db db' :
  dict_get (Database.entries db) key = Some table →
  Database.flush_relation key (name, count) db = inr db' →
  adds_edges_to name (Table.name table) db db'.
Proof.
  intros Htable. unfold Database.flush_relation.
  intros (table' & Htable'%dict_at_inr & H)%bind_inr.
  unfold Database.entries in Htable. rewrite Htable in Htable'.
  injection Htable' as <-.
  destruct (Database.__duplicity db).
  - destruct (dict_mem (Table.columns table) name); [done |].
    apply bind_inr in H as (db1 & H1 & H2).
    eapply adds_edges_to_trans; [by eapply set_key_of_adds |].
    eapply add_relation_adds; [| exact H2]. by left.
  - destruct (_ && _).
    + apply bind_inr in H as (child & Hchild%dict_at_inr & H).
      destruct (dict_mem (Table.columns child) name); [done |].
      unfold dict_mem in H. rewrite Hchild in H.
      rewrite bool_decide_eq_true_2 in H by done. simpl in H.
      apply bind_inr in H as (db1 & H1 & H2).
      eapply adds_edges_to_trans; [by eapply set_key_of_adds |].
      eapply add_relation_adds; [| exact H2]. by right.
    + apply bind_inr in H as (db1 & H1 & H2).
      eapply adds_edges_to_trans;
        [| eapply add_relation_adds; [| exact H2]; by left].
      case_bool_decide.
      * destruct (dict_mem (Table.columns table) name); [done |].
        by eapply set_key_of_adds.
      * revert H1.
        apply (for_each_invariant
                 (adds_edges_to name (Table.name table) db));
          [| apply adds_edges_to_refl].
        intros num st st' _ Hst. destruct (dict_mem _ _); [done |].
        intros Hstep. eapply adds_edges_to_trans; [exact Hst |].
        by eapply set_key_of_adds.
Qed.

(** The state of the loops of [flush] on a walked database [db0]. *)
Lemma flush_relation_closed db0 db db' key table name count :
  named db0 → closed_relations db0 →
  grows db0 db →
  dict_keys (Database.entries db) = dict_keys (Database.entries db0) →
  edges_closed (dict_keys (Database.entries db0)) db →
  dict_get (Database.entries db0) key = Some table →
  (name, count) ∈ Table.relations table →
  Database.flush_relation key (name, count) db = inr db' →
  grows db0 db' ∧
  dict_keys (Database.entries db') = dict_keys (Database.entries db0) ∧
  edges_closed (dict_keys (Database.entries db0)) db'.
Proof.
  intros Hnamed Hclosed Hg Hkeys [Hsome Hsub] Htable Hrel Hstep.
  pose proof (flush_relation_grows _ _ _ _ Hstep) as Hg'.
  destruct Hg as (Hd & He & Hts & Hrs).
  destruct (Hts key table Htable) as (t & Ht & Hn & _).
  destruct (flush_relation_adds _ _ _ _ _ _ Ht Hstep) as [Hk' Hadd].
  split; [| split].
  - etrans; [| exact Hg']. by repeat split.
  - congruence.
  - split.
    + intros k Hk. destruct (Hsome k Hk) as [s Hs].
      destruct Hg' as (_ & _ & _ & Hrs').
      destruct (Hrs' k s Hs) as (s' & -> & _). done.
    + intros holder tables' H' z Hz.
      destruct (Hadd holder tables' H') as (tables & H0 & Hz').
      destruct (Hz' z Hz) as [?| [-> | ->]].
      * by eapply Hsub.
      * by eapply Hclosed.
      * rewrite Hn, (Hnamed key table Htable). by eapply dict_get_keys.
Qed.

Lemma init_relations_get (tables : list Table.t)
    (acc : list (string * list string)) holder s :
  dict_get
    (foldl (fun rels table => dict_set rels (Table.name table) [])
           acc tables) holder = Some s →
  s = [] ∨ dict_get acc holder = Some s.
Proof.
  revert acc. induction tables as [|t tables IH]; intros acc; simpl.
  - by right.
  - intros [->|H]%IH; [by left |].
    rewrite dict_get_set in H. case_decide; [left; congruence | by right].
Qed.

Lemma init_relations_some (tables : list Table.t)
    (acc : list (string * list string)) holder :
  is_Some (dict_get acc holder) ∨ holder ∈ Table.name <$> tables →
  is_Some (dict_get
             (foldl (fun rels table => dict_set rels (Table.name table) [])
                    acc tables) holder).
Proof.
  revert acc. induction tables as [|t tables IH]; intros acc; simpl.
  - intros [?|?%elem_of_nil]; done.
  - intros Hor. apply IH. rewrite dict_get_set.
    destruct (decide (Table.name t = holder)) as [Heq|Hne]; [by left |].
    destruct Hor as [?|[?|?]%elem_of_cons]; [by left | congruence | by right].
Qed.

Lemma dict_get_values {V} (d : list (string * V)) k v :
  dict_get d k = Some v → v ∈ dict_values d.
Proof.
  unfold dict_values. induction d as [|[k' v'] d IH]; simpl; [done |].
  case_decide as Hk.
  - intros [= ->]. by left.
  - intros Hget. right. by apply IH.
Qed.

(** After [flush], the relation graph of a walked database is closed over
    its entities, which are those of the walk. *)
Lemma flush_graph_ok db db' :
  named db → closed_relations db →
  Database.flush db = inr db' →
  graph_ok db' = true ∧
  dict_keys (Database.entries db') = dict_keys (Database.entries db).
Proof.
  intros Hnamed Hclosed. unfold Database.flush.
  set (db0 := Database.with_relations db _).
  assert (named db0 ∧ closed_relations db0 ∧
          Database.entries db0 = Database.entries db) as (Hn0 & Hc0 & He0)
    by done.
  assert (edges_closed (dict_keys (Database.entries db0)) db0) as Hedges.
  { split.
    - intros key [t Ht]%dict_keys_get. simpl.
      apply init_relations_some. right.
      apply list_elem_of_fmap. exists t. split.
      + symmetry. by apply Hnamed.
      + by eapply dict_get_values.
    - intros holder tables. simpl.
      intros [->|?]%init_relations_get; [by intros x ?%elem_of_nil | done]. }
  replace (Database.__entries db) with (Database.entries db0) by done.
  intros Hloop.
  assert (grows db0 db' ∧
          dict_keys (Database.entries db') = dict_keys (Database.entries db0) ∧
          edges_closed (dict_keys (Database.entries db0)) db')
    as (_ & Hkeys & Hsome & Hsub).
  { revert Hloop.
    apply (for_each_invariant
             (fun st =>
                grows db0 st ∧
                dict_keys (Database.entries st)
                  = dict_keys (Database.entries db0) ∧
                edges_closed (dict_keys (Database.entries db0)) st));
      [| split; [reflexivity | split; [done | exact Hedges]]].
    intros key st st' _ (Hg & Hk & Hed).
    intros (table & Htable%dict_at_inr & Hinner)%bind_inr.
    revert Hinner.
    assert (∃ t0, dict_get (Database.entries db0) key = Some t0 ∧
                  Table.relations t0 = Table.relations table)
      as (t0 & Ht0 & Hr0).
    { assert (key ∈ dict_keys (Database.entries db0)) as Hin.
      { rewrite <- Hk. by eapply dict_get_keys. }
      apply dict_keys_get in Hin as [t0 Ht0]. exists t0. split; [done |].
      destruct Hg as (_ & _ & Hts & _).
      destruct (Hts key t0 Ht0) as (t & Ht & _ & _ & Hr & _).
      unfold Database.entries in Ht. congruence. }
    rewrite <- Hr0.
    apply (for_each_invariant
             (fun st =>
                grows db0 st ∧
                dict_keys (Database.entries st)
                  = dict_keys (Database.entries db0) ∧
                edges_closed (dict_keys (Database.entries db0)) st));
      [| split; [exact Hg | split; [exact Hk | exact Hed]]].
    intros [name count] s s' Hin (Hg1 & Hk1 & Hed1).
    by apply (flush_relation_closed db0 s s' key t0 name count). }
  split; [| done].
  unfold graph_ok. apply forallb_forall. intros key Hkey%list_elem_of_In.
  fold (Database.entries db') in Hkey. rewrite Hkeys in Hkey.
  destruct (Hsome key Hkey) as [tables Htables]. rewrite Htables.
  apply forallb_forall. intros x Hx%list_elem_of_In.
  apply mem_true. fold (Database.entries db'). rewrite Hkeys.
  by eapply Hsub.
Qed.

Lemma update_attribute_keeps_names db name attribute data db' :
  named db → Database.update_attribute db name attribute data = inr db' →
  named db'.
Proof.
  intros Hnamed. unfold Database.update_attribute.
  destruct (negb (Database.__no_columns db)); [| by intros [= <-]].
  intros (table & Htable & [= <-])%bind_inr.
  apply named_set; [done |].
  rewrite (Table_update_attribute_name _ _ _ _ Htable).
  by apply entry_name.
Qed.

Lemma update_value_keeps_names db name data :
  named db → named (Database.update_value db name data).
Proof. intros Hnamed. apply named_set; [done |]. by apply entry_name. Qed.

Lemma update_relations_keeps_names db name relations :
  named db → named (Database.update_relations db name relations).
Proof.
  intros Hnamed. apply named_set; [done |].
  rewrite Table_update_relations_name. by apply entry_name.
Qed.

Lemma xtd_walk_named root etc duplicity no_columns db :
  xtd_walk root (Database.new etc duplicity no_columns) = inr db → named db.
Proof.
  apply (xtd_walk_invariant named).
  - apply update_attribute_keeps_names.
  - apply update_value_keeps_names.
  - apply update_relations_keeps_names.
  - apply named_new.
Qed.

Lemma pair_in_keys {V} (d : list (string * V)) k v :
  (k, v) ∈ d → k ∈ dict_keys d.
Proof.
  intros Hin. unfold dict_keys. apply list_elem_of_fmap. by exists (k, v).
Qed.

Lemma Table_update_relations_names self relations name :
  name ∈ dict_keys (Table.relations (Table.update_relations self relations)) →
  name ∈ dict_keys (Table.relations self) ∨ name ∈ dict_keys relations.
Proof.
  unfold Table.update_relations. revert self.
  induction relations as [|[rel count] relations IH]; intros self; simpl.
  - by left.
  - intros [Hin|Hin]%IH.
    + unfold Table.relations in Hin. simpl in Hin.
      apply dict_keys_set in Hin as [->|Hin]; [right; by left | by left].
    + right. unfold dict_keys. simpl. by right.
Qed.

Lemma Table_update_attribute_relations self column data self' :
  Table.update_attribute self column data = inr self' →
  Table.relations self' = Table.relations self.
Proof.
  unfold Table.update_attribute. repeat case_decide; by intros [= <-].
Qed.

Lemma entry_relations_closed db name n :
  closed_relations db →
  n ∈ dict_keys (Table.relations (Database.entry db name)) →
  n ∈ dict_keys (Database.entries db).
Proof.
  intros Hclosed. unfold Database.entry.
  destruct (dict_get (Database.__entries db) name) as [t|] eqn:Hget; simpl.
  - intros ([n' c] & -> & Hin)%list_elem_of_fmap. by eapply Hclosed.
  - by intros ?%elem_of_nil.
Qed.

(** Storing a table whose relations name entities, or the table itself *)
Lemma closed_relations_set db name table :
  closed_relations db →
  (∀ n, n ∈ dict_keys (Table.relations table) →
        n ∈ dict_keys (Database.entries db) ∨ n = name) →
  closed_relations
    (Database.with_entries db (dict_set (Database.__entries db) name table)).
Proof.
  intros Hclosed Htable key t n c. unfold Database.entries. simpl.
  rewrite dict_get_set, dict_keys_set. case_decide.
  - intros [= <-] Hin. destruct (Htable n); [by eapply pair_in_keys | |];
      tauto.
  - intros Hget Hin. right. by eapply Hclosed.
Qed.

Lemma keys_set_grow db name table k :
  k ∈ dict_keys (Database.entries db) →
  k ∈ dict_keys (Database.entries
       (Database.with_entries db (dict_set (Database.__entries db) name table))).
Proof.
  intros Hk. unfold Database.entries. simpl. apply dict_keys_set. by right.
Qed.

Lemma update_attribute_walked seen db name attribute data db' :
  walked seen db →
  Database.update_attribute db name attribute data = inr db' →
  walked seen db'.
Proof.
  intros [Hclosed Hseen]. unfold Database.update_attribute.
  destruct (negb (Database.__no_columns db)); [| by intros [= <-]].
  intros (table & Htable & [= <-])%bind_inr. split.
  - apply closed_relations_set; [done |]. intros n Hn. left.
    rewrite (Table_update_attribute_relations _ _ _ _ Htable) in Hn.
    by eapply entry_relations_closed.
  - intros k Hk. by apply keys_set_grow, Hseen.
Qed.

Lemma update_value_walked seen db name data :
  walked seen db → walked seen (Database.update_value db name data).
Proof.
  intros [Hclosed Hseen]. split.
  - apply closed_relations_set; [done |]. intros n Hn. left.
    change (n ∈ dict_keys (Table.relations (Database.entry db name))) in Hn.
    by eapply entry_relations_closed.
  - intros k Hk. by apply keys_set_grow, Hseen.
Qed.

Lemma update_relations_walked seen db name relations :
  walked seen db →
  (∀ n, n ∈ dict_keys relations → n ∈ dict_keys (Database.entries db)) →
  walked (name :: seen) (Database.update_relations db name relations).
Proof.
  intros [Hclosed Hseen] Hrel. split.
  - apply closed_relations_set; [done |]. intros n Hn. left.
    apply Table_update_relations_names in Hn as [Hn|Hn].
    + by eapply entry_relations_closed.
    + by apply Hrel.
  - intros k [->|Hk]%elem_of_cons.
    + unfold Database.update_relations, Database.entries. simpl.
      apply dict_keys_set. by left.
    + by apply keys_set_grow, Hseen.
Qed.

Lemma walked_weaken seen seen' db :
  (∀ k, k ∈ seen' → k ∈ seen) → walked seen db → walked seen' db.
Proof. intros Hsub [Hclosed Hseen]. split; [done |]. auto. Qed.

Lemma walk_children_walked walk children :
  Forall (fun child => ∀ seen db db',
            walked seen db → walk child db = inr db' →
            walked (lower (tag child) :: seen) db')
         children →
  ∀ seen info db info' db',
    walked (dict_keys info ++ seen) db →
    walk_children walk children info db = inr (info', db') →
    walked (dict_keys info' ++ seen) db'.
Proof.
  induction 1 as [|child rest Hchild _ IH]; intros seen info db info' db' Hw;
    simpl.
  - by intros [= <- <-].
  - intros (db1 & Hstep & Hrest)%bind_inr.
    refine (IH seen _ db1 info' db' _ Hrest).
    apply (Hchild _ _ _ Hw) in Hstep.
    eapply walked_weaken; [| exact Hstep].
    intros k [Hk|Hk]%elem_of_app.
    + apply dict_keys_set in Hk as [->|Hk]; [by left |].
      right. apply elem_of_app. by left.
    + right. apply elem_of_app. by right.
Qed.

Lemma xtd_database_walked item :
  ∀ seen db db',
    walked seen db → xtd_database item db = inr db' →
    walked (lower (tag item) :: seen) db'.
Proof.
  induction item as [tag items text children IH] using Element_induction.
  intros seen db db' Hw. simpl.
  intros (db1 & Hitems & H)%bind_inr.
  assert (walked seen db1) as Hw1.
  { revert Hitems. apply for_each_invariant; [| exact Hw].
    intros [cname data] st st' _. apply update_attribute_walked. }
  set (db2 := if has_text text then _ else db1) in H.
  assert (walked seen db2) as Hw2.
  { subst db2. destruct (has_text text); [by apply update_value_walked | done]. }
  apply bind_inr in H as ([info db3] & Hch & [= <-]).
  assert (walked (dict_keys info ++ seen) db3) as [Hc3 Hs3].
  { eapply (walk_children_walked xtd_database children IH seen []);
      [| exact Hch]. exact Hw2. }
  apply update_relations_walked.
  - split; [done |]. intros k Hk. apply Hs3, elem_of_app. by right.
  - intros n Hn. apply Hs3, elem_of_app. by left.
Qed.

Lemma xtd_walk_closed root etc duplicity no_columns db :
  xtd_walk root (Database.new etc duplicity no_columns) = inr db →
  closed_relations db.
Proof.
  unfold xtd_walk. intros Hwalk.
  cut (walked [] db); [by intros [? _] |].
  revert Hwalk. apply for_each_invariant.
  - intros item st st' _ Hst Hstep.
    eapply walked_weaken; [| by eapply xtd_database_walked].
    by intros k ?%elem_of_nil.
  - split; [| by intros k ?%elem_of_nil].
    intros key t n c. discriminate.
Qed.

(** For every document and every configuration: when the walk and
    [flush] return, the relation graph is closed over the entities. *)
Lemma walked_graph_ok root etc duplicity no_columns db db' :
  xtd_walk root (Database.new etc duplicity no_columns) = inr db →
  Database.flush db = inr db' →
  graph_ok db' = true ∧
  dict_keys (Database.entries db') = dict_keys (Database.entries db).
Proof.
  intros Hwalk. apply flush_graph_ok.
  - by eapply xtd_walk_named.
  - by eapply xtd_walk_closed.
Qed.

Lemma for_each_returns {A S} (l : list A) (body : A → S → result S) :
  (∀ x st, x ∈ l → ∃ st', body x st = inr st') →
  ∀ st, ∃ st', for_each l body st = inr st'.
Proof.
  induction l as [|x l IH]; intros Hbody st; cbn [for_each].
  - by exists st.
  - destruct (Hbody x st) as [st1 ->]; [by left |]. cbn [bind].
    apply IH. intros y s Hy. apply Hbody. by right.
Qed.

(** [print_xmlrel] returns the whole report within the depth given by the
    number of entities, for every database that [flush] accepts and
    leaves with a closed relation graph. *)
Lemma print_xmlrel_returns self self' :
  Database.flush self = inr self' →
  graph_ok self' = true →
  ∃ out,
    print_xmlrel (S (length (dict_keys (Database.__entries self')))) self
      = inr (self', out).
Proof.
  intros Hflush Hok. unfold print_xmlrel. rewrite Hflush. cbn [bind].
  destruct (for_each_returns (dict_keys (Database.__entries self'))
              (fun table1 out =>
                 do pw <- table_report
                            (S (length (dict_keys (Database.__entries self'))))
                            self' table1;
                 ret (out +:+ "    <table name=" +:+ dquote +:+ table1
                          +:+ dquote +:+ ">" +:+ newline
                          +:+ foldr (fun l s => relation_text l +:+ s) ""
                                (fout pw.2)
                          +:+ "    </table>" +:+ newline))) with (st := "")
    as [body ->].
  - intros table1 out Hkey.
    destruct (report_sound self' table1 Hok Hkey) as (p & w & -> & _).
    cbn [bind]. by eexists.
  - cbn [bind]. by eexists.
Qed.

(** The whole run in the mode of the option [-g]: for every document
    whose walk and [flush] return, the report is written, within the depth
    given by the number of entities of the document. *)
Lemma xtd_report_returns tree tree2 param db db' :
  isvalid param = false → g param = true →
  xtd_walk tree
    (Database.new (default (-1)%Z (etc param)) (b param) (a param))
    = inr db →
  Database.flush db = inr db' →
  ∃ out,
    xtd (S (length (dict_keys (Database.entries db)))) tree tree2 param
      = inr out.
Proof.
  intros Hvalid Hg Hwalk Hflush.
  destruct (walked_graph_ok _ _ _ _ _ _ Hwalk Hflush) as [Hok Hkeys].
  destruct (print_xmlrel_returns db db' Hflush Hok) as [out Hout].
  unfold xtd. rewrite Hwalk, Hvalid, Hg. cbn [bind].
  rewrite <- Hkeys. unfold Database.entries. rewrite Hout. cbn [bind].
  by eexists.
Qed.

(** * Further properties of the code *)

(** ** [get_data_type] and [data_type_usable] *)

(** X1. [get_data_type] never returns a type below the previous type,
    whatever the literal and the context. *)
Theorem X1_get_data_type_never_narrows data data_type value :
  type_le data_type (get_data_type data data_type value).
Proof. unfold get_data_type. apply widen_ge_previous. Qed.

(** X2. Unless the previous type is INT and the literal a FLOAT,
    [get_data_type] returns the greater of the previous type and the type
    of the literal. *)
Theorem X2_get_data_type_maximum data data_type value :
  ¬ (data_type = INT ∧ classify data value = FLOAT) →
  get_data_type data data_type value =
    if decide (rank data_type ≤ rank (classify data value))
    then classify data value else data_type.
Proof.
  intros Hne. unfold get_data_type. apply widen_max.
  intros [= -> H]. by apply Hne.
Qed.

Lemma X2_get_data_type_maximum_witness :
  get_data_type "some text" FLOAT false = NVARCHAR.
Proof.
  rewrite (X2_get_data_type_maximum "some text" FLOAT false).
  - reflexivity.
  - intros [H _]. discriminate H.
Defined.

(** X3. For two data types, [data_type_usable(data1, data2)] is the
    order of the lattice: [data2] can be stored in [data1] exactly when
    it is not above it. *)
Theorem X3_data_type_usable_is_the_order (data1 data2 : DataType) :
  data_type_usable (Some data1) (Some data2) = true ↔ type_le data2 data1.
Proof.
  unfold type_le. destruct data1, data2; simpl; split; intros H;
    first [done | lia].
Qed.

(** X4. A table without value type is stored in a table with one only
    when that one is NTEXT: [data_type_usable(data1, None)] is 1 exactly
    for [data1] unset or NTEXT. *)
Theorem X4_data_type_usable_unset_candidate (data1 : option DataType) :
  data_type_usable data1 None = true ↔ data1 = None ∨ data1 = Some NTEXT.
Proof.
  destruct data1 as [[]|]; simpl; split; intros H;
    first [done | by left | by right | by destruct H].
Qed.

Lemma data_type_usable_refl data : data_type_usable data data = true.
Proof. by destruct data as [[]|]. Qed.

Lemma data_type_usable_trans data1 data2 data3 :
  data_type_usable data1 data2 = true →
  data_type_usable data2 data3 = true →
  data_type_usable data1 data3 = true.
Proof.
  destruct data1 as [[]|], data2 as [[]|], data3 as [[]|]; simpl; done.
Qed.

(** ** [is_subset] *)

Lemma dict_get_elem {V} (d : list (string * V)) k v :
  dict_get d k = Some v → (k, v) ∈ d.
Proof.
  induction d as [|[k' v'] d IH]; simpl; [done |].
  case_decide as Hk.
  - intros [= ->]. subst. by left.
  - intros Hget. right. by apply IH.
Qed.

Lemma dict_get_NoDup {V} (d : list (string * V)) k v :
  NoDup (dict_keys d) → (k, v) ∈ d → dict_get d k = Some v.
Proof.
  unfold dict_keys. induction d as [|[k' v'] d IH]; simpl.
  - by intros _ ?%elem_of_nil.
  - intros [Hk' Hnd]%NoDup_cons [[= -> ->]|Hin]%elem_of_cons.
    + by rewrite decide_True.
    + rewrite decide_False; [by apply IH |].
      intros ->. apply Hk'. apply list_elem_of_fmap. by exists (k, v).
Qed.

Lemma columns_usable_spec mine columns :
  columns_usable mine columns = true ↔
  ∀ column data_type, (column, data_type) ∈ columns →
    ∃ data1, dict_get (Table.columns mine) column = Some data1 ∧
             data_type_usable (Some data1) (Some data_type) = true.
Proof.
  unfold columns_usable. rewrite forallb_forall. split.
  - intros H column data_type Hin%list_elem_of_In. specialize (H _ Hin).
    simpl in H. destruct (dict_get _ column) as [data1|]; [eauto | done].
  - intros H [column data_type] Hin%list_elem_of_In.
    destruct (H _ _ Hin) as (data1 & -> & Hus). done.
Qed.

Lemma is_subset_spec self db :
  is_subset self db = true ↔
  ∀ tname table, (tname, table) ∈ Database.entries db →
    ∃ mine, dict_get (Database.__entries self) tname = Some mine ∧
            columns_usable mine (Table.columns table) = true ∧
            data_type_usable (Table.value mine) (Table.value table) = true.
Proof.
  unfold is_subset. rewrite forallb_forall. split.
  - intros H tname table Hin%list_elem_of_In. specialize (H _ Hin).
    simpl in H. destruct (dict_get _ tname) as [mine|]; [| done].
    apply andb_true_iff in H as [? ?]. eauto.
  - intros H [tname table] Hin%list_elem_of_In.
    destruct (H _ _ Hin) as (mine & -> & -> & ->). done.
Qed.

(** X5. [is_subset] is transitive: when the second database is a subset
    of the first and the third of the second, the third is a subset of
    the first. *)
Theorem X5_is_subset_transitive db1 db2 db3 :
  is_subset db1 db2 = true → is_subset db2 db3 = true →
  is_subset db1 db3 = true.
Proof.
  rewrite !is_subset_spec. intros H12 H23 tname t3 Hin3.
  destruct (H23 tname t3 Hin3) as (t2 & Hget2 & Hcols23 & Hval23).
  destruct (H12 tname t2 (dict_get_elem _ _ _ Hget2))
    as (t1 & Hget1 & Hcols12 & Hval12).
  exists t1. split; [done |]. split; [| by eapply data_type_usable_trans].
  rewrite columns_usable_spec in *. intros column d3 Hc3.
  destruct (Hcols23 column d3 Hc3) as (d2 & Hd2 & Hus23).
  destruct (Hcols12 column d2 (dict_get_elem _ _ _ Hd2)) as (d1 & Hd1 & Hus12).
  exists d1. split; [done |]. by eapply data_type_usable_trans.
Qed.

Lemma X5_is_subset_transitive_witness :
  let db1 :=
    Database.with_entries (Database.new (-1) false false)
      [("a", Table.with_columns (Table.new "a") [("x", NVARCHAR)])] in
  let db2 :=
    Database.with_entries (Database.new (-1) false false)
      [("a", Table.with_columns (Table.new "a") [("x", FLOAT)])] in
  let db3 :=
    Database.with_entries (Database.new (-1) false false)
      [("a", Table.with_columns (Table.new "a") [("x", BIT)])] in
  is_subset db1 db3 = true.
Proof.
  intros db1 db2 db3.
  apply (X5_is_subset_transitive db1 db2 db3); reflexivity.
Defined.

(** ** The walk of a document *)

(** The outcome of a loop whose steps keep [P] or raise within [E] *)
Lemma for_each_outcome {A S} (P : S → Prop) (E : exn → Prop) (l : list A)
    (body : A → S → result S) :
  (∀ x st, x ∈ l → P st →
     match body x st with inl e => E e | inr st' => P st' end) →
  ∀ st, P st →
    match for_each l body st with inl e => E e | inr st' => P st' end.
Proof.
  induction l as [|x l IH]; intros Hbody st HP; cbn [for_each]; [done |].
  pose proof (Hbody x st (list_elem_of_here _ _) HP) as Hx.
  destruct (body x st) as [e | st1]; cbn [bind]; [done |].
  apply IH; [| done]. intros y s Hy. apply Hbody. by right.
Qed.

Lemma update_attribute_raises db name attribute data e :
  Database.update_attribute db name attribute data = inl e →
  e = XTDNameError.
Proof.
  unfold Database.update_attribute, Table.update_attribute, ret, raise.
  destruct (negb _); [| done]. repeat case_decide; simpl; congruence.
Qed.

Lemma walk_children_raises walk children :
  Forall (fun child => ∀ db e, walk child db = inl e → e = XTDNameError)
         children →
  ∀ info db e,
    walk_children walk children info db = inl e → e = XTDNameError.
Proof.
  induction 1 as [|child rest Hchild _ IH]; intros info db e; simpl; [done |].
  destruct (walk child db) as [e' | db1] eqn:Hw; simpl.
  - intros [= <-]. by eapply Hchild.
  - apply IH.
Qed.

Lemma xtd_database_raises item :
  ∀ db e, xtd_database item db = inl e → e = XTDNameError.
Proof.
  induction item as [tag items text children IH] using Element_induction.
  intros db e. simpl.
  pose proof (for_each_outcome (fun _ => True) (fun e => e = XTDNameError)
                items
                (fun '(cname, data) db =>
                   Database.update_attribute db (lower tag) (lower cname) data))
    as Hitems.
  specialize (Hitems
    ltac:(intros [cname data] st _ _;
          destruct (Database.update_attribute st (lower tag) (lower cname) data)
            eqn:Hu; [by eapply update_attribute_raises | done]) db I).
  destruct (for_each items _ db) as [e' | db1]; simpl; [congruence |].
  destruct (walk_children xtd_database children [] _) as [e' | [info db3]]
    eqn:Hch; simpl; [| done].
  intros [= <-]. by eapply walk_children_raises.
Qed.

(** X6. The walk of a document raises no other exception than
    XTDNameError, for every document and every database. *)
Theorem X6_walk_raises_only_name_error root db e :
  xtd_walk root db = inl e → e = XTDNameError.
Proof.
  unfold xtd_walk. intros Hwalk.
  pose proof (for_each_outcome (fun _ => True) (fun e => e = XTDNameError)
                (getchildren root) xtd_database) as H.
  specialize (H ltac:(intros item st _ _;
                      destruct (xtd_database item st) eqn:Hx;
                      [by eapply xtd_database_raises | done]) db I).
  by rewrite Hwalk in H.
Qed.

Lemma X6_walk_raises_only_name_error_witness :
  let root := Elem "root" [] None [Elem "a" [("prk_a_id", "1")] None []] in
  ∃ e, xtd_walk root (Database.new (-1) false false) = inl e ∧
       e = XTDNameError.
Proof.
  intros root. eexists. split; [reflexivity |].
  apply (X6_walk_raises_only_name_error root
           (Database.new (-1) false false)).
  reflexivity.
Defined.

Lemma update_attribute_outcome db name attribute data :
  with_columns_named db →
  walk_outcome id (bool_decide (attribute = prk name))
    (Database.update_attribute db name attribute data).
Proof.
  intros [Hcol Hnamed]. unfold Database.update_attribute.
  rewrite Hcol. simpl. unfold Table.update_attribute.
  rewrite (entry_name _ _ Hnamed). fold (prk name).
  destruct (decide (attribute = "value")) as [->|Hne]; simpl.
  - split; [split; [done |] | done].
    apply named_set; [done |]. by apply entry_name.
  - destruct (decide (attribute = prk name)) as [->|Hne']; simpl.
    + split; [done |]. by apply bool_decide_eq_true.
    + split; [split; [done |] |].
      * apply named_set; [done |]. by apply entry_name.
      * by apply bool_decide_eq_false.
Qed.

Lemma items_outcome tag items db :
  with_columns_named db →
  walk_outcome id
    (existsb (fun '(cname, _) => bool_decide (lower cname = prk (lower tag)))
             items)
    (for_each items
       (fun '(cname, data) db =>
          Database.update_attribute db (lower tag) (lower cname) data)
       db).
Proof.
  revert db. induction items as [|[cname data] items IH]; intros db Hdb;
    simpl.
  - done.
  - pose proof (update_attribute_outcome db (lower tag) (lower cname) data Hdb)
      as Hstep.
    destruct (Database.update_attribute db (lower tag) (lower cname) data)
      as [e | db1]; simpl in *.
    + destruct Hstep as [-> ->]. done.
    + destruct Hstep as [Hdb1 ->]. simpl. by apply IH.
Qed.

Lemma walk_children_outcome walk children :
  Forall (fun child => ∀ db, with_columns_named db →
                             walk_outcome id (collides child) (walk child db))
         children →
  ∀ info db, with_columns_named db →
    walk_outcome snd (existsb collides children)
      (walk_children walk children info db).
Proof.
  induction 1 as [|child rest Hchild _ IH]; intros info db Hdb; simpl.
  - done.
  - specialize (Hchild db Hdb).
    destruct (walk child db) as [e | db1]; simpl in *.
    + destruct Hchild as [-> ->]. done.
    + destruct Hchild as [Hdb1 ->]. simpl. by apply IH.
Qed.

Lemma xtd_database_outcome item :
  ∀ db, with_columns_named db →
        walk_outcome id (collides item) (xtd_database item db).
Proof.
  induction item as [tag items text children IH] using Element_induction.
  intros db Hdb. simpl.
  pose proof (items_outcome tag items db Hdb) as Hitems.
  destruct (for_each items _ db) as [e | db1]; simpl in *.
  { destruct Hitems as [-> ->]. done. }
  destruct Hitems as [Hdb1 ->]. simpl.
  set (db2 := if has_text text then _ else db1).
  assert (with_columns_named db2) as Hdb2.
  { subst db2. destruct (has_text text); [by apply update_value_named | done]. }
  pose proof (walk_children_outcome xtd_database children IH [] db2 Hdb2)
    as Hch.
  destruct (walk_children xtd_database children [] db2) as [e | [info db3]];
    simpl in *.
  { destruct Hch as [-> ->]. done. }
  destruct Hch as [Hdb3 ->]. split; [| done].
  by apply update_relations_named.
Qed.

Lemma xtd_walk_outcome root db :
  with_columns_named db →
  walk_outcome id (existsb collides (getchildren root)) (xtd_walk root db).
Proof.
  unfold xtd_walk. revert db.
  induction (getchildren root) as [|item items IH]; intros db Hdb; simpl.
  - done.
  - pose proof (xtd_database_outcome item db Hdb) as Hitem.
    destruct (xtd_database item db) as [e | db1]; simpl in *.
    + destruct Hitem as [-> ->]. done.
    + destruct Hitem as [Hdb1 ->]. simpl. by apply IH.
Qed.

Lemma update_attribute_without_columns db name attribute data :
  without_columns db →
  Database.update_attribute db name attribute data = inr db.
Proof.
  intros [Hno _]. unfold Database.update_attribute. by rewrite Hno.
Qed.

Lemma without_columns_set db name table :
  without_columns db → Table.columns table = [] →
  without_columns
    (Database.with_entries db (dict_set (Database.__entries db) name table)).
Proof.
  intros [Hno Hcols] Ht. split; [done |].
  intros key t. unfold Database.entries. simpl. rewrite dict_get_set.
  case_decide; [by intros [= <-] | apply Hcols].
Qed.

Lemma entry_without_columns db name :
  without_columns db → Table.columns (Database.entry db name) = [].
Proof.
  intros [_ Hcols]. unfold Database.entry.
  destruct (dict_get (Database.__entries db) name) as [t|] eqn:Hget; simpl;
    [by eapply Hcols | done].
Qed.

Lemma walk_children_without_columns walk children :
  Forall (fun child => ∀ db, without_columns db →
            ∃ db', walk child db = inr db' ∧ without_columns db')
         children →
  ∀ info db, without_columns db →
    ∃ info' db', walk_children walk children info db = inr (info', db') ∧
                 without_columns db'.
Proof.
  induction 1 as [|child rest Hchild _ IH]; intros info db Hdb; simpl.
  - by exists info, db.
  - destruct (Hchild db Hdb) as (db1 & -> & Hdb1). simpl. by apply IH.
Qed.

Lemma xtd_database_without_columns item :
  ∀ db, without_columns db →
        ∃ db', xtd_database item db = inr db' ∧ without_columns db'.
Proof.
  induction item as [tag items text children IH] using Element_induction.
  intros db Hdb. simpl.
  assert (for_each items
            (fun '(cname, data) db =>
               Database.update_attribute db (lower tag) (lower cname) data)
            db = inr db) as ->.
  { clear IH. induction items as [|[cname data] items IHi]; simpl; [done |].
    by rewrite update_attribute_without_columns. }
  simpl.
  set (db2 := if has_text text then _ else db).
  assert (without_columns db2) as Hdb2.
  { subst db2. destruct (has_text text); [| done].
    apply without_columns_set; [done |]. by apply entry_without_columns. }
  destruct (walk_children_without_columns xtd_database children IH [] db2 Hdb2)
    as (info & db3 & -> & Hdb3).
  simpl. eexists. split; [done |].
  apply without_columns_set; [done |].
  rewrite Table_update_relations_columns. by apply entry_without_columns.
Qed.

Lemma xtd_walk_without_columns root db :
  without_columns db →
  ∃ db', xtd_walk root db = inr db' ∧ without_columns db'.
Proof.
  unfold xtd_walk. revert db.
  induction (getchildren root) as [|item items IH]; intros db Hdb; simpl.
  - by exists db.
  - destruct (xtd_database_without_columns item db Hdb) as (db1 & -> & Hdb1).
    simpl. by apply IH.
Qed.

(** X7. The walk of a document returns exactly when the option [-a] is
    given or no element has an attribute whose lowercased name is the
    name [prk_<entity>_id] of the primary key of its entity. *)
Theorem X7_walk_returns_iff_no_collision root etc duplicity no_columns :
  (∃ db, xtd_walk root (Database.new etc duplicity no_columns) = inr db) ↔
  no_columns = true ∨ existsb collides (getchildren root) = false.
Proof.
  destruct no_columns.
  - split; [by left |]. intros _.
    destruct (xtd_walk_without_columns root (Database.new etc duplicity true))
      as (db & Hdb & _); [| by exists db].
    split; [done |]. intros key t. discriminate.
  - pose proof (xtd_walk_outcome root (Database.new etc duplicity false)) as H.
    specialize (H ltac:(split; [done | apply named_new])).
    destruct (xtd_walk root _) as [e | db]; simpl in H.
    + destruct H as [_ H]. split; [by intros [db ?] |].
      intros [? | ?]; congruence.
    + destruct H as [_ H]. split; [by right | by exists db].
Qed.

(** X8. With the option [-a] the walk of every document returns, and it
    leaves every table without column: no attribute is observed, the one
    called "value" included. *)
Theorem X8_no_columns_with_option_a root etc duplicity :
  ∃ db, xtd_walk root (Database.new etc duplicity true) = inr db ∧
        ∀ key table, dict_get (Database.entries db) key = Some table →
                     Table.columns table = [].
Proof.
  destruct (xtd_walk_without_columns root (Database.new etc duplicity true))
    as (db & Hdb & _ & Hcols); [| by exists db].
  split; [done |]. intros key t. discriminate.
Qed.

(** X9. After the walk of any document, every table is stored under its
    own name, and every child tag recorded in the relations of a table is
    an entity of the database. *)
Theorem X9_walked_database_is_closed root etc duplicity no_columns db :
  xtd_walk root (Database.new etc duplicity no_columns) = inr db →
  (∀ key table, dict_get (Database.entries db) key = Some table →
                Table.name table = key) ∧
  (∀ key table name count,
     dict_get (Database.entries db) key = Some table →
     (name, count) ∈ Table.relations table →
     name ∈ dict_keys (Database.entries db)).
Proof.
  intros Hwalk. split.
  - by eapply xtd_walk_named.
  - by eapply xtd_walk_closed.
Qed.

Lemma X9_walked_database_is_closed_witness :
  ∃ db,
    xtd_walk detour_document (Database.new (-1) false false) = inr db ∧
    (∀ key table, dict_get (Database.entries db) key = Some table →
                  Table.name table = key) ∧
    (∀ key table name count,
       dict_get (Database.entries db) key = Some table →
       (name, count) ∈ Table.relations table →
       name ∈ dict_keys (Database.entries db)).
Proof.
  eexists. split; [reflexivity |].
  apply (X9_walked_database_is_closed detour_document (-1)%Z false false).
  reflexivity.
Defined.

Lemma walk_children_tags walk children :
  Forall (fun child => ∀ seen db db',
            walked seen db → walk child db = inr db' →
            walked (tags_of child ++ seen) db')
         children →
  ∀ seen info db info' db',
    walked (dict_keys info ++ seen) db →
    walk_children walk children info db = inr (info', db') →
    walked (dict_keys info' ++ flat_map tags_of children ++ seen) db'.
Proof.
  induction 1 as [|child rest Hchild _ IH]; intros seen info db info' db' Hw;
    simpl.
  - by intros [= <- <-].
  - intros (db1 & Hstep & Hrest)%bind_inr.
    apply (Hchild _ _ _ Hw) in Hstep.
    eapply walked_weaken;
      [| refine (IH (tags_of child ++ seen) _ db1 info' db' _ Hrest)].
    + intros k. rewrite !elem_of_app. tauto.
    + eapply walked_weaken; [| exact Hstep].
      intros k. rewrite !elem_of_app, dict_keys_set.
      intros [[->|?]|[?|?]]; try tauto.
      left. destruct child. simpl. by left.
Qed.

Lemma xtd_database_tags item :
  ∀ seen db db',
    walked seen db → xtd_database item db = inr db' →
    walked (tags_of item ++ seen) db'.
Proof.
  induction item as [tag items text children IH] using Element_induction.
  intros seen db db' Hw. simpl.
  intros (db1 & Hitems & H)%bind_inr.
  assert (walked seen db1) as Hw1.
  { revert Hitems. apply for_each_invariant; [| exact Hw].
    intros [cname data] st st' _. apply update_attribute_walked. }
  set (db2 := if has_text text then _ else db1) in H.
  assert (walked seen db2) as Hw2.
  { subst db2. destruct (has_text text); [by apply update_value_walked | done]. }
  apply bind_inr in H as ([info db3] & Hch & [= <-]).
  assert (walked (dict_keys info ++ flat_map tags_of children ++ seen) db3)
    as [Hc3 Hs3].
  { eapply (walk_children_tags xtd_database children IH seen []);
      [| exact Hch]. exact Hw2. }
  eapply walked_weaken;
    [| apply (update_relations_walked (flat_map tags_of children ++ seen))].
  - intros k. rewrite !elem_of_cons, !elem_of_app. tauto.
  - split; [done |]. intros k Hk. apply Hs3, elem_of_app. by right.
  - intros n Hn. apply Hs3, elem_of_app. by left.
Qed.

Lemma xtd_walk_tags items :
  ∀ seen db db',
    walked seen db → for_each items xtd_database db = inr db' →
    walked (flat_map tags_of items ++ seen) db'.
Proof.
  induction items as [|item items IH]; intros seen db db' Hdb;
    cbn [for_each flat_map].
  - by intros [= <-].
  - intros (db1 & Hitem & Hrest)%bind_inr.
    eapply walked_weaken;
      [| apply (IH (tags_of item ++ seen) db1);
         [by eapply xtd_database_tags | exact Hrest]].
    intros k. rewrite !elem_of_app. tauto.
Qed.

(** X10. After the walk of a document, the lowercased tag of every
    element below the root is an entity of the database. *)
Theorem X10_every_element_is_an_entity root etc duplicity no_columns db :
  xtd_walk root (Database.new etc duplicity no_columns) = inr db →
  ∀ tag, tag ∈ flat_map tags_of (getchildren root) →
         tag ∈ dict_keys (Database.entries db).
Proof.
  unfold xtd_walk. intros Hwalk tag Htag.
  destruct (xtd_walk_tags (getchildren root) []
              (Database.new etc duplicity no_columns) db) as [_ Hseen];
    [| done | apply Hseen, elem_of_app; by left].
  split; [| by intros k ?%elem_of_nil].
  intros key t n c. discriminate.
Qed.

Lemma X10_every_element_is_an_entity_witness :
  ∃ db,
    xtd_walk detour_document (Database.new (-1) false false) = inr db ∧
    "c" ∈ dict_keys (Database.entries db).
Proof.
  eexists. split; [reflexivity |].
  apply (X10_every_element_is_an_entity detour_document (-1)%Z false false).
  - reflexivity.
  - apply list_elem_of_In. simpl. tauto.
Defined.

Lemma lower_char_idempotent c : lower_char (lower_char c) = lower_char c.
Proof. destruct c as [[] [] [] [] [] [] [] []]; reflexivity. Qed.

Lemma lower_idempotent s : lower (lower s) = lower s.
Proof.
  induction s as [|c s IH]; simpl; [done |].
  by rewrite lower_char_idempotent, IH.
Qed.

Lemma for_each_map {A B S} (f : A → B) (l : list A)
    (body : B → S → result S) st :
  for_each (map f l) body st = for_each l (fun x => body (f x)) st.
Proof.
  revert st. induction l as [|x l IH]; intros st; simpl; [done |].
  destruct (body (f x) st); simpl; [done | apply IH].
Qed.

Lemma for_each_ext {A S} (l : list A) (body1 body2 : A → S → result S) st :
  (∀ x s, x ∈ l → body1 x s = body2 x s) →
  for_each l body1 st = for_each l body2 st.
Proof.
  revert st. induction l as [|x l IH]; intros st Hext; simpl; [done |].
  rewrite (Hext x st) by by left.
  destruct (body2 x st) as [e | st1]; simpl; [done |].
  apply IH. intros y st2 Hy. apply Hext. by right.
Qed.

Lemma tag_lower_names item : tag (lower_names item) = lower (tag item).
Proof. by destruct item. Qed.

Lemma walk_children_lower_names children :
  Forall (fun child => ∀ db,
            xtd_database (lower_names child) db = xtd_database child db)
         children →
  ∀ info db,
    walk_children xtd_database (map lower_names children) info db =
    walk_children xtd_database children info db.
Proof.
  induction 1 as [|child rest Hchild _ IH]; intros info db; simpl; [done |].
  rewrite tag_lower_names, lower_idempotent, Hchild.
  destruct (xtd_database child db); simpl; [done | apply IH].
Qed.

Lemma xtd_database_lower_names item :
  ∀ db, xtd_database (lower_names item) db = xtd_database item db.
Proof.
  induction item as [tag items text children IH] using Element_induction.
  intros db. cbn [lower_names xtd_database].
  rewrite for_each_map.
  rewrite (for_each_ext items _
             (fun '(cname, data) db =>
                Database.update_attribute db (lower tag) (lower cname) data)).
  2: { intros [cname data] s _. by rewrite !lower_idempotent. }
  destruct (for_each items _ db) as [e | db1]; cbn [bind]; [done |].
  rewrite lower_idempotent.
  by rewrite (walk_children_lower_names children IH).
Qed.

Lemma xtd_walk_lower_names root db :
  xtd_walk (lower_names root) db = xtd_walk root db.
Proof.
  unfold xtd_walk. destruct root as [tag items text children].
  cbn [lower_names getchildren]. rewrite for_each_map.
  apply for_each_ext. intros item s _. apply xtd_database_lower_names.
Qed.

(** X11. A run does not depend on the case of the tags and of the names
    of the attributes: the document with these names in lower case gives
    the same output or the same exception. *)
Theorem X11_run_is_case_insensitive fuel tree tree2 param :
  xtd fuel (lower_names tree) (lower_names tree2) param =
  xtd fuel tree tree2 param.
Proof. unfold xtd. by rewrite !xtd_walk_lower_names. Qed.

Lemma dict_set_NoDup {V} (d : list (string * V)) k v :
  NoDup (dict_keys d) → NoDup (dict_keys (dict_set d k v)).
Proof.
  unfold dict_keys. induction d as [|[k' v'] d IH]; simpl.
  - intros _. apply NoDup_singleton.
  - intros [Hk' Hnd]%NoDup_cons. case_decide as Hk; simpl.
    + subst. by apply NoDup_cons.
    + apply NoDup_cons. split; [| by apply IH].
      intros Hin. apply Hk'.
      apply (dict_keys_set d k v k') in Hin as [?|?]; [congruence | done].
Qed.

Lemma elem_of_dict_set {V} (d : list (string * V)) k v k' v' :
  (k', v') ∈ dict_set d k v → (k' = k ∧ v' = v) ∨ (k', v') ∈ d.
Proof.
  induction d as [|[k0 v0] d IH]; simpl.
  - intros [= -> ->]%list_elem_of_singleton. by left.
  - case_decide as Hk.
    + intros [[= -> ->]|Hin]%elem_of_cons; [by left |].
      right. by right.
    + intros [[= -> ->]|Hin]%elem_of_cons; [right; by left |].
      destruct (IH Hin) as [?|?]; [by left | right; by right].
Qed.

Lemma unique_keys_set db name table :
  unique_keys db → NoDup (dict_keys (Table.columns table)) →
  unique_keys
    (Database.with_entries db (dict_set (Database.__entries db) name table)).
Proof.
  intros [Hnd Hcols] Ht. split.
  - unfold Database.entries. simpl. by apply dict_set_NoDup.
  - intros key t. unfold Database.entries. simpl.
    intros [[_ ->]|Hin]%elem_of_dict_set; [done | by eapply Hcols].
Qed.

Lemma entry_unique_columns db name :
  unique_keys db → NoDup (dict_keys (Table.columns (Database.entry db name))).
Proof.
  intros [_ Hcols]. unfold Database.entry.
  destruct (dict_get (Database.__entries db) name) as [t|] eqn:Hget; simpl.
  - eapply Hcols. by eapply dict_get_elem.
  - apply NoDup_nil_2.
Qed.

Lemma xtd_walk_unique_keys root etc duplicity no_columns db :
  xtd_walk root (Database.new etc duplicity no_columns) = inr db →
  unique_keys db.
Proof.
  apply (xtd_walk_invariant unique_keys).
  - intros d name attribute data d' Hd. unfold Database.update_attribute.
    destruct (negb _); [| by intros [= <-]].
    intros (t & Ht & [= <-])%bind_inr. apply unique_keys_set; [done |].
    pose proof (entry_unique_columns d name Hd) as Hnd.
    revert Ht. unfold Table.update_attribute.
    repeat case_decide; intros [= <-]; [done |].
    unfold Table.columns. simpl. by apply dict_set_NoDup.
  - intros d name data Hd. apply unique_keys_set; [done |].
    by apply entry_unique_columns.
  - intros d name relations Hd. apply unique_keys_set; [done |].
    rewrite Table_update_relations_columns. by apply entry_unique_columns.
  - split; [apply NoDup_nil_2 |]. by intros key t ?%elem_of_nil.
Qed.

Lemma is_subset_reflexive db : unique_keys db → is_subset db db = true.
Proof.
  intros [Hnd Hcols]. apply is_subset_spec. intros tname table Hin.
  exists table. split; [by apply dict_get_NoDup |].
  split; [| apply data_type_usable_refl].
  apply columns_usable_spec. intros column data_type Hc.
  exists data_type. split; [| apply data_type_usable_refl].
  apply dict_get_NoDup; [by eapply Hcols | done].
Qed.

(** X12. A document is valid against itself: the database of the walk
    of any document is a subset of itself, so a run whose two documents
    are the same does not stop at the validation. *)
Theorem X12_document_is_valid_against_itself root etc duplicity no_columns
    db :
  xtd_walk root (Database.new etc duplicity no_columns) = inr db →
  is_subset db db = true.
Proof.
  intros Hwalk. apply is_subset_reflexive. by eapply xtd_walk_unique_keys.
Qed.

Lemma X12_document_is_valid_against_itself_witness :
  ∃ db,
    xtd_walk detour_document (Database.new (-1) false false) = inr db ∧
    is_subset db db = true.
Proof.
  eexists. split; [reflexivity |].
  apply (X12_document_is_valid_against_itself detour_document
           (-1)%Z false false).
  reflexivity.
Defined.

(** ** [flush] *)

Lemma only_keys_added_refl db : only_keys_added db db.
Proof.
  split; [done |]. intros key t Ht. exists t. split; [done |].
  by repeat split.
Qed.

Lemma only_keys_added_trans db1 db2 db3 :
  only_keys_added db1 db2 → only_keys_added db2 db3 →
  only_keys_added db1 db3.
Proof.
  intros [Hk1 Ht1] [Hk2 Ht2]. split; [congruence |].
  intros key t1 H1.
  destruct (Ht1 key t1 H1) as (t2 & H2 & Hn & Hc & Hr & Hv & Hk).
  destruct (Ht2 key t2 H2) as (t3 & H3 & Hn' & Hc' & Hr' & Hv' & Hk').
  exists t3. split; [done |].
  repeat split; [congruence.. |]. by etrans.
Qed.

Lemma set_key_of_only_keys db key ref db' :
  Database.set_key_of db key ref = inr db' → only_keys_added db db'.
Proof.
  unfold Database.set_key_of.
  intros (table & Hat%dict_at_inr & (table' & Hset & [= <-])%bind_inr)%bind_inr.
  unfold Table.set_key in Hset. destruct (dict_mem _ _); [done |].
  injection Hset as <-. split.
  - unfold Database.entries. simpl. apply dict_keys_set_same.
    by eapply dict_get_keys.
  - intros k t. unfold Database.entries. simpl. rewrite dict_get_set.
    case_decide as Hk.
    + subst k. rewrite Hat. intros [= <-]. eexists. split; [done |].
      repeat split. intros fk. unfold Table.keys. simpl.
      rewrite dict_keys_set. tauto.
    + intros Ht. exists t. split; [done |]. by repeat split.
Qed.

Lemma add_relation_only_keys db holder referenced db' :
  Database.add_relation db holder referenced = inr db' →
  only_keys_added db db'.
Proof.
  unfold Database.add_relation.
  intros (s & _ & [= <-])%bind_inr. split; [done |].
  intros key t Ht. exists t. split; [done |]. by repeat split.
Qed.

Lemma flush_relation_only_keys key item db db' :
  Database.flush_relation key item db = inr db' → only_keys_added db db'.
Proof.
  destruct item as [name count]. unfold Database.flush_relation.
  intros (table & Htable & H)%bind_inr.
  destruct (Database.__duplicity db).
  - destruct (dict_mem (Table.columns table) name); [done |].
    apply bind_inr in H as (db1 & H1%set_key_of_only_keys
                            & H2%add_relation_only_keys).
    by eapply only_keys_added_trans.
  - destruct (_ && _).
    + apply bind_inr in H as (child & Hchild & H).
      destruct (dict_mem (Table.columns child) name); [done |].
      apply dict_at_inr in Hchild.
      unfold dict_mem in H. rewrite Hchild in H.
      rewrite bool_decide_eq_true_2 in H by done. simpl in H.
      apply bind_inr in H as (db1 & H1%set_key_of_only_keys
                              & H2%add_relation_only_keys).
      by eapply only_keys_added_trans.
    + apply bind_inr in H as (db1 & H1 & H2%add_relation_only_keys).
      eapply only_keys_added_trans; [| exact H2]. clear H2.
      case_bool_decide.
      * destruct (dict_mem (Table.columns table) name); [done |].
        by apply set_key_of_only_keys in H1.
      * revert H1.
        apply (for_each_invariant (only_keys_added db));
          [| apply only_keys_added_refl].
        intros num st st' _ Hst. destruct (dict_mem _ _); [done |].
        intros Hstep%set_key_of_only_keys.
        by eapply only_keys_added_trans.
Qed.

(** X13. [flush] changes nothing but the foreign keys of the tables and
    the relation graph: when it returns, the database has the same
    entities in the same order, and every table has its name, its
    columns, its relation counts and its value type as before, and the
    foreign keys it had. *)
Theorem X13_flush_only_adds_keys db db' :
  Database.flush db = inr db' →
  dict_keys (Database.entries db') = dict_keys (Database.entries db) ∧
  ∀ key t, dict_get (Database.entries db) key = Some t →
    ∃ t', dict_get (Database.entries db') key = Some t' ∧
          Table.name t' = Table.name t ∧
          Table.columns t' = Table.columns t ∧
          Table.relations t' = Table.relations t ∧
          Table.value t' = Table.value t ∧
          Table.keys t ⊆ Table.keys t'.
Proof.
  unfold Database.flush.
  set (db0 := Database.with_relations db _).
  change (Database.__entries db) with (Database.__entries db0).
  intros Hloop.
  cut (only_keys_added db0 db'); [done |].
  revert Hloop.
  apply (for_each_invariant (only_keys_added db0));
    [| apply only_keys_added_refl].
  intros key st st' _ Hst (table & _ & Hinner)%bind_inr.
  eapply only_keys_added_trans; [exact Hst |].
  revert Hinner.
  apply (for_each_invariant (only_keys_added st));
    [| apply only_keys_added_refl].
  intros item s s' _ Hs Hstep%flush_relation_only_keys.
  by eapply only_keys_added_trans.
Qed.

Lemma X13_flush_only_adds_keys_witness :
  ∃ db db',
    xtd_walk detour_document (Database.new (-1) false false) = inr db ∧
    Database.flush db = inr db' ∧
    dict_keys (Database.entries db') = dict_keys (Database.entries db).
Proof.
  do 2 eexists. split; [reflexivity |]. split; [reflexivity |].
  eapply proj1. apply X13_flush_only_adds_keys. reflexivity.
Defined.

(** What every step of a loop establishes for its element, and later
    steps keep, holds for all the elements when the loop returns. *)
Lemma for_each_effect {A} (Q : A → Database.t → Prop) (l : list A)
    (body : A → Database.t → result Database.t) :
  (∀ x st st', x ∈ l → body x st = inr st' → grows st st' ∧ Q x st') →
  (∀ x st st', Q x st → grows st st' → Q x st') →
  ∀ st st', for_each l body st = inr st' →
            grows st st' ∧ ∀ x, x ∈ l → Q x st'.
Proof.
  intros Hbody Hkeep. induction l as [|x l IH]; intros st st';
    cbn [for_each].
  - intros [= <-]. split; [reflexivity |]. by intros x ?%elem_of_nil.
  - intros (st1 & Hx & Hrest)%bind_inr.
    destruct (Hbody x st st1) as [Hg1 Hq1]; [by left | done |].
    destruct IH with (st := st1) (st' := st') as [Hg Hall]; [| done |].
    { intros y s s' Hy. apply Hbody. by right. }
    split; [by etrans |].
    intros y [->|Hy]%elem_of_cons; [by eapply Hkeep | by apply Hall].
Qed.

Section FlushEffect.
Variable db0 : Database.t.
(** [Q key tname columns name count db']: what [flush] has done for the
    relation [(name, count)] of the table with this name and these
    columns, stored under [key] *)
Variable Q :
  string → string → list (string * DataType) → string → Z → Database.t → Prop.
Hypothesis Q_grows : ∀ key tname columns name count db db',
  Q key tname columns name count db → grows db db' →
  Q key tname columns name count db'.
Hypothesis Q_step : ∀ key table name count db db',
  same_options db0 db →
  dict_get (Database.entries db) key = Some table →
  Database.flush_relation key (name, count) db = inr db' →
  Q key (Table.name table) (Table.columns table) name count db'.

Lemma same_options_grows db db' :
  same_options db0 db → grows db db' → same_options db0 db'.
Proof. intros [Hd He] (Hd' & He' & _). split; congruence. Qed.

Lemma flush_table_effect key table items db db' :
  same_options db0 db →
  dict_get (Database.entries db) key = Some table →
  for_each items (Database.flush_relation key) db = inr db' →
  grows db db' ∧
  ∀ name count, (name, count) ∈ items →
    Q key (Table.name table) (Table.columns table) name count db'.
Proof.
  revert db table. induction items as [|[name count] items IH];
    intros db table Hopt Htable; cbn [for_each].
  - intros [= <-]. split; [reflexivity |]. by intros ?? ?%elem_of_nil.
  - intros (db1 & H1 & Hrest)%bind_inr.
    pose proof (flush_relation_grows _ _ _ _ H1) as Hg1.
    pose proof (Q_step _ _ _ _ _ _ Hopt Htable H1) as Hq.
    pose proof (same_options_grows _ _ Hopt Hg1) as Hopt1.
    destruct Hg1 as (Hd & Hetc & Hts & Hrs).
    destruct (Hts key table Htable) as (t1 & Ht1 & Hn1 & Hc1 & _).
    destruct (IH db1 t1 Hopt1 Ht1 Hrest) as [Hg Hall].
    split.
    { etrans; [| exact Hg]. by repeat split. }
    intros n c [[= -> ->]|Hin]%elem_of_cons.
    + by eapply Q_grows.
    + rewrite <- Hn1, <- Hc1. exact (Hall n c Hin).
Qed.

Lemma flush_loop_effect keys db db' :
  same_options db0 db →
  for_each keys
    (fun key self =>
       do table <- dict_at (Database.__entries self) key;
       for_each (Table.relations table) (Database.flush_relation key) self)
    db = inr db' →
  grows db db' ∧
  ∀ key table name count,
    key ∈ keys → dict_get (Database.entries db) key = Some table →
    (name, count) ∈ Table.relations table →
    Q key (Table.name table) (Table.columns table) name count db'.
Proof.
  revert db. induction keys as [|key keys IH]; intros db Hopt;
    cbn [for_each].
  - intros [= <-]. split; [reflexivity |]. by intros ???? ?%elem_of_nil.
  - intros (db1 & (t & Ht%dict_at_inr & H1)%bind_inr & Hrest)%bind_inr.
    destruct (flush_table_effect _ _ _ _ _ Hopt Ht H1) as [Hg1 Hall1].
    pose proof (same_options_grows _ _ Hopt Hg1) as Hopt1.
    destruct (IH db1 Hopt1 Hrest) as [Hg Hall].
    split; [by etrans |].
    intros k table name count [->|Hin]%elem_of_cons Htable Hrel.
    + unfold Database.entries in Htable. rewrite Ht in Htable.
      injection Htable as <-.
      eapply Q_grows; [| exact Hg]. by apply Hall1.
    + destruct Hg1 as (_ & _ & Hts & _).
      destruct (Hts k table Htable) as (t1 & Ht1 & Hn1 & Hc1 & Hr1 & _).
      rewrite <- Hn1, <- Hc1. apply (Hall k t1 name count Hin Ht1).
      by rewrite Hr1.
Qed.

Lemma flush_effect db' key table name count :
  Database.flush db0 = inr db' →
  dict_get (Database.entries db0) key = Some table →
  (name, count) ∈ Table.relations table →
  Q key (Table.name table) (Table.columns table) name count db'.
Proof.
  intros Hflush Htable Hrel. unfold Database.flush in Hflush.
  apply flush_loop_effect in Hflush as [_ Hall]; [| done].
  apply (Hall key table name count); [| done | done].
  by eapply dict_get_keys.
Qed.
End FlushEffect.

Lemma elem_of_fk_refs duplicity name count ref :
  ref ∈ fk_refs duplicity name count ↔
  (duplicity = true ∨ count = 1%Z) ∧ ref = name ∨
  (duplicity = false ∧ count ≠ 1%Z) ∧
  ∃ num, (0 ≤ num < count)%Z ∧ ref = name +:+ pretty (num + 1)%Z.
Proof.
  unfold fk_refs. destruct duplicity; simpl.
  - rewrite list_elem_of_singleton. split; [intros ->; left; auto |].
    intros [[_ ->]|[[? _] _]]; done.
  - case_bool_decide as Hc.
    + rewrite list_elem_of_singleton. split; [intros ->; left; auto |].
      intros [[_ ->]|[[_ ?] _]]; done.
    + rewrite list_elem_of_fmap. setoid_rewrite elem_of_seqZ. split.
      * intros (num & -> & Hn). right. split; [done |].
        exists num. split; [lia | done].
      * intros [[[?|?] _]|[_ (num & Hn & ->)]]; [done.. |].
        exists num. split; [done | lia].
Qed.

Lemma flush_relation_policy db0 key table name count db db' :
  same_options db0 db →
  dict_get (Database.entries db) key = Some table →
  Database.flush_relation key (name, count) db = inr db' →
  relation_flushed db0 key (Table.name table) name count db'.
Proof.
  intros [Hd He] Htable. unfold Database.flush_relation.
  intros (table' & Htable'%dict_at_inr & H)%bind_inr.
  unfold Database.entries in Htable. rewrite Htable in Htable'.
  injection Htable' as <-.
  unfold relation_flushed, inverted. rewrite <- Hd, <- He.
  destruct (Database.__duplicity db) eqn:Hdup.
  - split; [by intros [? _] |]. intros _.
    destruct (dict_mem (Table.columns table) name); [done |].
    apply bind_inr in H as (db1 & [H1 Hk]%set_key_of_grows
                            & [H2 He2]%add_relation_grows).
    split; [| done]. intros ref ->%list_elem_of_singleton.
    by eapply has_key_grows.
  - destruct (negb (bool_decide (Database.__etc db = (-1)%Z))
              && (Database.__etc db <? count)%Z) eqn:Hinv.
    + apply andb_true_iff in Hinv as [Hne%negb_true_iff Hlt%Z.ltb_lt].
      apply bool_decide_eq_false in Hne.
      split; [intros _ | by intros []].
      apply bind_inr in H as (child & Hchild%dict_at_inr & H).
      destruct (dict_mem (Table.columns child) name); [done |].
      unfold dict_mem in H. rewrite Hchild in H.
      rewrite bool_decide_eq_true_2 in H by done. simpl in H.
      apply bind_inr in H as (db1 & [H1 Hk]%set_key_of_grows
                              & [H2 He2]%add_relation_grows).
      split; [by eapply has_key_grows | done].
    + split.
      { intros (_ & Hne & Hlt). apply andb_false_iff in Hinv as [Hinv|Hinv].
        - apply negb_false_iff, bool_decide_eq_true in Hinv. done.
        - apply Z.ltb_ge in Hinv. lia. }
      intros _.
      apply bind_inr in H as (db1 & H1 & [H2 He2]%add_relation_grows).
      split; [| done]. intros ref Href.
      eapply has_key_grows; [| exact H2]. clear H2 He2.
      unfold fk_refs in Href. simpl in Href.
      case_bool_decide as Hc.
      * apply list_elem_of_singleton in Href as ->.
        destruct (dict_mem (Table.columns table) name); [done |].
        by apply set_key_of_grows in H1 as [_ ?].
      * apply list_elem_of_fmap in Href as (num & -> & Hnum).
        apply (for_each_effect
                 (fun num st =>
                    has_key st key ((name +:+ pretty (num + 1)%Z) +:+ "_id")))
          in H1 as [_ Hall]; [by apply Hall | |].
        -- intros n st st' _. destruct (dict_mem _ _); [done |].
           apply set_key_of_grows.
        -- intros n st st'. apply has_key_grows.
Qed.

Lemma relation_flushed_grows db0 key tname name count db db' :
  relation_flushed db0 key tname name count db → grows db db' →
  relation_flushed db0 key tname name count db'.
Proof.
  intros [Hinv Hhold] Hg. split.
  - intros H. destruct (Hinv H) as [Hk He].
    split; [by eapply has_key_grows | by eapply has_edge_grows].
  - intros H. destruct (Hhold H) as [Hk He]. split.
    + intros ref Href. eapply has_key_grows; [by apply Hk | done].
    + by eapply has_edge_grows.
Qed.

Lemma flush_policy db db' key table name count :
  Database.flush db = inr db' →
  dict_get (Database.entries db) key = Some table →
  (name, count) ∈ Table.relations table →
  relation_flushed db key (Table.name table) name count db'.
Proof.
  apply (flush_effect db
           (fun key tname _ name count db' =>
              relation_flushed db key tname name count db')).
  - intros k tn _ n c d d'. apply relation_flushed_grows.
  - intros k t n c d d'. apply flush_relation_policy.
Qed.

(** X14. When [flush] returns and a relation is not inverted (option
    [-b], or no option [--etc], or a count not above its value), the
    table that holds the relation has the foreign keys of it: [<child>_id]
    with [-b] or for the count 1, and otherwise [<child>1_id] to
    [<child>N_id] for the count N; and the relation graph has the edge
    from the table to the child. *)
Theorem X14_keys_on_the_holder db db' key table name count :
  Database.flush db = inr db' →
  dict_get (Database.entries db) key = Some table →
  (name, count) ∈ Table.relations table →
  ¬ inverted db count →
  (Database.__duplicity db = true ∨ count = 1%Z →
     has_key db' key (name +:+ "_id")) ∧
  (Database.__duplicity db = false → count ≠ 1%Z →
     ∀ num, (1 ≤ num ≤ count)%Z →
            has_key db' key ((name +:+ pretty num) +:+ "_id")) ∧
  has_edge db' (Table.name table) name.
Proof.
  intros Hflush Htable Hrel Hinv.
  destruct (flush_policy db db' key table name count Hflush Htable Hrel)
    as [_ Hhold].
  destruct (Hhold Hinv) as [Hkeys Hedge].
  split; [| split; [| done]].
  - intros Hone. apply Hkeys, elem_of_fk_refs. left.
    split; [| done]. destruct Hone; [by left | by right].
  - intros Hdup Hc num Hnum. apply Hkeys, elem_of_fk_refs. right.
    split; [done |]. exists (num - 1)%Z. split; [lia |].
    by replace (num - 1 + 1)%Z with num by lia.
Qed.

(** X15. When [flush] returns and a relation is inverted (option
    [--etc], no option [-b], and a count above the value of [--etc]),
    the child table has the foreign key [<parent>_id], and the relation
    graph has the edge from the child to the parent. *)
Theorem X15_inverted_relation db db' key table name count :
  Database.flush db = inr db' →
  dict_get (Database.entries db) key = Some table →
  (name, count) ∈ Table.relations table →
  inverted db count →
  has_key db' name (Table.name table +:+ "_id") ∧
  has_edge db' name (Table.name table).
Proof.
  intros Hflush Htable Hrel Hinv.
  destruct (flush_policy db db' key table name count Hflush Htable Hrel)
    as [Hinverted _].
  by apply Hinverted.
Qed.

Lemma X14_keys_on_the_holder_witness :
  ∃ db db',
    xtd_walk repeated_document (Database.new (-1) false false) = inr db ∧
    Database.flush db = inr db' ∧
    has_key db' "a" (("b" +:+ pretty 2%Z) +:+ "_id") ∧
    has_edge db' "a" "b".
Proof.
  do 2 eexists. split; [reflexivity |].
  lazymatch goal with
  | |- Database.flush ?d = _ ∧ _ =>
      pose proof (X14_keys_on_the_holder d) as H
  end.
  split; [reflexivity |].
  lazymatch goal with
  | |- has_key ?d' _ _ ∧ _ => specialize (H d' "a")
  end.
  edestruct H with (name := "b") (count := 2%Z) as (_ & Hkeys & Hedge).
  - reflexivity.
  - reflexivity.
  - by left.
  - by intros (_ & Hetc & _).
  - split; [| exact Hedge]. apply Hkeys; [done | done | lia].
Defined.

Lemma X15_inverted_relation_witness :
  ∃ db db',
    xtd_walk repeated_document (Database.new 1 false false) = inr db ∧
    Database.flush db = inr db' ∧
    has_key db' "b" "a_id" ∧ has_edge db' "b" "a".
Proof.
  do 2 eexists. split; [reflexivity |].
  lazymatch goal with
  | |- Database.flush ?d = _ ∧ _ =>
      pose proof (X15_inverted_relation d) as H
  end.
  split; [reflexivity |].
  lazymatch goal with
  | |- has_key ?d' _ _ ∧ _ => specialize (H d' "a")
  end.
  edestruct H with (name := "b") (count := 2%Z) as [Hkey Hedge].
  - reflexivity.
  - reflexivity.
  - by left.
  - split; [done |]. simpl. split; [done | lia].
  - split; [exact Hkey | exact Hedge].
Defined.

(** A run [do x <- m; k] that raises: [m] raised, or [k] did. *)
Lemma bind_inl {A B} (m : result A) (k : A → result B) e :
  bind m k = inl e ↔ m = inl e ∨ ∃ x, m = inr x ∧ k x = inl e.
Proof.
  destruct m as [e' | x]; simpl; split.
  - intros [= <-]. by left.
  - by intros [[= <-] | (x & ? & _)].
  - intros Hk. right. eauto.
  - by intros [? | (x' & [= <-] & ?)].
Qed.

Lemma set_key_of_spec st key table ref :
  dict_get (Database.entries st) key = Some table →
  Database.set_key_of st key ref =
  if dict_mem (Table.columns table) (ref +:+ "_id") then inl XTDNameError
  else inr (Database.with_entries st
              (dict_set (Database.__entries st) key
                 (Table.with_keys table
                    (dict_set (Table.__keys table) (ref +:+ "_id") INT)))).
Proof.
  intros Htable%dict_at_inr. unfold Database.set_key_of.
  unfold Database.entries in Htable. rewrite Htable. cbn [bind].
  unfold Table.set_key, Table.columns.
  by destruct (dict_mem (Table.__columns table) (ref +:+ "_id")).
Qed.

(** The loop of [flush] over the numbers of a relation. *)
Lemma numbered_keys_spec columns key name (nums : list Z) :
  ∀ st table,
    dict_get (Database.entries st) key = Some table →
    Table.columns table = columns →
    match
      for_each nums
        (fun num self =>
           if dict_mem columns (name +:+ pretty (num + 1)%Z)
           then raise XTDNameError
           else Database.set_key_of self key (name +:+ pretty (num + 1)%Z))
        st
    with
    | inl e =>
        e = XTDNameError ∧
        ∃ num, num ∈ nums ∧
               key_collision columns (name +:+ pretty (num + 1)%Z)
    | inr st' =>
        Database.__relations st' = Database.__relations st ∧
        (∃ table', dict_get (Database.entries st') key = Some table' ∧
                   Table.columns table' = columns) ∧
        ∀ num, num ∈ nums →
          dict_mem columns (name +:+ pretty (num + 1)%Z) = false ∧
          dict_mem columns ((name +:+ pretty (num + 1)%Z) +:+ "_id") = false
    end.
Proof.
  induction nums as [|num nums IH]; intros st table Htable Hcols;
    cbn [for_each].
  - split; [done |]. split; [eauto |]. by intros num ?%elem_of_nil.
  - destruct (dict_mem columns (name +:+ pretty (num + 1)%Z)) eqn:Hm;
      cbn [bind raise].
    { split; [done |]. exists num. split; [by left | by left]. }
    rewrite (set_key_of_spec st key table _ Htable), Hcols.
    destruct (dict_mem columns ((name +:+ pretty (num + 1)%Z) +:+ "_id"))
      eqn:Hk; cbn [bind].
    { split; [done |]. exists num. split; [by left | by right]. }
    set (table1 := Table.with_keys table _).
    set (st1 := Database.with_entries st _).
    assert (Htable1 : dict_get (Database.entries st1) key = Some table1).
    { unfold st1, Database.entries. simpl. apply dict_get_set_eq. }
    specialize (IH st1 table1 Htable1 Hcols).
    destruct (for_each nums _ st1) as [e | st'].
    + destruct IH as (-> & n & Hn & Hc). split; [done |].
      exists n. split; [by right | done].
    + destruct IH as (Hrel & Ht' & Hall). split; [done |].
      split; [done |].
      intros n [-> | Hn]%elem_of_cons; [done | by apply Hall].
Qed.

Lemma add_relation_returns st holder referenced :
  is_Some (dict_get (Database.__relations st) holder) →
  ∃ st', Database.add_relation st holder referenced = inr st'.
Proof.
  intros [s Hs]. unfold Database.add_relation, dict_at. rewrite Hs.
  cbn [bind]. eauto.
Qed.

(** One step of [flush] raises nothing but XTDNameError, and this for a
    collision of the relation, when the tables it looks up are there. *)
Lemma flush_relation_raises st key table name count e :
  dict_get (Database.entries st) key = Some table →
  is_Some (dict_get (Database.__relations st) (Table.name table)) →
  (inverted st count →
   ∃ child, dict_get (Database.entries st) name = Some child ∧
            is_Some (dict_get (Database.__relations st) name)) →
  Database.flush_relation key (name, count) st = inl e →
  e = XTDNameError ∧
  relation_collision st (Table.name table) (Table.columns table) name count.
Proof.
  intros Htable Hrel Hchild. unfold Database.flush_relation.
  assert (Hat : dict_at (Database.__entries st) key = inr table)
    by by apply dict_at_inr.
  rewrite Hat. cbn [bind].
  destruct (Database.__duplicity st) eqn:Hdup.
  - assert (Hni : ¬ inverted st count) by (intros [? _]; congruence).
    destruct (dict_mem (Table.columns table) name) eqn:Hm.
    { intros [= <-]. split; [done |]. right. split; [done |].
      exists name. rewrite Hdup. split; [by left | by left]. }
    rewrite (set_key_of_spec st key table name Htable).
    destruct (dict_mem (Table.columns table) (name +:+ "_id")) eqn:Hk;
      cbn [bind].
    { intros [= <-]. split; [done |]. right. split; [done |].
      exists name. rewrite Hdup. split; [by left | by right]. }
    match goal with
    | |- Database.add_relation ?s ?h ?r = _ → _ =>
        destruct (add_relation_returns s h r) as [st' ->]; [done | done]
    end.
  - destruct (negb (bool_decide (Database.__etc st = (-1)%Z))
              && (Database.__etc st <? count)%Z) eqn:Hinv.
    + assert (Hi : inverted st count).
      { apply andb_true_iff in Hinv as [Hne%negb_true_iff Hlt%Z.ltb_lt].
        apply bool_decide_eq_false in Hne. done. }
      destruct (Hchild Hi) as (child & Hc & Hrc).
      assert (Hatc : dict_at (Database.__entries st) name = inr child)
        by by apply dict_at_inr.
      rewrite Hatc. cbn [bind].
      destruct (dict_mem (Table.columns child) name) eqn:Hm.
      { intros [= <-]. split; [done |]. left. split; [done |].
        exists child. split; [done | by left]. }
      assert (Hmem : dict_mem (Database.__entries st) name = true).
      { unfold dict_mem. unfold Database.entries in Hc. rewrite Hc.
        by apply bool_decide_eq_true_2. }
      rewrite Hmem. cbn [negb].
      rewrite (set_key_of_spec st name child _ Hc).
      destruct (dict_mem (Table.columns child) (Table.name table +:+ "_id"))
        eqn:Hk; cbn [bind].
      { intros [= <-]. split; [done |]. left. split; [done |].
        exists child. split; [done | by right]. }
      match goal with
      | |- Database.add_relation ?s ?h ?r = _ → _ =>
          destruct (add_relation_returns s h r) as [st' ->]; [done | done]
      end.
    + assert (Hni : ¬ inverted st count).
      { intros (_ & Hne & Hlt). apply andb_false_iff in Hinv as [Hinv|Hinv].
        - apply negb_false_iff, bool_decide_eq_true in Hinv. done.
        - apply Z.ltb_ge in Hinv. lia. }
      destruct (bool_decide (count = 1%Z)) eqn:Hc;
        [apply bool_decide_eq_true in Hc
        | apply bool_decide_eq_false in Hc].
      * destruct (dict_mem (Table.columns table) name) eqn:Hm;
          cbn [bind raise].
        { intros [= <-]. split; [done |]. right. split; [done |].
          exists name. rewrite Hdup. unfold fk_refs.
          rewrite bool_decide_eq_true_2 by done.
          split; [by left | by left]. }
        rewrite (set_key_of_spec st key table name Htable).
        destruct (dict_mem (Table.columns table) (name +:+ "_id")) eqn:Hk;
          cbn [bind].
        { intros [= <-]. split; [done |]. right. split; [done |].
          exists name. rewrite Hdup. unfold fk_refs.
          rewrite bool_decide_eq_true_2 by done.
          split; [by left | by right]. }
        match goal with
        | |- Database.add_relation ?s ?h ?r = _ → _ =>
            destruct (add_relation_returns s h r) as [st' ->]; [done | done]
        end.
      * pose proof (numbered_keys_spec (Table.columns table) key name
                      (seqZ 0 count) st table Htable eq_refl) as Hloop.
        destruct (for_each (seqZ 0 count) _ st) as [e' | st1]; cbn [bind].
        { destruct Hloop as (-> & num & Hnum & Hcol). intros [= <-].
          split; [done |]. right. split; [done |].
          exists (name +:+ pretty (num + 1)%Z). split; [| done].
          rewrite Hdup. unfold fk_refs.
          rewrite bool_decide_eq_false_2 by done. simpl.
          apply list_elem_of_fmap. by exists num. }
        destruct Hloop as (Hrels & _ & _).
        destruct (add_relation_returns st1 (Table.name table) name)
          as [st' ->]; [by rewrite Hrels | done].
Qed.

(** One step of [flush] on a database that has grown from [db0]: it
    raises XTDNameError for a collision of [db0], or the database keeps
    growing. *)
Lemma flush_relation_step db0 st key t0 name count :
  named db0 → closed_relations db0 → graph_started db0 → grows db0 st →
  dict_get (Database.entries db0) key = Some t0 →
  (name, count) ∈ Table.relations t0 →
  match Database.flush_relation key (name, count) st with
  | inl e => e = XTDNameError ∧ flush_collision db0
  | inr st' => grows db0 st'
  end.
Proof.
  intros Hnamed Hclosed Hstart Hg Ht0 Hrel.
  destruct (Database.flush_relation key (name, count) st) as [e | st']
    eqn:Hstep; [| etrans; [exact Hg |]; by eapply flush_relation_grows].
  pose proof Hg as (Hd & He & Hts & Hrs).
  destruct (Hts key t0 Ht0) as (t & Ht & Hn & Hc & Hr & _).
  assert (∃ c0 c, dict_get (Database.entries db0) name = Some c0 ∧
                  dict_get (Database.entries st) name = Some c ∧
                  Table.name c0 = name ∧
                  Table.columns c = Table.columns c0) as Hchild.
  { destruct (dict_keys_get (Database.entries db0) name) as [c0 Hc0].
    { by eapply Hclosed. }
    destruct (Hts name c0 Hc0) as (c & Hc' & _ & Hcc & _).
    exists c0, c. split; [done |]. split; [done |].
    split; [by apply Hnamed | done]. }
  destruct Hchild as (c0 & c & Hc0 & Hc' & Hcn & Hcc).
  apply (flush_relation_raises st key t name count e Ht) in Hstep
    as [-> Hcol].
  - split; [done |]. exists key, t0, name, count.
    split; [done |]. split; [done |]. rewrite <- Hn, <- Hc.
    destruct Hcol as [[Hinv (child & Hchild & Hmem)]
                     | [Hni (ref & Href & Hkc)]].
    + left. split.
      { unfold inverted in *. by rewrite <- Hd, <- He. }
      rewrite Hc' in Hchild. injection Hchild as <-.
      exists c0. split; [done |]. by rewrite <- Hcc.
    + right. split.
      { intros Hi. apply Hni. unfold inverted in *. by rewrite Hd, He. }
      exists ref. by rewrite <- Hd.
  - rewrite Hn. destruct (Hstart key t0 Ht0) as [s1 Hs1].
    destruct (Hrs _ _ Hs1) as (s2 & Hs2 & _). by rewrite Hs2.
  - intros _. exists c. split; [done |].
    destruct (Hstart name c0 Hc0) as [s1 Hs1]. rewrite Hcn in Hs1.
    destruct (Hrs _ _ Hs1) as (s2 & Hs2 & _). by rewrite Hs2.
Qed.

(** [flush] raises nothing but XTDNameError, and this for a collision. *)
Lemma flush_raises db e :
  named db → closed_relations db →
  Database.flush db = inl e →
  e = XTDNameError ∧ flush_collision db.
Proof.
  intros Hnamed Hclosed. unfold Database.flush.
  set (db0 := Database.with_relations db _).
  change (Database.__entries db) with (Database.__entries db0).
  assert (graph_started db0) as Hstart.
  { intros key t Ht. simpl. apply init_relations_some. right.
    apply list_elem_of_fmap. exists t. split; [done |].
    by eapply dict_get_values. }
  pose proof (for_each_outcome (grows db0)
                (fun e => e = XTDNameError ∧ flush_collision db0)
                (dict_keys (Database.__entries db0))
                (fun key self =>
                   do table <- dict_at (Database.__entries self) key;
                   for_each (Table.relations table)
                     (Database.flush_relation key) self)) as Hout.
  intros Hflush. specialize (Hout) with (st := db0).
  rewrite Hflush in Hout. apply Hout; [| reflexivity].
  intros key st Hkey Hg.
  destruct (dict_keys_get _ _ Hkey) as [t0 Ht0].
  pose proof Hg as (_ & _ & Hts & _).
  destruct (Hts key t0 Ht0) as (t & Ht & _ & _ & Hr & _).
  assert (Hat : dict_at (Database.__entries st) key = inr t)
    by by apply dict_at_inr.
  rewrite Hat. cbn [bind].
  apply (for_each_outcome (grows db0)); [| exact Hg].
  intros [name count] s Hin Hs.
  apply (flush_relation_step db0 s key t0 name count); try done.
  by rewrite <- Hr.
Qed.

Lemma relation_clear_grows db0 tname columns name count db db' :
  relation_clear db0 tname columns name count db → grows db db' →
  relation_clear db0 tname columns name count db'.
Proof.
  intros [Hinv Hhold] (_ & _ & Hts & _). split; [| done].
  intros Hi. destruct (Hinv Hi) as (child & Hchild & Hm1 & Hm2).
  destruct (Hts name child Hchild) as (c & Hc & _ & Hcc & _).
  exists c. rewrite Hcc. done.
Qed.

(** A step of [flush] that returns has found no column in its way. *)
Lemma flush_relation_clear db0 key table name count db db' :
  same_options db0 db →
  dict_get (Database.entries db) key = Some table →
  Database.flush_relation key (name, count) db = inr db' →
  relation_clear db0 (Table.name table) (Table.columns table) name count db'.
Proof.
  intros [Hd He] Htable Hstep.
  pose proof (flush_relation_grows _ _ _ _ Hstep) as (_ & _ & Hts & _).
  revert Hstep. unfold Database.flush_relation.
  assert (Hat : dict_at (Database.__entries db) key = inr table)
    by by apply dict_at_inr.
  rewrite Hat. cbn [bind].
  unfold relation_clear, inverted. rewrite <- Hd, <- He.
  destruct (Database.__duplicity db) eqn:Hdup.
  - intros Hstep. split; [by intros [? _] |].
    intros _ ref ->%list_elem_of_singleton. revert Hstep.
    destruct (dict_mem (Table.columns table) name) eqn:Hm; [done |].
    rewrite (set_key_of_spec db key table name Htable).
    by destruct (dict_mem (Table.columns table) (name +:+ "_id")).
  - destruct (negb (bool_decide (Database.__etc db = (-1)%Z))
              && (Database.__etc db <? count)%Z) eqn:Hinv.
    + assert (Hi : Database.__etc db ≠ (-1)%Z ∧
                   (Database.__etc db < count)%Z).
      { apply andb_true_iff in Hinv as [Hne%negb_true_iff Hlt%Z.ltb_lt].
        apply bool_decide_eq_false in Hne. done. }
      intros Hstep. split; [intros _ | by intros []].
      revert Hstep.
      destruct (dict_at (Database.__entries db) name) as [e | child]
        eqn:Hc; cbn [bind]; [done |].
      apply dict_at_inr in Hc.
      destruct (dict_mem (Table.columns child) name) eqn:Hm; [done |].
      assert (Hmem : dict_mem (Database.__entries db) name = true).
      { unfold dict_mem. rewrite Hc. by apply bool_decide_eq_true_2. }
      rewrite Hmem. cbn [negb].
      rewrite (set_key_of_spec db name child _ Hc).
      destruct (dict_mem (Table.columns child) (Table.name table +:+ "_id"))
        eqn:Hk; cbn [bind]; [done |].
      intros _. destruct (Hts name child Hc) as (c & Hc' & _ & Hcc & _).
      exists c. rewrite Hcc. done.
    + intros Hstep. split.
      { intros (_ & Hne & Hlt). apply andb_false_iff in Hinv as [Hinv|Hinv].
        - apply negb_false_iff, bool_decide_eq_true in Hinv. done.
        - apply Z.ltb_ge in Hinv. lia. }
      intros _ ref Href. revert Hstep. unfold fk_refs in Href.
      simpl in Href.
      destruct (bool_decide (count = 1%Z)) eqn:Hc.
      * apply list_elem_of_singleton in Href as ->.
        destruct (dict_mem (Table.columns table) name) eqn:Hm;
          cbn [bind raise]; [done |].
        rewrite (set_key_of_spec db key table name Htable).
        by destruct (dict_mem (Table.columns table) (name +:+ "_id")).
      * apply list_elem_of_fmap in Href as (num & -> & Hnum).
        pose proof (numbered_keys_spec (Table.columns table) key name
                      (seqZ 0 count) db table Htable eq_refl) as Hloop.
        destruct (for_each (seqZ 0 count) _ db) as [e' | st1]; cbn [bind];
          [done |].
        destruct Hloop as (_ & _ & Hall). intros _. by apply Hall.
Qed.

Lemma flush_keeps_columns db db' key table :
  Database.flush db = inr db' →
  dict_get (Database.entries db) key = Some table →
  ∃ table', dict_get (Database.entries db') key = Some table' ∧
            Table.columns table' = Table.columns table.
Proof.
  unfold Database.flush. set (db0 := Database.with_relations db _).
  intros Hflush Htable.
  assert (grows db0 db') as (_ & _ & Hts & _).
  { revert Hflush. apply for_each_grows.
    intros k st st' _ (t & _ & Hinner)%bind_inr. revert Hinner.
    apply for_each_grows. intros item s s' _. apply flush_relation_grows. }
  destruct (Hts key table Htable) as (t' & Ht' & _ & Hc & _). eauto.
Qed.

(** X16. [flush], on the database of a walked document: it raises nothing
    but XTDNameError, and it raises exactly when a relation collides with
    a column: the table that gets the foreign keys of the relation has a
    column with the name handed to [set_key] or with the name of the key
    made from it. *)
Theorem X16_flush_raises_iff_collision root etc duplicity no_columns db :
  xtd_walk root (Database.new etc duplicity no_columns) = inr db →
  match Database.flush db with
  | inl e => e = XTDNameError ∧ flush_collision db
  | inr _ => ¬ flush_collision db
  end.
Proof.
  intros Hwalk.
  pose proof (xtd_walk_named _ _ _ _ _ Hwalk) as Hnamed.
  pose proof (xtd_walk_closed _ _ _ _ _ Hwalk) as Hclosed.
  destruct (Database.flush db) as [e | db'] eqn:Hflush.
  { by apply flush_raises. }
  intros (key & table & name & count & Ht & Hrel & Hcol).
  assert (relation_clear db (Table.name table) (Table.columns table)
            name count db') as [Hci Hcn].
  { revert Hflush Ht Hrel.
    apply (flush_effect db
             (fun key tname columns name count db' =>
                relation_clear db tname columns name count db')).
    - intros k tn cs n c d d'. apply relation_clear_grows.
    - intros k t n c d d'. apply flush_relation_clear. }
  destruct Hcol as [[Hinv (child & Hchild & Hmem)]
                   | [Hni (ref & Href & Hkc)]].
  - destruct (Hci Hinv) as (c' & Hc' & Hm1 & Hm2).
    destruct (flush_keeps_columns db db' name child Hflush Hchild)
      as (c'' & Hc'' & Hcols).
    rewrite Hc' in Hc''. injection Hc'' as <-.
    rewrite Hcols in Hm1, Hm2. destruct Hmem; congruence.
  - destruct (Hcn Hni ref Href) as [Hm1 Hm2].
    destruct Hkc; congruence.
Qed.

Lemma X16_flush_raises_iff_collision_witness :
  ∃ db,
    xtd_walk clash_document (Database.new (-1) false false) = inr db ∧
    Database.flush db = inl XTDNameError ∧
    flush_collision db.
Proof.
  eexists. split; [reflexivity |].
  lazymatch goal with
  | |- Database.flush ?d = _ ∧ _ =>
      pose proof (X16_flush_raises_iff_collision clash_document (-1)%Z
                    false false d eq_refl) as H
  end.
  split; [reflexivity |]. exact (proj2 H).
Defined.

(** ** The whole run *)

Lemma xtd_walk_raises root db e :
  xtd_walk root db = inl e → e = XTDNameError.
Proof.
  unfold xtd_walk. intros Hwalk.
  pose proof (for_each_outcome (fun _ => True) (fun e => e = XTDNameError)
                (getchildren root) xtd_database) as H.
  specialize (H ltac:(intros item st _ _;
                      destruct (xtd_database item st) eqn:Hx;
                      [by eapply xtd_database_raises | done]) db I).
  by rewrite Hwalk in H.
Qed.

(** The validation raises XTDNameError, from the walk of the second
    document, or XTDNotValid. *)
Lemma validation_raises tree2 (valid : bool) db new_db e :
  (if valid then
     do db2 <- xtd_walk tree2 new_db;
     if negb (is_subset db db2) then raise XTDNotValid else ret tt
   else ret tt) = inl e →
  e = XTDNameError ∨ (valid = true ∧ e = XTDNotValid).
Proof.
  destruct valid; [| done].
  intros [Hwalk | (db2 & _ & Hsub)]%bind_inl.
  - left. by eapply xtd_walk_raises.
  - right. destruct (negb (is_subset db db2)); [| done].
    by injection Hsub as <-.
Qed.

(** X17. A run that writes the DDL, without the option [-g], raises
    nothing but XTDNameError and, under validation, XTDNotValid: no
    lookup fails in the walk, the validation or [flush]. *)
Theorem X17_ddl_run_exceptions fuel tree tree2 param e :
  g param = false →
  xtd fuel tree tree2 param = inl e →
  e = XTDNameError ∨ (isvalid param = true ∧ e = XTDNotValid).
Proof.
  intros Hg. unfold xtd. rewrite Hg.
  intros [Hwalk | (db & Hwalk & Hrest)]%bind_inl.
  { left. by eapply xtd_walk_raises. }
  apply bind_inl in Hrest as [Hvalid | ([] & _ & Hprint)].
  { by eapply validation_raises. }
  apply bind_inl in Hprint as [Hddl | (r & _ & Hret)]; [| done].
  unfold Database.print_ddl in Hddl.
  apply bind_inl in Hddl as [Hflush | (db' & _ & Hret)]; [| done].
  left. eapply flush_raises; [| | exact Hflush].
  - by eapply xtd_walk_named.
  - by eapply xtd_walk_closed.
Qed.

Lemma X17_ddl_run_exceptions_witness :
  let param :=
    {| etc := None; b := false; a := false; isvalid := false;
       header := None; g := false |} in
  ∃ e, xtd 0 clash_document clash_document param = inl e ∧
       (e = XTDNameError ∨ (isvalid param = true ∧ e = XTDNotValid)).
Proof.
  intros param. eexists. split; [reflexivity |].
  apply (X17_ddl_run_exceptions 0 clash_document clash_document param);
    reflexivity.
Defined.

(** X18. A run with the option [-g], given the recursion depth of the
    number of entities plus one, raises nothing but XTDNameError and,
    under validation, XTDNotValid: the relation report always returns,
    without a failed lookup, for every document. *)
Theorem X18_report_run_exceptions tree tree2 param db :
  g param = true →
  xtd_walk tree
    (Database.new (default (-1)%Z (etc param)) (b param) (a param))
    = inr db →
  match
    xtd (S (length (dict_keys (Database.entries db)))) tree tree2 param
  with
  | inl e => e = XTDNameError ∨ (isvalid param = true ∧ e = XTDNotValid)
  | inr _ => True
  end.
Proof.
  intros Hg Hwalk. unfold xtd. rewrite Hwalk, Hg. cbn [bind].
  match goal with
  | |- match bind ?m _ with _ => _ end => destruct m as [e | []] eqn:Hvalid
  end; cbn [bind].
  { by eapply validation_raises. }
  destruct (Database.flush db) as [e | db'] eqn:Hflush.
  - unfold print_xmlrel. rewrite Hflush. cbn [bind]. left.
    eapply flush_raises; [| | exact Hflush].
    + by eapply xtd_walk_named.
    + by eapply xtd_walk_closed.
  - destruct (walked_graph_ok _ _ _ _ _ _ Hwalk Hflush) as [Hok Hkeys].
    destruct (print_xmlrel_returns db db' Hflush Hok) as [out Hout].
    rewrite <- Hkeys. unfold Database.entries. rewrite Hout. done.
Qed.

Lemma X18_report_run_exceptions_witness :
  let param :=
    {| etc := None; b := false; a := false; isvalid := false;
       header := None; g := true |} in
  ∃ out, xtd 4 detour_document detour_document param = inr out.
Proof.
  intros param.
  pose proof (X18_report_run_exceptions detour_document detour_document
                param _ eq_refl eq_refl) as H.
  destruct (xtd _ detour_document detour_document param) as [e | out]
    eqn:Hrun in H.
  - exfalso. destruct H as [-> | [Hvalid _]]; discriminate.
  - exists out. exact Hrun.
Defined.

(** ** More on the relation report *)

(** X19. In the report of an origin, the lines name distinct tables, all
    of them entities of the database, and a line has the type 1:1
    exactly when it names the origin. *)
Theorem X19_report_names_distinct_entities self table1 :
  graph_ok self = true →
  table1 ∈ dict_keys (Database.__entries self) →
  ∃ printed w,
    table_report (S (length (dict_keys (Database.__entries self)))) self
      table1 = inr (printed, w) ∧
    NoDup (relation_to <$> fout w) ∧
    ∀ l, l ∈ fout w →
      relation_to l ∈ dict_keys (Database.__entries self) ∧
      (relation_type l = "1:1" ↔ relation_to l = table1).
Proof.
  intros Hok Hkey.
  destruct (report_sound self table1 Hok Hkey)
    as (printed & w & Hrun & Hnd & Hkeys & Hsub & Hty).
  exists printed, w. split; [done |]. split.
  - by eapply sublist_NoDup.
  - intros l Hl. split; [| by apply Hty].
    apply Hkeys. eapply elem_of_sublist; [| exact Hsub].
    apply list_elem_of_fmap. by exists l.
Qed.

Lemma X19_report_names_distinct_entities_witness :
  graph_ok (detour_db ["c"; "b"]) = true ∧
  "c" ∈ dict_keys (Database.__entries (detour_db ["c"; "b"])) ∧
  ∃ printed w,
    table_report 4 (detour_db ["c"; "b"]) "c" = inr (printed, w) ∧
    NoDup (relation_to <$> fout w).
Proof.
  assert ("c" ∈ dict_keys (Database.__entries (detour_db ["c"; "b"])))
    as Hkey.
  { apply list_elem_of_In. simpl. tauto. }
  split; [reflexivity |]. split; [exact Hkey |].
  destruct (X19_report_names_distinct_entities (detour_db ["c"; "b"]) "c"
              eq_refl Hkey) as (printed & w & Hrun & Hnd & _).
  exists printed, w. split; [exact Hrun | exact Hnd].
Defined.

(** ** What the accumulation keeps *)

Lemma update_relations_step_mono (self : Table.t) rel count r c :
  dict_get (Table.relations self) r = Some c →
  ∃ c',
    dict_get
      (dict_set (Table.__relations self) rel
         (Z.max (default 0%Z (dict_get (Table.__relations self) rel)) count))
      r = Some c' ∧ (c ≤ c')%Z.
Proof.
  unfold Table.relations. intros Hget. rewrite dict_get_set.
  case_decide as Hr.
  - subst r. rewrite Hget. simpl. eexists. split; [done | lia].
  - exists c. split; [done | lia].
Qed.

Lemma Table_update_relations_mono relations :
  ∀ self r c,
    dict_get (Table.relations self) r = Some c →
    ∃ c', dict_get (Table.relations (Table.update_relations self relations))
            r = Some c' ∧ (c ≤ c')%Z.
Proof.
  induction relations as [|[rel count] relations IH]; intros self r c Hget.
  - exists c. split; [done | lia].
  - destruct (update_relations_step_mono self rel count r c Hget)
      as (c1 & Hc1 & Hle1).
    unfold Table.update_relations. cbn [foldl].
    destruct (IH (Table.with_relations self
                    (dict_set (Table.__relations self) rel
                       (Z.max (default 0%Z
                                 (dict_get (Table.__relations self) rel))
                              count)))
                 r c1 Hc1) as (c' & Hc' & Hle').
    exists c'. split; [exact Hc' | lia].
Qed.

(** X20. [Table.update_relations] never lowers a count and never drops a
    relation: every relation the table had is kept with a count that is
    at least the one it had, and every relation handed to the call is
    stored with a count that is at least the count given. *)
Theorem X20_relation_counts_only_grow self relations :
  (∀ rel c,
     dict_get (Table.relations self) rel = Some c →
     ∃ c', dict_get (Table.relations (Table.update_relations self relations))
             rel = Some c' ∧ (c ≤ c')%Z) ∧
  (∀ rel count,
     (rel, count) ∈ relations →
     ∃ c', dict_get (Table.relations (Table.update_relations self relations))
             rel = Some c' ∧ (count ≤ c')%Z).
Proof.
  split; [intros rel c; apply Table_update_relations_mono |].
  revert self. induction relations as [|[rel0 count0] relations IH];
    intros self rel count Hin.
  - by apply elem_of_nil in Hin.
  - apply elem_of_cons in Hin as [[= -> ->] | Hin].
    + unfold Table.update_relations. cbn [foldl].
      destruct (Table_update_relations_mono relations
                  (Table.with_relations self
                     (dict_set (Table.__relations self) rel0
                        (Z.max (default 0%Z
                                  (dict_get (Table.__relations self) rel0))
                               count0)))
                  rel0
                  (Z.max (default 0%Z
                            (dict_get (Table.__relations self) rel0))
                         count0))
        as (c' & Hc' & Hle).
      { unfold Table.relations. simpl. apply dict_get_set_eq. }
      exists c'. split; [exact Hc' | lia].
    + unfold Table.update_relations. cbn [foldl]. by apply IH.
Qed.

Lemma columns_kept_refl db : columns_kept db db.
Proof.
  intros name table column ty Ht Hc. exists table, ty.
  split; [done |]. split; [done |]. unfold type_le. lia.
Qed.

Lemma columns_kept_trans db1 db2 db3 :
  columns_kept db1 db2 → columns_kept db2 db3 → columns_kept db1 db3.
Proof.
  intros H12 H23 name t1 column ty1 Ht1 Hc1.
  destruct (H12 _ _ _ _ Ht1 Hc1) as (t2 & ty2 & Ht2 & Hc2 & Hle2).
  destruct (H23 _ _ _ _ Ht2 Hc2) as (t3 & ty3 & Ht3 & Hc3 & Hle3).
  exists t3, ty3. split; [done |]. split; [done |].
  unfold type_le in *. lia.
Qed.

(** Storing, for an entity, a table that keeps the columns of the one it
    had *)
Lemma columns_kept_set db name table' :
  (∀ column ty,
     dict_get (Table.columns (Database.entry db name)) column = Some ty →
     ∃ ty', dict_get (Table.columns table') column = Some ty' ∧
            type_le ty ty') →
  columns_kept db
    (Database.with_entries db (dict_set (Database.__entries db) name table')).
Proof.
  intros Hcols n t column ty Ht Hc. unfold Database.entries. simpl.
  rewrite dict_get_set. case_decide as Hn.
  - subst n. destruct (Hcols column ty) as (ty' & Hc' & Hle).
    { unfold Database.entry. unfold Database.entries in Ht.
      by rewrite Ht. }
    by exists table', ty'.
  - exists t, ty. split; [done |]. split; [done |]. unfold type_le. lia.
Qed.

Lemma update_attribute_keeps_columns db name attribute data db' :
  Database.update_attribute db name attribute data = inr db' →
  columns_kept db db'.
Proof.
  unfold Database.update_attribute.
  destruct (negb (Database.__no_columns db));
    [| intros [= <-]; apply columns_kept_refl].
  destruct (Table.update_attribute _ attribute data) as [e | t] eqn:Ht;
    simpl; [done |].
  intros [= <-]. apply columns_kept_set. intros column ty Hc.
  unfold Table.update_attribute in Ht.
  case_decide as Hvalue.
  { injection Ht as <-. exists ty. split; [done |]. unfold type_le. lia. }
  case_decide as Hprk; [done |]. injection Ht as <-.
  unfold Table.columns. simpl. rewrite dict_get_set.
  case_decide as Hcol.
  - subst column. unfold Table.columns in Hc. rewrite Hc. simpl.
    eexists. split; [done |]. apply widen_ge_previous.
  - exists ty. split; [done |]. unfold type_le. lia.
Qed.

Lemma update_value_keeps_columns db name data :
  columns_kept db (Database.update_value db name data).
Proof.
  apply columns_kept_set. intros column ty Hc.
  exists ty. split; [done |]. unfold type_le. lia.
Qed.

Lemma update_relations_keeps_columns db name relations :
  columns_kept db (Database.update_relations db name relations).
Proof.
  apply columns_kept_set. intros column ty Hc.
  exists ty. rewrite Table_update_relations_columns.
  split; [done |]. unfold type_le. lia.
Qed.

(** X21. The walk of a document only adds and widens: every column that
    a table of the database has before the walk is a column of the table
    after it, with a type that is at least the one it had. *)
Theorem X21_walk_keeps_columns root db db' :
  xtd_walk root db = inr db' → columns_kept db db'.
Proof.
  apply (xtd_walk_invariant (columns_kept db)).
  - intros st name attribute data st' Hst Hstep.
    eapply columns_kept_trans; [exact Hst |].
    by eapply update_attribute_keeps_columns.
  - intros st name data Hst.
    eapply columns_kept_trans; [exact Hst |].
    apply update_value_keeps_columns.
  - intros st name relations Hst.
    eapply columns_kept_trans; [exact Hst |].
    apply update_relations_keeps_columns.
  - apply columns_kept_refl.
Qed.

Lemma X21_walk_keeps_columns_witness :
  let db :=
    Database.with_entries (Database.new (-1) false false)
      [("a", Table.with_columns (Table.new "a") [("x", INT)])] in
  ∃ db',
    xtd_walk (Elem "root" [] None [Elem "a" [("x", "text")] None []]) db
      = inr db' ∧
    columns_kept db db'.
Proof.
  intros db. eexists. split; [reflexivity |].
  apply (X21_walk_keeps_columns
           (Elem "root" [] None [Elem "a" [("x", "text")] None []]) db).
  reflexivity.
Defined.
